(** * TAML parser: tokenizer, tree builder, validator and positioned errors

    A shallow embedding of [ts/tokenizer.ts], [ts/parser.ts],
    [ts/validator.ts] and [ts/errors.ts], followed by the properties of
    the specification that were checked against it.

    Conventions of the embedding.
    - A JavaScript string is a [list ascii]: one element per code unit.  The
      tokenizer only ever compares code units with '<', '>', '/', '&', the
      newline and the ASCII letters.
    - Offsets, lines and columns are [nat].
    - A [throw] is the [Throw] outcome; every [while] loop and every
      recursion of the source runs on a fuel counter, and running out of
      fuel is the separate outcome [OutOfFuel] (shown below never to
      happen for the fuel the entry points supply).
    - The classes keep their mutable state ([position], [tokens],
      [tagStack], [errors]) in a record that is threaded through the
      calls; a parser exception leaves the context as it was when raised.
    - Error messages are a function of the other error fields and are not
      modelled. *)

From Stdlib Require Import Ascii String List Arith Bool Lia PeanoNat DecimalString.
Import ListNotations.

Set Implicit Arguments.

(** ** JavaScript strings *)

Definition jsString := list ascii.

Definition str (s : string) : jsString := list_ascii_of_string s.
Arguments str : simpl never.

(** [source[i]]: [None] stands for [undefined]. *)
Definition charAt (s : jsString) (i : nat) : option ascii := nth_error s i.

(** [source.slice(a, b)] for [0 <= a]. *)
Definition slice (s : jsString) (a b : nat) : jsString := firstn (b - a) (skipn a s).

Fixpoint jsEqb (a b : jsString) : bool :=
  match a, b with
  | [], [] => true
  | x :: a', y :: b' => Ascii.eqb x y && jsEqb a' b'
  | _, _ => false
  end.

Definition LT : ascii := "<"%char.
Definition GT : ascii := ">"%char.
Definition SLASH : ascii := "/"%char.
Definition AMP : ascii := "&"%char.
Definition NEWLINE : ascii := "010"%char.

(** ** errors.ts *)

Record Position := mkPosition { pos_line : nat; pos_column : nat }.

(** The [for] loop of [calculatePosition]: [i] runs while [i < index] and
    [i < source.length]; [rest] is the part of the source from [i] on and
    [n] is [index - i]. *)
Fixpoint calculatePositionLoop (rest : jsString) (n : nat) (line column : nat) : Position :=
  match n, rest with
  | S n', c :: rest' =>
      if Ascii.eqb c NEWLINE
      then calculatePositionLoop rest' n' (S line) 1
      else calculatePositionLoop rest' n' line (S column)
  | _, _ => mkPosition line column
  end.

Definition calculatePosition (source : jsString) (index : nat) : Position :=
  calculatePositionLoop source index 1 1.

(** The subclasses of [TamlParseError], with the constructor arguments in
    the order of the source. *)
Inductive TamlParseError :=
| InvalidTagError (tagName : jsString) (position line column : nat) (source : option jsString)
| UnclosedTagError (tagName : jsString) (position line column : nat) (source : option jsString)
| MismatchedTagError (expected actual : jsString) (position line column : nat) (source : option jsString)
| MalformedTagError (content : jsString) (position line column : nat) (source : option jsString)
| UnexpectedEndOfInputError (position line column : nat) (source : option jsString) (context : option jsString)
| UnexpectedCharacterError (character : jsString) (position line column : nat) (source : option jsString) (expected : option jsString).

Definition errPosition (e : TamlParseError) : nat :=
  match e with
  | InvalidTagError _ p _ _ _ | UnclosedTagError _ p _ _ _
  | MismatchedTagError _ _ p _ _ _ | MalformedTagError _ p _ _ _
  | UnexpectedEndOfInputError p _ _ _ _ | UnexpectedCharacterError _ p _ _ _ _ => p
  end.

Definition errLine (e : TamlParseError) : nat :=
  match e with
  | InvalidTagError _ _ l _ _ | UnclosedTagError _ _ l _ _
  | MismatchedTagError _ _ _ l _ _ | MalformedTagError _ _ l _ _
  | UnexpectedEndOfInputError _ l _ _ _ | UnexpectedCharacterError _ _ l _ _ _ => l
  end.

Definition errColumn (e : TamlParseError) : nat :=
  match e with
  | InvalidTagError _ _ _ c _ | UnclosedTagError _ _ _ c _
  | MismatchedTagError _ _ _ _ c _ | MalformedTagError _ _ _ c _
  | UnexpectedEndOfInputError _ _ c _ _ | UnexpectedCharacterError _ _ _ c _ _ => c
  end.

(** The plain [Error]s thrown by the parser, one constructor per message. *)
Inductive PlainError :=
| MaxDepthExceeded (maxDepth : nat)  (* `Maximum nesting depth of ${maxDepth} exceeded` *)
| ExpectedOpenTagToken               (* "Expected open tag token" *)
| ExpectedTextToken.                 (* "Expected text token" *)

(** Everything that can be thrown. *)
Inductive Exn :=
| ParseError (e : TamlParseError)
| GenericError (e : PlainError).

(** [error instanceof TamlParseError]. *)
Definition isTamlParseError (e : Exn) : bool :=
  match e with ParseError _ => true | GenericError _ => false end.

Inductive Result (A : Type) :=
| Ok (a : A)
| Throw (e : Exn)
| OutOfFuel.
Arguments Throw {A} e.
Arguments OutOfFuel {A}.

Definition bind {A B} (r : Result A) (k : A -> Result B) : Result B :=
  match r with
  | Ok a => k a
  | Throw e => Throw e
  | OutOfFuel => OutOfFuel
  end.

Notation "x <- r ;; k" := (bind r (fun x => k))
  (at level 61, r at next level, right associativity).

(** ** The tag vocabulary *)

(** Modelled from the spec: the tag vocabulary belongs to the package
    [@taml/ast], which is not part of the sources; it is the 37 fixed tag
    names (8 standard colours, 8 bright colours, 16 background colours,
    5 text styles) listed in the README. *)
Definition validTags : list jsString :=
  map str
    [ "black"; "red"; "green"; "yellow"; "blue"; "magenta"; "cyan"; "white";
      "brightBlack"; "brightRed"; "brightGreen"; "brightYellow";
      "brightBlue"; "brightMagenta"; "brightCyan"; "brightWhite";
      "bgBlack"; "bgRed"; "bgGreen"; "bgYellow"; "bgBlue"; "bgMagenta";
      "bgCyan"; "bgWhite"; "bgBrightBlack"; "bgBrightRed"; "bgBrightGreen";
      "bgBrightYellow"; "bgBrightBlue"; "bgBrightMagenta"; "bgBrightCyan";
      "bgBrightWhite";
      "bold"; "dim"; "italic"; "underline"; "strikethrough" ]%string.

(** Modelled from the spec: [isValidTag] of [@taml/ast], membership in the
    closed set of tag names. *)
Definition isValidTag (tagName : jsString) : bool :=
  existsb (jsEqb tagName) validTags.

(** ** tokenizer.ts *)

(** The fields shared by all tokens ([interface Token] without [type]). *)
Record Token := mkToken {
  value : jsString;
  tstart : nat;
  tend : nat;
  line : nat;
  column : nat
}.

Inductive TamlToken :=
| OpenTagToken (tagName : jsString) (t : Token)
| CloseTagToken (tagName : jsString) (t : Token)
| TextToken (content : jsString) (t : Token)
| EofToken (t : Token).

Definition base (t : TamlToken) : Token :=
  match t with
  | OpenTagToken _ b | CloseTagToken _ b | TextToken _ b | EofToken b => b
  end.

Definition isOpenTagToken (t : TamlToken) : bool :=
  match t with OpenTagToken _ _ => true | _ => false end.
Definition isCloseTagToken (t : TamlToken) : bool :=
  match t with CloseTagToken _ _ => true | _ => false end.
Definition isTextToken (t : TamlToken) : bool :=
  match t with TextToken _ _ => true | _ => false end.
Definition isEofToken (t : TamlToken) : bool :=
  match t with EofToken _ => true | _ => false end.

(** The private fields [position] and [tokens] of [TamlTokenizer]. *)
Record TokenizerState := mkTokenizerState {
  position : nat;
  tokens : list TamlToken
}.

(** [/^[a-zA-Z]+$/.test(tagName)] *)
Definition isLetter (c : ascii) : bool :=
  let n := nat_of_ascii c in
  ((65 <=? n) && (n <=? 90)) || ((97 <=? n) && (n <=? 122)).

Definition lettersOnly (tagName : jsString) : bool :=
  match tagName with
  | [] => false
  | _ => forallb isLetter tagName
  end.

Section Tokenizer.

Variable source : jsString.

(** The [while] loop of [tokenizeTag] that reads the tag name.  Its third
    conjunct, [this.source[this.position]], is a one-character string
    whenever the first conjunct holds, hence always truthy. *)
Fixpoint readTagName (fuel : nat) (position : nat) : Result nat :=
  match fuel with
  | O => OutOfFuel
  | S fuel' =>
      match charAt source position with
      | Some c =>
          if Ascii.eqb c GT then Ok position
          else readTagName fuel' (position + 1)
      | None => Ok position
      end
  end.

Definition tokenizeTag (fuel : nat) (st : TokenizerState) : Result TokenizerState :=
  let start := position st in
  let startPos := calculatePosition source start in
  match charAt source start with
  | Some c =>
      if negb (Ascii.eqb c LT) then
        Throw (ParseError (MalformedTagError [c] start
                 (pos_line startPos) (pos_column startPos) (Some source)))
      else
        let position1 := start + 1 in
        let isClosing :=
          match charAt source position1 with
          | Some c1 => Ascii.eqb c1 SLASH
          | None => false
          end in
        let position2 := if isClosing then position1 + 1 else position1 in
        let tagNameStart := position2 in
        position3 <- readTagName fuel position2 ;;
        let tagName := slice source tagNameStart position3 in
        if jsEqb tagName [] then
          Throw (ParseError (MalformedTagError (slice source start (position3 + 1)) start
                   (pos_line startPos) (pos_column startPos) (Some source)))
        else if negb (lettersOnly tagName) then
          Throw (ParseError (MalformedTagError (slice source start (position3 + 1)) start
                   (pos_line startPos) (pos_column startPos) (Some source)))
        else
          match charAt source position3 with
          | Some c3 =>
              if Ascii.eqb c3 GT then
                let position4 := position3 + 1 in
                let tokEnd := position4 in
                let value := slice source start tokEnd in
                if negb (isValidTag tagName) then
                  Throw (ParseError (InvalidTagError tagName start
                           (pos_line startPos) (pos_column startPos) (Some source)))
                else
                  let b := mkToken value start tokEnd
                             (pos_line startPos) (pos_column startPos) in
                  let token := if isClosing then CloseTagToken tagName b
                               else OpenTagToken tagName b in
                  Ok (mkTokenizerState position4 (tokens st ++ [token]))
              else
                Throw (ParseError (UnexpectedEndOfInputError position3
                         (pos_line startPos) (pos_column startPos) (Some source)
                         (Some (str "parsing tag"))))
          | None =>
              Throw (ParseError (UnexpectedEndOfInputError position3
                       (pos_line startPos) (pos_column startPos) (Some source)
                       (Some (str "parsing tag"))))
          end
  | None =>
      Throw (ParseError (MalformedTagError [] start
               (pos_line startPos) (pos_column startPos) (Some source)))
  end.

(** The [while] loop of [tokenizeText]; the result is the final
    [position] and [content]. *)
Fixpoint readText (fuel : nat) (position : nat) (content : jsString)
  : Result (nat * jsString) :=
  match fuel with
  | O => OutOfFuel
  | S fuel' =>
      match charAt source position with
      | Some c =>
          if Ascii.eqb c LT then Ok (position, content)
          else if Ascii.eqb c AMP
                  && jsEqb (slice source position (position + 4)) (str "&lt;")
          then readText fuel' (position + 4) (content ++ [LT])
          else if Ascii.eqb c AMP
                  && jsEqb (slice source position (position + 5)) (str "&amp;")
          then readText fuel' (position + 5) (content ++ [AMP])
          else readText fuel' (position + 1) (content ++ [c])
      | None => Ok (position, content)
      end
  end.

Definition tokenizeText (fuel : nat) (st : TokenizerState) : Result TokenizerState :=
  let start := position st in
  let startPos := calculatePosition source start in
  r <- readText fuel start [] ;;
  let '(tokEnd, content) := r in
  let value := slice source start tokEnd in
  let token := TextToken content
                 (mkToken value start tokEnd (pos_line startPos) (pos_column startPos)) in
  Ok (mkTokenizerState tokEnd (tokens st ++ [token])).

Definition tokenizeNext (fuel : nat) (st : TokenizerState) : Result TokenizerState :=
  match charAt source (position st) with
  | None => Ok st
  | Some c =>
      if Ascii.eqb c LT then tokenizeTag fuel st else tokenizeText fuel st
  end.

(** The [while] loop of [tokenize]. *)
Fixpoint tokenizeLoop (fuel : nat) (st : TokenizerState) : Result TokenizerState :=
  match fuel with
  | O => OutOfFuel
  | S fuel' =>
      if position st <? length source then
        st' <- tokenizeNext (S (length source)) st ;;
        tokenizeLoop fuel' st'
      else Ok st
  end.

Definition tokenizerRun : Result (list TamlToken) :=
  st <- tokenizeLoop (S (length source)) (mkTokenizerState 0 []) ;;
  let p := calculatePosition source (position st) in
  Ok (tokens st ++
      [EofToken (mkToken [] (position st) (position st) (pos_line p) (pos_column p))]).

End Tokenizer.

(** [tokenize(source)]: a fresh [TamlTokenizer] and its [tokenize()]. *)
Definition tokenize (source : jsString) : Result (list TamlToken) :=
  tokenizerRun source.

(** ** The tree nodes *)

Unset Elimination Schemes.

(** Modelled from the spec: the node types come from the package
    [@taml/ast], which is not part of the sources.  A node is a Document
    (ordered children and span), an Element (tag name, ordered children and
    span) or a Text (content and span). *)
Inductive TamlNode :=
| DocumentNode (children : list TamlNode) (nstart nend : nat)
| ElementNode (tagName : jsString) (children : list TamlNode) (nstart nend : nat)
| TextNode (content : jsString) (nstart nend : nat).

Set Elimination Schemes.

(** Modelled from the spec: the constructors [createDocument],
    [createElement] and [createText] of [@taml/ast] make a node from its
    parts and its span. *)
Definition createDocument (children : list TamlNode) (s e : nat) : TamlNode :=
  DocumentNode children s e.
Definition createElement (tagName : jsString) (children : list TamlNode) (s e : nat) : TamlNode :=
  ElementNode tagName children s e.
Definition createText (content : jsString) (s e : nat) : TamlNode :=
  TextNode content s e.

(** ** parser.ts *)

(** The mutable part of [ParseContext]; its [tokens] and [source] never
    change and are parameters of the section below.  [tagStack] is the
    array as it is: [push] appends, the top is the last entry. *)
Record ParseContext := mkParseContext {
  ctxPosition : nat;
  tagStack : list (jsString * TamlToken)
}.

(** A computation on the context that may throw; the context survives. *)
Definition Parser (A : Type) : Type := ParseContext -> Result A * ParseContext.

Definition pret {A} (a : A) : Parser A := fun ctx => (Ok a, ctx).
Definition pthrow {A} (e : Exn) : Parser A := fun ctx => (Throw e, ctx).
Definition pbind {A B} (m : Parser A) (k : A -> Parser B) : Parser B :=
  fun ctx =>
    match m ctx with
    | (Ok a, ctx') => k a ctx'
    | (Throw e, ctx') => (Throw e, ctx')
    | (OutOfFuel, ctx') => (OutOfFuel, ctx')
    end.

Notation "x <~ m ;; k" := (pbind m (fun x => k))
  (at level 61, m at next level, right associativity).

(** [tagStack[tagStack.length - 1]] *)
Definition stackTop {A} (s : list A) : option A :=
  match s with
  | [] => None
  | x :: _ => Some (last s x)
  end.

Record ParseOptions := mkParseOptions {
  includePositions : bool;
  maxDepth : nat
}.

Section Parser.

Variable source : jsString.
Variable tokens : list TamlToken.

Definition advance (ctx : ParseContext) : ParseContext :=
  mkParseContext (ctxPosition ctx + 1) (tagStack ctx).

Definition parseText : Parser TamlNode := fun ctx =>
  match nth_error tokens (ctxPosition ctx) with
  | Some (TextToken content t) =>
      (Ok (createText content (tstart t) (tend t)), advance ctx)
  | _ => (Throw (GenericError ExpectedTextToken), ctx)
  end.

(** [parseElementWithDepth]; the recursive call to [parseNodesWithDepth]
    is the parameter [parseNodes]. *)
Definition parseElementWithDepth
    (parseNodes : nat -> nat -> Parser (list TamlNode))
    (currentDepth maxDepth : nat) : Parser TamlNode := fun ctx =>
  match nth_error tokens (ctxPosition ctx) with
  | Some (OpenTagToken openName openTok) =>
      let openToken := OpenTagToken openName openTok in
      let ctx1 := mkParseContext (ctxPosition ctx + 1)
                    (tagStack ctx ++ [(openName, openToken)]) in
      (children <~ parseNodes (currentDepth + 1) maxDepth ;;
       fun ctx2 =>
         if length tokens <=? ctxPosition ctx2 then
           (Throw (ParseError (UnclosedTagError openName (tstart openTok)
                     (line openTok) (column openTok) (Some source))), ctx2)
         else
           match nth_error tokens (ctxPosition ctx2) with
           | Some (CloseTagToken closeName closeTok) =>
               if negb (jsEqb closeName openName) then
                 (Throw (ParseError (MismatchedTagError openName closeName
                           (tstart closeTok) (line closeTok) (column closeTok)
                           (Some source))), ctx2)
               else
                 (Ok (createElement openName children (tstart openTok) (tend closeTok)),
                  mkParseContext (ctxPosition ctx2 + 1) (removelast (tagStack ctx2)))
           | _ =>
               (Throw (ParseError (UnclosedTagError openName (tstart openTok)
                         (line openTok) (column openTok) (Some source))), ctx2)
           end) ctx1
  | _ => (Throw (GenericError ExpectedOpenTagToken), ctx)
  end.

(** The [while] loop of [parseNodesWithDepth], with [nodes] the array built
    so far.  A token is one of the four kinds, so the final
    "skip unexpected tokens" branch of the source is never taken. *)
Fixpoint parseNodesLoop (fuel : nat) (currentDepth maxDepth : nat)
    (nodes : list TamlNode) : Parser (list TamlNode) :=
  match fuel with
  | O => fun ctx => (OutOfFuel, ctx)
  | S fuel' => fun ctx =>
      match nth_error tokens (ctxPosition ctx) with
      | None => (Ok nodes, ctx)
      | Some (EofToken _) => (Ok nodes, ctx)
      | Some (CloseTagToken _ _) => (Ok nodes, ctx)
      | Some (OpenTagToken _ _) =>
          (element <~ parseElementWithDepth
                        (fun d m =>
                           if m <? d then pthrow (GenericError (MaxDepthExceeded m))
                           else parseNodesLoop fuel' d m [])
                        currentDepth maxDepth ;;
           parseNodesLoop fuel' currentDepth maxDepth (nodes ++ [element])) ctx
      | Some (TextToken _ _) =>
          (text <~ parseText ;;
           parseNodesLoop fuel' currentDepth maxDepth (nodes ++ [text])) ctx
      end
  end.

Definition parseNodesWithDepth (fuel : nat) (currentDepth maxDepth : nat)
  : Parser (list TamlNode) :=
  if maxDepth <? currentDepth then pthrow (GenericError (MaxDepthExceeded maxDepth))
  else parseNodesLoop fuel currentDepth maxDepth [].

(** The body of [parseWithOptions] after tokenizing, together with the
    context it ends in. *)
Definition parseTokens (options : ParseOptions) : Result TamlNode * ParseContext :=
  (children <~ parseNodesWithDepth (S (length tokens)) 0 (maxDepth options) ;;
   fun ctx =>
     match stackTop (tagStack ctx) with
     | Some (unclosedName, unclosedToken) =>
         (Throw (ParseError (UnclosedTagError unclosedName
                   (tstart (base unclosedToken)) (line (base unclosedToken))
                   (column (base unclosedToken)) (Some source))), ctx)
     | None => (Ok (createDocument children 0 (length source)), ctx)
     end) (mkParseContext 0 []).

End Parser.

Definition parseWithOptions (source : jsString) (options : ParseOptions) : Result TamlNode :=
  tokens <- tokenize source ;;
  fst (parseTokens source tokens options).

(** [stripPositionsFromNode] and [stripPositions]. *)
Fixpoint stripPositionsFromNode (node : TamlNode) : TamlNode :=
  match node with
  | DocumentNode children _ _ =>
      createDocument (map stripPositionsFromNode children) 0 0
  | ElementNode tagName children _ _ =>
      createElement tagName (map stripPositionsFromNode children) 0 0
  | TextNode content _ _ => createText content 0 0
  end.

(** The argument of [stripPositions] is typed [DocumentNode] and the only
    call passes the document built by [parseWithOptions].  It reads
    [node.children]; a text node has none and is never passed. *)
Definition stripPositions (node : TamlNode) : TamlNode :=
  match node with
  | DocumentNode children _ _ | ElementNode _ children _ _ =>
      createDocument (map stripPositionsFromNode children) 0 0
  | TextNode _ _ _ => createDocument [] 0 0
  end.

(** The optional argument [options?: ParseOptions] of [parseTaml]: an absent
    field is [None]. *)
Record PartialOptions := mkPartialOptions {
  optIncludePositions : option bool;
  optMaxDepth : option nat
}.

Definition noOptions : PartialOptions := mkPartialOptions None None.

(** [{ includePositions: true, maxDepth: 100, ...options }] *)
Definition withDefaults (options : PartialOptions) : ParseOptions :=
  mkParseOptions
    (match optIncludePositions options with Some b => b | None => true end)
    (match optMaxDepth options with Some d => d | None => 100 end).

Definition parseTaml (source : jsString) (options : PartialOptions) : Result TamlNode :=
  let opts := withDefaults options in
  ast <- parseWithOptions source opts ;;
  if negb (includePositions opts) then Ok (stripPositions ast) else Ok ast.

(** ** validator.ts *)

(** The mutable part of [ValidationContext]. *)
Record ValidationContext := mkValidationContext {
  vPosition : nat;
  vTagStack : list (jsString * TamlToken);
  vErrors : list Exn
}.

Record ValidationResult := mkValidationResult {
  valid : bool;
  errors : list Exn
}.

Section Validator.

Variable source : jsString.

Definition validateOpenTag (ctx : ValidationContext) (token : TamlToken) : ValidationContext :=
  match token with
  | OpenTagToken tagName t =>
      if negb (isValidTag tagName) then
        mkValidationContext (vPosition ctx + 1) (vTagStack ctx)
          (vErrors ctx ++ [ParseError (InvalidTagError tagName (tstart t) (line t)
                                         (column t) (Some source))])
      else
        mkValidationContext (vPosition ctx + 1) (vTagStack ctx ++ [(tagName, token)])
          (vErrors ctx)
  | _ => mkValidationContext (vPosition ctx + 1) (vTagStack ctx) (vErrors ctx)
  end.

Definition validateCloseTag (ctx : ValidationContext) (token : TamlToken) : ValidationContext :=
  match token with
  | CloseTagToken tagName t =>
      if negb (isValidTag tagName) then
        mkValidationContext (vPosition ctx + 1) (vTagStack ctx)
          (vErrors ctx ++ [ParseError (InvalidTagError tagName (tstart t) (line t)
                                         (column t) (Some source))])
      else
        match stackTop (vTagStack ctx) with
        | None =>
            mkValidationContext (vPosition ctx + 1) (vTagStack ctx)
              (vErrors ctx ++ [ParseError (MismatchedTagError (str "(none)") tagName
                                             (tstart t) (line t) (column t) (Some source))])
        | Some (lastName, _) =>
            if negb (jsEqb lastName tagName) then
              mkValidationContext (vPosition ctx + 1) (vTagStack ctx)
                (vErrors ctx ++ [ParseError (MismatchedTagError lastName tagName
                                               (tstart t) (line t) (column t) (Some source))])
            else
              mkValidationContext (vPosition ctx + 1) (removelast (vTagStack ctx))
                (vErrors ctx)
        end
  | _ => mkValidationContext (vPosition ctx + 1) (vTagStack ctx) (vErrors ctx)
  end.

(** The [while] loop of [validateTokenSequence].  Every turn of the loop
    either stops or moves [position] forward by exactly one, so the loop is
    a recursion on [rest], the tokens from [position] on. *)
Fixpoint validateTokenSequence (rest : list TamlToken) (ctx : ValidationContext)
  : ValidationContext :=
  match rest with
  | [] => ctx
  | token :: rest' =>
      match token with
      | EofToken _ => ctx
      | OpenTagToken _ _ => validateTokenSequence rest' (validateOpenTag ctx token)
      | CloseTagToken _ _ => validateTokenSequence rest' (validateCloseTag ctx token)
      | TextToken _ _ =>
          validateTokenSequence rest'
            (mkValidationContext (vPosition ctx + 1) (vTagStack ctx) (vErrors ctx))
      end
  end.

(** [validateTokens].  Nothing called inside its [try] block throws, so the
    [catch] branch has no counterpart here. *)
Definition validateTokens (tokens : list TamlToken) : ValidationResult :=
  let ctx0 := mkValidationContext 0 [] [] in
  let ctx1 := validateTokenSequence (skipn (vPosition ctx0) tokens) ctx0 in
  let ctx2 :=
    match stackTop (vTagStack ctx1) with
    | Some (unclosedName, unclosedToken) =>
        mkValidationContext (vPosition ctx1) (vTagStack ctx1)
          (vErrors ctx1 ++
             [ParseError (UnclosedTagError unclosedName
                            (tstart (base unclosedToken)) (line (base unclosedToken))
                            (column (base unclosedToken)) (Some source))])
    | None => ctx1
    end in
  mkValidationResult (length (vErrors ctx2) =? 0) (vErrors ctx2).

End Validator.

(** [validateTamlTokens(tokens, source)] *)
Definition validateTamlTokens (tokens : list TamlToken) (source : jsString) : ValidationResult :=
  validateTokens source tokens.

(** [validateNesting]: the [for ... of] loop is a fold over the tokens; the
    state is the tag stack and the list of mismatches. *)
Definition nestingStep (st : list jsString * list (jsString * jsString)) (token : TamlToken)
  : list jsString * list (jsString * jsString) :=
  let '(stack, mismatched) := st in
  match token with
  | OpenTagToken tagName _ =>
      if isValidTag tagName then (stack ++ [tagName], mismatched) else st
  | CloseTagToken tagName _ =>
      if isValidTag tagName then
        match stackTop stack with
        | None => (stack, mismatched ++ [(str "(none)", tagName)])
        | Some lastTag =>
            (* the empty string is falsy: [lastTag && ...] and [else if (lastTag)] *)
            if negb (jsEqb lastTag []) && jsEqb lastTag tagName
            then (removelast stack, mismatched)
            else if negb (jsEqb lastTag [])
            then (stack, mismatched ++ [(lastTag, tagName)])
            else st
        end
      else st
  | _ => st
  end.

Record NestingResult := mkNestingResult {
  nestingValid : bool;
  unclosedTags : list jsString;
  mismatchedTags : list (jsString * jsString)
}.

Definition validateNesting (tokens : list TamlToken) : NestingResult :=
  let '(stack, mismatched) := fold_left nestingStep tokens ([], []) in
  mkNestingResult ((length stack =? 0) && (length mismatched =? 0)) stack mismatched.

(** [validateTagClosure]: a fold as well; the stack keeps the offset of each
    open tag, and the tags left on it at the end are all reported. *)
Inductive IssueType := IssueUnclosed | IssueExtra | IssueMismatched.

Record ClosureIssue := mkClosureIssue {
  issueType : IssueType;
  issueTagName : jsString;
  issuePosition : nat
}.

Definition closureStep (st : list (jsString * nat) * list ClosureIssue) (token : TamlToken)
  : list (jsString * nat) * list ClosureIssue :=
  let '(stack, issues) := st in
  match token with
  | OpenTagToken tagName t =>
      if isValidTag tagName then (stack ++ [(tagName, tstart t)], issues) else st
  | CloseTagToken tagName t =>
      if isValidTag tagName then
        match stackTop stack with
        | None => (stack, issues ++ [mkClosureIssue IssueExtra tagName (tstart t)])
        | Some (lastName, _) =>
            if jsEqb lastName tagName then (removelast stack, issues)
            else (stack, issues ++ [mkClosureIssue IssueMismatched tagName (tstart t)])
        end
      else st
  | _ => st
  end.

Definition validateTagClosure (tokens : list TamlToken) : bool * list ClosureIssue :=
  let '(stack, issues) := fold_left closureStep tokens ([], []) in
  let issues' :=
    issues ++ map (fun e => mkClosureIssue IssueUnclosed (fst e) (snd e)) stack in
  (length issues' =? 0, issues').

(** ** errors.ts: messages and the detailed rendering *)

(** [String(n)] and [`${n}`] for a non-negative integer. *)
Definition showNat (n : nat) : jsString :=
  list_ascii_of_string (NilEmpty.string_of_uint (Nat.to_uint n)).

Definition QUOTE : ascii := "'"%char.
Definition SPACE : ascii := " "%char.
Definition CARET : ascii := "^"%char.

(** [" at line ${line}, column ${column}"], common to all the templates. *)
Definition atLineColumn (line column : nat) : jsString :=
  str " at line " ++ showNat line ++ str ", column " ++ showNat column.

(** The [message] each subclass passes to [super]. *)
Definition errMessage (e : TamlParseError) : jsString :=
  match e with
  | InvalidTagError tagName _ l c _ =>
      str "Invalid tag name " ++ [QUOTE] ++ tagName ++ [QUOTE] ++ atLineColumn l c
      ++ str ". Tag names must be one of the 37 valid TAML tags."
  | UnclosedTagError tagName _ l c _ =>
      str "Unclosed tag " ++ [QUOTE] ++ tagName ++ [QUOTE] ++ atLineColumn l c
      ++ str ". Expected " ++ [QUOTE] ++ str "</" ++ tagName ++ str ">" ++ [QUOTE]
      ++ str " before end of input."
  | MismatchedTagError expected actual _ l c _ =>
      str "Mismatched closing tag" ++ atLineColumn l c
      ++ str ". Expected " ++ [QUOTE] ++ str "</" ++ expected ++ str ">" ++ [QUOTE]
      ++ str " but found " ++ [QUOTE] ++ str "</" ++ actual ++ str ">" ++ [QUOTE]
      ++ str "."
  | MalformedTagError content _ l c _ =>
      str "Malformed tag " ++ [QUOTE] ++ content ++ [QUOTE] ++ atLineColumn l c
      ++ str ". Tags must follow the pattern " ++ [QUOTE] ++ str "<tagName>" ++ [QUOTE]
      ++ str " or " ++ [QUOTE] ++ str "</tagName>" ++ [QUOTE] ++ str "."
  | UnexpectedEndOfInputError _ l c _ context =>
      let contextMsg :=
        match context with
        | Some (x :: ctx) => str " while " ++ (x :: ctx)
        | _ => []
        end in
      str "Unexpected end of input" ++ atLineColumn l c ++ contextMsg ++ str "."
  | UnexpectedCharacterError character _ l c _ expected =>
      let expectedMsg :=
        match expected with
        | Some (x :: ex) => str " Expected " ++ (x :: ex) ++ str "."
        | _ => []
        end in
      str "Unexpected character " ++ [QUOTE] ++ character ++ [QUOTE] ++ atLineColumn l c
      ++ str "." ++ expectedMsg
  end.

Definition errSource (e : TamlParseError) : option jsString :=
  match e with
  | InvalidTagError _ _ _ _ s | UnclosedTagError _ _ _ _ s
  | MismatchedTagError _ _ _ _ _ s | MalformedTagError _ _ _ _ s
  | UnexpectedEndOfInputError _ _ _ s _ | UnexpectedCharacterError _ _ _ _ s _ => s
  end.

(** [source.split("\n")] *)
Fixpoint splitLines (s : jsString) : list jsString :=
  match s with
  | [] => [[]]
  | c :: r =>
      if Ascii.eqb c NEWLINE then [] :: splitLines r
      else
        match splitLines r with
        | first :: others => (c :: first) :: others
        | [] => [[c]]
        end
  end.

(** [" ".repeat(n)] *)
Definition spaces (n : nat) : jsString := repeat SPACE n.

(** [lines[this.line - 1]]: [None] is [undefined], also for line 0, where
    the index is -1. *)
Definition errorLineOf (source : jsString) (line : nat) : option jsString :=
  match line with
  | O => None
  | S k => nth_error (splitLines source) k
  end.

(** [`${" ".repeat(Math.max(0, this.column - 1))}^`] *)
Definition pointerOf (column : nat) : jsString := spaces (column - 1) ++ [CARET].

(** [getDetailedMessage]; an absent source and the empty source are both
    falsy, and so are an absent and an empty error line. *)
Definition getDetailedMessage (e : TamlParseError) : jsString :=
  match errSource e with
  | None | Some [] => errMessage e
  | Some source =>
      let errorLine := errorLineOf source (errLine e) in
      let pointer := pointerOf (errColumn e) in
      errMessage e ++ [NEWLINE; NEWLINE]
      ++ showNat (errLine e) ++ str " | "
      ++ match errorLine with Some ln => ln | None => [] end ++ [NEWLINE]
      ++ spaces (length (showNat (errLine e))) ++ str " | " ++ pointer
      ++ [NEWLINE; NEWLINE]
      ++ str "Position: line " ++ showNat (errLine e) ++ str ", column "
      ++ showNat (errColumn e)
  end.

(** [createErrorAtPosition]: [ErrorClass] applied to its additional
    arguments is the function [mk] of the position, line, column and
    source. *)
Definition createErrorAtPosition
    (mk : nat -> nat -> nat -> option jsString -> TamlParseError)
    (source : jsString) (position : nat) : TamlParseError :=
  let p := calculatePosition source position in
  mk position (pos_line p) (pos_column p) (Some source).

(** ** parser.ts: [parse] without options, and the wrappers *)

Section PlainParser.

Variable source : jsString.
Variable tokens : list TamlToken.

(** [parseElement]; the recursive call to [parseNodes] is the parameter. *)
Definition parseElement (parseNodes : Parser (list TamlNode)) : Parser TamlNode := fun ctx =>
  match nth_error tokens (ctxPosition ctx) with
  | Some (OpenTagToken openName openTok) =>
      let openToken := OpenTagToken openName openTok in
      let ctx1 := mkParseContext (ctxPosition ctx + 1)
                    (tagStack ctx ++ [(openName, openToken)]) in
      (children <~ parseNodes ;;
       fun ctx2 =>
         if length tokens <=? ctxPosition ctx2 then
           (Throw (ParseError (UnclosedTagError openName (tstart openTok)
                     (line openTok) (column openTok) (Some source))), ctx2)
         else
           match nth_error tokens (ctxPosition ctx2) with
           | Some (CloseTagToken closeName closeTok) =>
               if negb (jsEqb closeName openName) then
                 (Throw (ParseError (MismatchedTagError openName closeName
                           (tstart closeTok) (line closeTok) (column closeTok)
                           (Some source))), ctx2)
               else
                 (Ok (createElement openName children (tstart openTok) (tend closeTok)),
                  mkParseContext (ctxPosition ctx2 + 1) (removelast (tagStack ctx2)))
           | _ =>
               (Throw (ParseError (UnclosedTagError openName (tstart openTok)
                         (line openTok) (column openTok) (Some source))), ctx2)
           end) ctx1
  | _ => (Throw (GenericError ExpectedOpenTagToken), ctx)
  end.

(** The [while] loop of [parseNodes]. *)
Fixpoint parseNodes (fuel : nat) (nodes : list TamlNode) : Parser (list TamlNode) :=
  match fuel with
  | O => fun ctx => (OutOfFuel, ctx)
  | S fuel' => fun ctx =>
      match nth_error tokens (ctxPosition ctx) with
      | None => (Ok nodes, ctx)
      | Some (EofToken _) => (Ok nodes, ctx)
      | Some (CloseTagToken _ _) => (Ok nodes, ctx)
      | Some (OpenTagToken _ _) =>
          (element <~ parseElement (parseNodes fuel' []) ;;
           parseNodes fuel' (nodes ++ [element])) ctx
      | Some (TextToken _ _) =>
          (text <~ parseText tokens ;;
           parseNodes fuel' (nodes ++ [text])) ctx
      end
  end.

(** The body of [parse] after tokenizing. *)
Definition parsePlainTokens : Result TamlNode * ParseContext :=
  (children <~ parseNodes (S (length tokens)) [] ;;
   fun ctx =>
     match stackTop (tagStack ctx) with
     | Some (unclosedName, unclosedToken) =>
         (Throw (ParseError (UnclosedTagError unclosedName
                   (tstart (base unclosedToken)) (line (base unclosedToken))
                   (column (base unclosedToken)) (Some source))), ctx)
     | None => (Ok (createDocument children 0 (length source)), ctx)
     end) (mkParseContext 0 []).

End PlainParser.

(** [new TamlParser(source).parse()] *)
Definition parse (source : jsString) : Result TamlNode :=
  tokens <- tokenize source ;;
  fst (parsePlainTokens source tokens).

(** The result of [parseTamlSafe]: [success] with [ast], or not with
    [error]. *)
Inductive SafeResult :=
| SafeSuccess (ast : TamlNode)
| SafeFailure (error : Exn).

(** [parseTamlSafe]: the [try] around [parseTaml].  Everything thrown is an
    [Error].  The outcome is a [Result] only because of the fuel. *)
Definition parseTamlSafe (source : jsString) (options : PartialOptions) : Result SafeResult :=
  match parseTaml source options with
  | Ok ast => Ok (SafeSuccess ast)
  | Throw e => Ok (SafeFailure e)
  | OutOfFuel => OutOfFuel
  end.

(** [validateTaml] *)
Definition validateTaml (source : jsString) : Result ValidationResult :=
  match parseTaml source noOptions with
  | Ok _ => Ok (mkValidationResult true [])
  | Throw e => Ok (mkValidationResult false [e])
  | OutOfFuel => OutOfFuel
  end.

(** ** Notions used to state the properties *)

(** The text of the specification on entities, read as a left-to-right
    rewriting of a string: ["&lt;"] becomes '<', ["&amp;"] becomes '&', any
    other character is copied. *)
Fixpoint decodeEntities (s : jsString) : jsString :=
  match s with
  | [] => []
  | c :: r =>
      match r with
      | c1 :: c2 :: c3 :: r3 =>
          if jsEqb [c; c1; c2; c3] (str "&lt;") then LT :: decodeEntities r3
          else
            match r3 with
            | c4 :: r4 =>
                if jsEqb [c; c1; c2; c3; c4] (str "&amp;") then AMP :: decodeEntities r4
                else c :: decodeEntities r
            | [] => c :: decodeEntities r
            end
      | _ => c :: decodeEntities r
      end
  end.


(** A token sequence is well nested when every close tag closes the
    innermost open tag and nothing is left open at the end marker, which
    comes last.  [opened] lists the names of the open tags, innermost
    first. *)
Fixpoint wellNested (opened : list jsString) (toks : list TamlToken) : bool :=
  match toks with
  | [] => match opened with [] => true | _ => false end
  | OpenTagToken n _ :: r => wellNested (n :: opened) r
  | CloseTagToken n _ :: r =>
      match opened with
      | top :: opened' => jsEqb n top && wellNested opened' r
      | [] => false
      end
  | TextToken _ _ :: r => wellNested opened r
  | EofToken _ :: r =>
      match opened, r with
      | [], [] => true
      | _, _ => false
      end
  end.

(** The largest number of simultaneously open tags while the tokens are
    read, starting with [current] open tags. *)
Fixpoint nestingDepth (current : nat) (toks : list TamlToken) : nat :=
  match toks with
  | [] => current
  | OpenTagToken _ _ :: r => Nat.max current (nestingDepth (S current) r)
  | CloseTagToken _ _ :: r => Nat.max current (nestingDepth (Nat.pred current) r)
  | _ :: r => nestingDepth current r
  end.

(** The open-tag tokens not yet closed after reading some tokens, outermost
    first: an open tag is added at the end, a close tag removes the last. *)
Definition openStep (opened : list TamlToken) (token : TamlToken) : list TamlToken :=
  match token with
  | OpenTagToken _ _ => opened ++ [token]
  | CloseTagToken _ _ => removelast opened
  | _ => opened
  end.

Definition unclosedOpenTags (toks : list TamlToken) : list TamlToken :=
  fold_left openStep toks [].

(** Two trees agree on everything but positions: same kinds of node, tag
    names, text contents, and children in the same number and order. *)
Fixpoint sameStructure (a b : TamlNode) : bool :=
  let fix sameChildren (l1 l2 : list TamlNode) : bool :=
    match l1, l2 with
    | [], [] => true
    | x :: l1', y :: l2' => sameStructure x y && sameChildren l1' l2'
    | _, _ => false
    end in
  match a, b with
  | DocumentNode ca _ _, DocumentNode cb _ _ => sameChildren ca cb
  | ElementNode ta ca _ _, ElementNode tb cb _ _ => jsEqb ta tb && sameChildren ca cb
  | TextNode x _ _, TextNode y _ _ => jsEqb x y
  | _, _ => false
  end.

(** Every node of the tree has [start = 0] and [end = 0]. *)
Fixpoint positionsZero (n : TamlNode) : bool :=
  match n with
  | DocumentNode c s e | ElementNode _ c s e =>
      (s =? 0) && (e =? 0) && forallb positionsZero c
  | TextNode _ s e => (s =? 0) && (e =? 0)
  end.

(** [n] copies of a string, for deeply nested inputs. *)
Fixpoint repeatStr (n : nat) (s : jsString) : jsString :=
  match n with
  | O => []
  | S n' => s ++ repeatStr n' s
  end.

Definition nested (n : nat) : jsString :=
  repeatStr n (str "<bold>") ++ str "x" ++ repeatStr n (str "</bold>").

(** What the tokenizer guarantees of every token before the end marker. *)
Definition wellPlaced (source : jsString) (t : TamlToken) : Prop :=
  isEofToken t = false /\
  tstart (base t) < tend (base t) /\
  tend (base t) <= length source /\
  mkPosition (line (base t)) (column (base t)) = calculatePosition source (tstart (base t)) /\
  (isTextToken t = false -> charAt source (tstart (base t)) = Some LT).

(** The errors the tokenizer throws: a malformed or unknown tag is reported
    at the offset of its '<'; an unterminated tag is reported with the
    offset where the input ended and the line and column of an earlier
    offset. *)
Definition lexicalError (source : jsString) (e : Exn) : Prop :=
  match e with
  | ParseError (MalformedTagError _ p l c _)
  | ParseError (InvalidTagError _ p l c _) =>
      mkPosition l c = calculatePosition source p
  | ParseError (UnexpectedEndOfInputError p l c _ _) =>
      exists start, start < p /\ mkPosition l c = calculatePosition source start
  | _ => False
  end.

(** The tree builder's child loop stops at the end marker, at a close tag
    or past the last token. *)
Definition stopsAt (tokens : list TamlToken) (pos : nat) : Prop :=
  match nth_error tokens pos with
  | None | Some (EofToken _) | Some (CloseTagToken _ _) => True
  | _ => False
  end.

(** The tag stack of the tree builder holds the open tags that the tokens
    read so far have left unclosed. *)
Definition stackInv (tokens : list TamlToken) (ctx : ParseContext) : Prop :=
  map snd (tagStack ctx) = unclosedOpenTags (firstn (ctxPosition ctx) tokens).

(** The tokens of a source that tokenizes, for stating properties of the
    consumers of a token sequence on concrete inputs. *)
Definition tokensOf (source : jsString) : list TamlToken :=
  match tokenize source with
  | Ok toks => toks
  | _ => []
  end.

(** What a token says of the source: its [value] is the slice it spans; a
    tag token is ['<'], an optional ['/'], one of the 37 names and ['>']; a
    text token has no ['<'] and its [content] is its decoded [value]. *)
Definition tokenFaithful (source : jsString) (t : TamlToken) : Prop :=
  value (base t) = slice source (tstart (base t)) (tend (base t)) /\
  match t with
  | OpenTagToken n _ => value (base t) = LT :: n ++ [GT] /\ isValidTag n = true
  | CloseTagToken n _ => value (base t) = LT :: SLASH :: n ++ [GT] /\ isValidTag n = true
  | TextToken c _ => ~ In LT (value (base t)) /\ c = decodeEntities (value (base t))
  | EofToken _ => value (base t) = []
  end.

(** Each token starts where the one before it ends. *)
Fixpoint contiguous (from : nat) (toks : list TamlToken) : Prop :=
  match toks with
  | [] => True
  | t :: r => tstart (base t) = from /\ contiguous (tend (base t)) r
  end.

(** The order of positions: by line, then by column. *)
Definition positionBefore (a b : Position) : Prop :=
  pos_line a < pos_line b \/ (pos_line a = pos_line b /\ pos_column a < pos_column b).

(** What the tokenizer throws: a positioned error carrying the source,
    with the line and column of the ['<'] of the tag being read; a malformed
    or unknown tag is positioned at that ['<'], an unterminated one at the
    end of the input. *)
Definition raisedAtTag (source : jsString) (e : Exn) : Prop :=
  match e with
  | ParseError pe =>
      exists q,
        charAt source q = Some LT /\
        errSource pe = Some source /\
        mkPosition (errLine pe) (errColumn pe) = calculatePosition source q /\
        match pe with
        | UnexpectedEndOfInputError p _ _ _ _ => p = length source
        | MalformedTagError _ p _ _ _ | InvalidTagError _ p _ _ _ => p = q
        | _ => False
        end
  | GenericError _ => False
  end.

(** What a token sequence and a tree say in common: an open tag with its
    start, a text with its content and span, a close tag with its end. *)
Inductive Event :=
| EvOpen (tagName : jsString) (start : nat)
| EvText (content : jsString) (start stop : nat)
| EvClose (tagName : jsString) (stop : nat).

Definition eventOf (t : TamlToken) : list Event :=
  match t with
  | OpenTagToken n b => [EvOpen n (tstart b)]
  | CloseTagToken n b => [EvClose n (tend b)]
  | TextToken c b => [EvText c (tstart b) (tend b)]
  | EofToken _ => []
  end.

Fixpoint eventsOfNode (n : TamlNode) : list Event :=
  match n with
  | DocumentNode children _ _ => flat_map eventsOfNode children
  | ElementNode tagName children s e =>
      EvOpen tagName s :: flat_map eventsOfNode children ++ [EvClose tagName e]
  | TextNode content s e => [EvText content s e]
  end.

(** The token sequences the tree builder accepts with depth limit [m], read
    left to right with the names of the open tags, innermost first: an open
    tag needs room under the limit; a close tag must name the innermost
    open tag, and with no tag open it ends the reading, as the end marker
    does. *)
Fixpoint parsable (m : nat) (opened : list jsString) (toks : list TamlToken) : bool :=
  match toks with
  | [] => match opened with [] => true | _ => false end
  | OpenTagToken n _ :: r => (length opened <? m) && parsable m (n :: opened) r
  | CloseTagToken n _ :: r =>
      match opened with
      | top :: opened' => jsEqb n top && parsable m opened' r
      | [] => true
      end
  | TextToken _ _ :: r => parsable m opened r
  | EofToken _ :: _ => match opened with [] => true | _ => false end
  end.

Definition nodeStart (n : TamlNode) : nat :=
  match n with
  | DocumentNode _ s _ | ElementNode _ _ s _ | TextNode _ s _ => s
  end.

Definition nodeEnd (n : TamlNode) : nat :=
  match n with
  | DocumentNode _ _ e | ElementNode _ _ _ e | TextNode _ _ e => e
  end.

Section Chained.

Variable P : TamlNode -> Prop.
Variable hi : nat.

(** The nodes of [l] satisfy [P] and lie between [lo] and [hi], each after
    the one before. *)
Fixpoint chained (lo : nat) (l : list TamlNode) : Prop :=
  match l with
  | [] => lo <= hi
  | c :: r => lo <= nodeStart c /\ P c /\ chained (nodeEnd c) r
  end.

End Chained.

(** The spans of a tree: a text and an element are not empty, and the
    children of a node lie inside it, each after the one before. *)
Fixpoint wellSpanned (n : TamlNode) : Prop :=
  match n with
  | DocumentNode children s e => chained wellSpanned e s children
  | ElementNode _ children s e => s < e /\ chained wellSpanned e s children
  | TextNode _ s e => s < e
  end.

(** The offset at which the token of index [k] starts, or the end of the
    source when there is no such token. *)
Definition boundary (source : jsString) (tokens : list TamlToken) (k : nat) : nat :=
  match nth_error tokens k with
  | Some t => tstart (base t)
  | None => length source
  end.

Definition isUnclosedIssue (i : ClosureIssue) : bool :=
  match issueType i with IssueUnclosed => true | _ => false end.

(** A tag token names one of the 37 tags, and a token is not the end
    marker. *)
Definition properToken (t : TamlToken) : Prop :=
  match t with
  | OpenTagToken n _ | CloseTagToken n _ => isValidTag n = true
  | TextToken _ _ => True
  | EofToken _ => False
  end.

(** The validator's scan agrees with the tree builder's context: scanning
    the tokens before the context's position finds no error and leaves the
    context's tag stack; none of these tokens is the end marker. *)
Definition scanned (source : jsString) (tokens : list TamlToken) (ctx : ParseContext)
  : Prop :=
  validateTokenSequence source (firstn (ctxPosition ctx) tokens)
    (mkValidationContext 0 [] [])
  = mkValidationContext (ctxPosition ctx) (tagStack ctx) [] /\
  Forall (fun t => isEofToken t = false) (firstn (ctxPosition ctx) tokens).

(** Where the tree builder throws a positioned error: an unclosed tag is
    the innermost open tag, reported where the tokens end; a mismatched tag
    is a close tag that does not name the innermost open tag. *)
Definition thrownAt (source : jsString) (tokens : list TamlToken) (ctx : ParseContext)
    (e : TamlParseError) : Prop :=
  match e with
  | UnclosedTagError name p l c s =>
      match nth_error tokens (ctxPosition ctx) with
      | None | Some (EofToken _) => True
      | _ => False
      end /\
      exists t,
        stackTop (tagStack ctx) = Some (name, OpenTagToken name t) /\
        p = tstart t /\ l = line t /\ c = column t /\ s = Some source
  | MismatchedTagError expected actual p l c s =>
      exists t tokOpen,
        nth_error tokens (ctxPosition ctx) = Some (CloseTagToken actual t) /\
        stackTop (tagStack ctx) = Some (expected, tokOpen) /\
        jsEqb expected actual = false /\
        p = tstart t /\ l = line t /\ c = column t /\ s = Some source
  | _ => False
  end.

(** The pieces a source is made of: a tag, closing or not, and a text. *)
Inductive Piece :=
| PTag (closing : bool) (name : jsString)
| PText (text : jsString).

Definition spell (p : Piece) : jsString :=
  match p with
  | PTag false name => LT :: name ++ [GT]
  | PTag true name => LT :: SLASH :: name ++ [GT]
  | PText text => text
  end.

(** A tag piece names one of the 37 tags; a text piece holds no ['<']. *)
Definition okPiece (p : Piece) : Prop :=
  match p with
  | PTag _ name => isValidTag name = true
  | PText text => ~ In LT text
  end.

Definition pieceOf (t : TamlToken) : Piece :=
  match t with
  | OpenTagToken n _ => PTag false n
  | CloseTagToken n _ => PTag true n
  | TextToken _ b | EofToken b => PText (value b)
  end.

(** What an event says of the source: an open tag [<name>] starts at the
    offset of an open event, a close tag [</name>] ends at the offset of a
    close event, and the content of a text event is the slice it spans,
    which holds no ['<'], with the entities decoded. *)
Definition eventFaithful (source : jsString) (ev : Event) : Prop :=
  match ev with
  | EvOpen n s => slice source s (s + (length n + 2)) = LT :: n ++ [GT]
  | EvText c s e =>
      s < e /\ ~ In LT (slice source s e) /\ c = decodeEntities (slice source s e)
  | EvClose n e =>
      length n + 3 <= e /\
      slice source (e - (length n + 3)) e = LT :: SLASH :: n ++ [GT]
  end.

(** The line of the source around an offset: [before], the character [ch]
    at offset [p] and [after] make up line number [lineNo] of the source,
    counted from 1: [before] starts at the beginning of the source or just
    after a newline, [after] ends at the end of the source or just before
    a newline, neither holds a newline, and [lineNo - 1] newlines come
    before the line. *)
Definition onLine (source : jsString) (p lineNo : nat) (before : jsString) (ch : ascii)
    (after : jsString) : Prop :=
  exists pre post,
    source = pre ++ before ++ ch :: after ++ post /\
    length pre + length before = p /\
    lineNo = S (count_occ ascii_dec pre NEWLINE) /\
    ~ In NEWLINE before /\ ~ In NEWLINE after /\
    (pre = [] \/ exists pre', pre = pre' ++ [NEWLINE]) /\
    (post = [] \/ exists post', post = NEWLINE :: post').

(** The tag an error is about, at offset [q] of the source: an invalid tag
    is [<name>] or [</name>] there, with [name] not one of the 37 tags; an
    unclosed tag is the open tag [<name>] there; a mismatched tag is the
    close tag [</actual>] there; the content of a malformed tag is the text
    there; all these errors have [q] as position.  An unexpected end is an
    unterminated tag: no ['>'] follows [q], and the position is the length
    of the source. *)
Definition tagAt (source : jsString) (q : nat) (e : TamlParseError) : Prop :=
  match e with
  | InvalidTagError name p _ _ _ =>
      p = q /\ isValidTag name = false /\
      (slice source q (q + (length name + 2)) = LT :: name ++ [GT] \/
       slice source q (q + (length name + 3)) = LT :: SLASH :: name ++ [GT])
  | UnclosedTagError name p _ _ _ =>
      p = q /\ slice source q (q + (length name + 2)) = LT :: name ++ [GT]
  | MismatchedTagError _ actual p _ _ _ =>
      p = q /\ slice source q (q + (length actual + 3)) = LT :: SLASH :: actual ++ [GT]
  | MalformedTagError content p _ _ _ =>
      p = q /\ content = slice source q (q + length content)
  | UnexpectedEndOfInputError p _ _ _ _ =>
      p = length source /\ ~ In GT (skipn q source)
  | UnexpectedCharacterError _ _ _ _ _ _ => False
  end.

(** The errors of the tokenizer, and those of the tree builder. *)
Definition isLexicalError (e : TamlParseError) : bool :=
  match e with
  | MalformedTagError _ _ _ _ _ | InvalidTagError _ _ _ _ _
  | UnexpectedEndOfInputError _ _ _ _ _ => true
  | _ => false
  end.

Definition isStructuralError (e : TamlParseError) : bool :=
  match e with
  | UnclosedTagError _ _ _ _ _ | MismatchedTagError _ _ _ _ _ _ => true
  | _ => false
  end.

Definition isUnclosedError (e : TamlParseError) : bool :=
  match e with
  | UnclosedTagError _ _ _ _ _ => true
  | _ => false
  end.

(** * Properties *)

(** ** Strings *)

Lemma jsEqb_eq (a b : jsString) : jsEqb a b = true <-> a = b.
Proof.
  revert b; induction a as [|x a IH]; intros [|y b]; simpl; split;
    try congruence; try reflexivity.
  - intros H. apply andb_true_iff in H as [Hx Hr].
    apply Ascii.eqb_eq in Hx. apply IH in Hr. congruence.
  - intros H. injection H as -> ->. rewrite Ascii.eqb_refl. simpl. now apply IH.
Qed.

Lemma jsEqb_refl (a : jsString) : jsEqb a a = true.
Proof. now apply jsEqb_eq. Qed.

Lemma charAt_lt (s : jsString) (i : nat) (c : ascii) :
  charAt s i = Some c -> i < length s.
Proof. intros H. apply nth_error_Some. unfold charAt in H. congruence. Qed.

Lemma charAt_none (s : jsString) (i : nat) :
  charAt s i = None -> length s <= i.
Proof. intros H. now apply nth_error_None. Qed.

Lemma skipn_charAt (s : jsString) (i : nat) (c : ascii) :
  charAt s i = Some c -> skipn i s = c :: skipn (i + 1) s.
Proof.
  unfold charAt. revert i; induction s as [|x s IH]; intros [|i]; simpl; try discriminate.
  - now intros [= ->].
  - intros H. now apply IH.
Qed.

Lemma slice_prefix (s pat : jsString) (p : nat) :
  pat <> [] ->
  slice s p (p + length pat) = pat ->
  skipn p s = pat ++ skipn (p + length pat) s /\ p + length pat <= length s.
Proof.
  unfold slice. intros Hne H.
  replace (p + length pat - p) with (length pat) in H by lia.
  assert (Hlen : length pat <= length (skipn p s)).
  { rewrite <- H at 1. rewrite length_firstn. lia. }
  split.
  - rewrite <- (firstn_skipn (length pat) (skipn p s)) at 1.
    rewrite H. f_equal. rewrite skipn_skipn. f_equal. lia.
  - rewrite length_skipn in Hlen.
    destruct pat; [congruence|]. simpl in *. lia.
Qed.

(** ** The tokenizer terminates and places its tokens *)

Section TokenizerFacts.

Variable source : jsString.

Lemma readTagName_spec (fuel p : nat) :
  length source - p < fuel ->
  exists p', readTagName source fuel p = Ok p' /\ p <= p' /\
             (charAt source p' = Some GT \/ charAt source p' = None).
Proof.
  revert p; induction fuel as [|fuel IH]; intros p Hf; [lia|].
  simpl. destruct (charAt source p) as [c|] eqn:Hc.
  - destruct (Ascii.eqb c GT) eqn:Hgt.
    + apply Ascii.eqb_eq in Hgt. subst c. exists p. auto.
    + apply charAt_lt in Hc.
      destruct (IH (p + 1)) as (p' & H1 & H2 & H3); [lia|].
      exists p'. repeat split; auto; lia.
  - exists p. auto.
Qed.

Lemma readText_spec (fuel p : nat) (content : jsString) :
  length source - p < fuel -> p <= length source ->
  exists p' content', readText source fuel p content = Ok (p', content') /\
                      p <= p' /\ p' <= length source.
Proof.
  revert p content; induction fuel as [|fuel IH]; intros p content Hf Hp; [lia|].
  simpl. destruct (charAt source p) as [c|] eqn:Hc.
  - pose proof (charAt_lt _ _ Hc) as Hlt.
    destruct (Ascii.eqb c LT); [exists p, content; auto|].
    destruct (Ascii.eqb c AMP && jsEqb (slice source p (p + 4)) (str "&lt;")) eqn:E1.
    { apply andb_true_iff in E1 as [_ E1]. apply jsEqb_eq in E1.
      apply (@slice_prefix source (str "&lt;") p) in E1 as [_ E1]; [|discriminate].
      simpl in E1.
      destruct (IH (p + 4) (content ++ [LT])) as (p' & c' & H1 & H2 & H3); [lia|lia|].
      exists p', c'. repeat split; auto; lia. }
    destruct (Ascii.eqb c AMP && jsEqb (slice source p (p + 5)) (str "&amp;")) eqn:E2.
    { apply andb_true_iff in E2 as [_ E2]. apply jsEqb_eq in E2.
      apply (@slice_prefix source (str "&amp;") p) in E2 as [_ E2]; [|discriminate].
      simpl in E2.
      destruct (IH (p + 5) (content ++ [AMP])) as (p' & c' & H1 & H2 & H3); [lia|lia|].
      exists p', c'. repeat split; auto; lia. }
    destruct (IH (p + 1) (content ++ [c])) as (p' & c' & H1 & H2 & H3); [lia|lia|].
    exists p', c'. repeat split; auto; lia.
  - exists p, content. auto.
Qed.

(** The first turn of the text loop consumes at least one character. *)
Lemma readText_progress (fuel p : nat) (content : jsString) (c : ascii) :
  length source - p < fuel ->
  charAt source p = Some c -> c <> LT ->
  exists p' content', readText source fuel p content = Ok (p', content') /\
                      p < p' /\ p' <= length source.
Proof.
  intros Hf Hc Hne. destruct fuel as [|fuel]; [lia|].
  pose proof (charAt_lt _ _ Hc) as Hlt.
  simpl. rewrite Hc.
  destruct (Ascii.eqb c LT) eqn:E; [apply Ascii.eqb_eq in E; contradiction|].
  destruct (Ascii.eqb c AMP && jsEqb (slice source p (p + 4)) (str "&lt;")) eqn:E1.
  { apply andb_true_iff in E1 as [_ E1]. apply jsEqb_eq in E1.
    apply (@slice_prefix source (str "&lt;") p) in E1 as [_ E1]; [|discriminate].
    simpl in E1.
    destruct (@readText_spec fuel (p + 4) (content ++ [LT]))
      as (p' & c' & H1 & H2 & H3); [lia|lia|].
    exists p', c'. repeat split; auto; lia. }
  destruct (Ascii.eqb c AMP && jsEqb (slice source p (p + 5)) (str "&amp;")) eqn:E2.
  { apply andb_true_iff in E2 as [_ E2]. apply jsEqb_eq in E2.
    apply (@slice_prefix source (str "&amp;") p) in E2 as [_ E2]; [|discriminate].
    simpl in E2.
    destruct (@readText_spec fuel (p + 5) (content ++ [AMP]))
      as (p' & c' & H1 & H2 & H3); [lia|lia|].
    exists p', c'. repeat split; auto; lia. }
  destruct (@readText_spec fuel (p + 1) (content ++ [c]))
    as (p' & c' & H1 & H2 & H3); [lia|lia|].
  exists p', c'. repeat split; auto; lia.
Qed.

Lemma position_eta (p : Position) : mkPosition (pos_line p) (pos_column p) = p.
Proof. now destruct p. Qed.

Lemma tokenizeTag_spec (st : TokenizerState) :
  charAt source (position st) = Some LT ->
  match tokenizeTag source (S (length source)) st with
  | Ok st' =>
      exists t, tokens st' = tokens st ++ [t] /\ wellPlaced source t /\
                tstart (base t) = position st /\ tend (base t) = position st'
  | Throw e => lexicalError source e
  | OutOfFuel => False
  end.
Proof.
  intros Hc. unfold tokenizeTag. rewrite Hc. rewrite Ascii.eqb_refl. cbn [negb].
  set (isClosing := match charAt source (position st + 1) with
                    | Some c1 => Ascii.eqb c1 SLASH
                    | None => false
                    end).
  set (p2 := if isClosing then position st + 1 + 1 else position st + 1).
  assert (Hp2 : position st + 1 <= p2) by (unfold p2; destruct isClosing; lia).
  destruct (@readTagName_spec (S (length source)) p2)
    as (p3 & Hr & Hle & Hstop); [lia|].
  rewrite Hr. cbn [bind].
  assert (Heoi : lexicalError source
            (ParseError (UnexpectedEndOfInputError p3
               (pos_line (calculatePosition source (position st)))
               (pos_column (calculatePosition source (position st)))
               (Some source) (Some (str "parsing tag"))))).
  { exists (position st). split; [lia|apply position_eta]. }
  destruct (jsEqb (slice source p2 p3) []); [apply position_eta|].
  destruct (negb (lettersOnly (slice source p2 p3))); [apply position_eta|].
  destruct (charAt source p3) as [c3|] eqn:Hc3; [|exact Heoi].
  destruct (Ascii.eqb c3 GT); [|exact Heoi].
  destruct (negb (isValidTag (slice source p2 p3))); [apply position_eta|].
  apply charAt_lt in Hc3.
  eexists. split; [reflexivity|].
  unfold wellPlaced.
  destruct isClosing; cbn; rewrite position_eta; repeat split; auto; lia.
Qed.

Lemma tokenizeText_spec (st : TokenizerState) (c : ascii) :
  charAt source (position st) = Some c -> c <> LT ->
  match tokenizeText source (S (length source)) st with
  | Ok st' =>
      exists t, tokens st' = tokens st ++ [t] /\ wellPlaced source t /\
                tstart (base t) = position st /\ tend (base t) = position st'
  | Throw e => lexicalError source e
  | OutOfFuel => False
  end.
Proof.
  intros Hc Hne. unfold tokenizeText.
  destruct (@readText_progress (S (length source)) (position st) [] c)
    as (p' & content & Hr & Hlt & Hle); auto; [lia|].
  rewrite Hr. cbn [bind].
  eexists. split; [reflexivity|].
  unfold wellPlaced. cbn. rewrite position_eta. repeat split; auto. discriminate.
Qed.

Lemma tokenizeNext_spec (st : TokenizerState) :
  position st < length source ->
  match tokenizeNext source (S (length source)) st with
  | Ok st' =>
      exists t, tokens st' = tokens st ++ [t] /\ wellPlaced source t /\
                tstart (base t) = position st /\ tend (base t) = position st'
  | Throw e => lexicalError source e
  | OutOfFuel => False
  end.
Proof.
  intros Hlt. unfold tokenizeNext.
  destruct (charAt source (position st)) as [c|] eqn:Hc.
  - destruct (Ascii.eqb c LT) eqn:E.
    + apply Ascii.eqb_eq in E. subst c. now apply tokenizeTag_spec.
    + apply tokenizeText_spec with (c := c); auto.
      intros ->. now rewrite Ascii.eqb_refl in E.
  - apply charAt_none in Hc. lia.
Qed.

Lemma tokenizeLoop_spec (fuel : nat) (st : TokenizerState) :
  length source - position st < fuel -> position st <= length source ->
  match tokenizeLoop source fuel st with
  | Ok st' =>
      position st' = length source /\
      exists new, tokens st' = tokens st ++ new /\ Forall (wellPlaced source) new
  | Throw e => lexicalError source e
  | OutOfFuel => False
  end.
Proof.
  revert st; induction fuel as [|fuel IH]; intros st Hf Hp; [lia|].
  simpl. destruct (position st <? length source) eqn:Hlt.
  - apply Nat.ltb_lt in Hlt.
    pose proof (tokenizeNext_spec st Hlt) as Hn.
    destruct (tokenizeNext source (S (length source)) st) as [st1| |]; cbn [bind]; auto.
    destruct Hn as (t & Ht & Hw & Hs & He).
    assert (Hw' := Hw). destruct Hw' as (_ & Hse & Hel & _).
    specialize (IH st1). rewrite <- He in IH.
    assert (H1 : length source - tend (base t) < fuel) by lia.
    specialize (IH H1 Hel).
    destruct (tokenizeLoop source fuel st1) as [st2| |]; auto.
    destruct IH as (Hpos & new & Hnew & Hall).
    split; auto. exists (t :: new). split.
    + rewrite Hnew, Ht, <- app_assoc. reflexivity.
    + now constructor.
  - apply Nat.ltb_ge in Hlt. split; [lia|]. exists []. now rewrite app_nil_r.
Qed.

(** [tokenize] returns or throws, and what it returns is a run of well
    placed tokens followed by the end marker at [source.length]. *)
Lemma tokenize_spec :
  match tokenize source with
  | Ok toks =>
      exists body,
        toks = body ++ [EofToken (mkToken [] (length source) (length source)
                          (pos_line (calculatePosition source (length source)))
                          (pos_column (calculatePosition source (length source))))] /\
        Forall (wellPlaced source) body
  | Throw e => lexicalError source e
  | OutOfFuel => False
  end.
Proof.
  unfold tokenize, tokenizerRun.
  pose proof (@tokenizeLoop_spec (S (length source)) (mkTokenizerState 0 [])) as H.
  cbn [position] in H.
  assert (H0 : length source - 0 < S (length source)) by lia.
  specialize (H H0 (Nat.le_0_l _)).
  destruct (tokenizeLoop source (S (length source)) (mkTokenizerState 0 [])) as [st| |];
    cbn [bind]; auto.
  destruct H as (Hpos & new & Hnew & Hall).
  exists new. rewrite Hpos, Hnew. auto.
Qed.

End TokenizerFacts.

Lemma tokenize_terminates (source : jsString) : tokenize source <> OutOfFuel.
Proof.
  pose proof (tokenize_spec source) as H. intros E. now rewrite E in H.
Qed.

(** ** Text without tags *)

Lemma decodeEntities_lt (r : jsString) :
  decodeEntities (str "&lt;" ++ r) = LT :: decodeEntities r.
Proof. reflexivity. Qed.

Lemma decodeEntities_amp (r : jsString) :
  decodeEntities (str "&amp;" ++ r) = AMP :: decodeEntities r.
Proof. reflexivity. Qed.

Lemma decodeEntities_other (c : ascii) (r : jsString) :
  jsEqb (firstn 4 (c :: r)) (str "&lt;") = false ->
  jsEqb (firstn 5 (c :: r)) (str "&amp;") = false ->
  decodeEntities (c :: r) = c :: decodeEntities r.
Proof.
  intros H4 H5.
  destruct r as [|c1 [|c2 [|c3 r3]]]; try reflexivity.
  cbn [firstn] in H4. cbn [decodeEntities]. rewrite H4.
  destruct r3 as [|c4 r4]; [reflexivity|].
  cbn [firstn] in H5. now rewrite H5.
Qed.

Lemma amp_guard (c : ascii) (s pat : jsString) (n : nat) :
  Ascii.eqb c AMP && jsEqb (firstn n (c :: s)) (AMP :: pat) = false ->
  jsEqb (firstn n (c :: s)) (AMP :: pat) = false.
Proof.
  destruct (Ascii.eqb c AMP) eqn:E; cbn [andb]; auto.
  intros _. destruct n; cbn [firstn jsEqb]; [reflexivity|]. now rewrite E.
Qed.

Lemma calculatePosition_0 (s : jsString) : calculatePosition s 0 = mkPosition 1 1.
Proof. now destruct s. Qed.

Lemma slice_firstn (s : jsString) (p n : nat) :
  slice s p (p + n) = firstn n (skipn p s).
Proof. unfold slice. f_equal. lia. Qed.

Section TextOnly.

Variable source : jsString.

Lemma readText_noLT (fuel p : nat) (content : jsString) :
  length source - p < fuel -> p <= length source ->
  ~ In LT (skipn p source) ->
  readText source fuel p content =
  Ok (length source, content ++ decodeEntities (skipn p source)).
Proof.
  revert p content; induction fuel as [|fuel IH]; intros p content Hf Hp Hno; [lia|].
  cbn [readText]. destruct (charAt source p) as [c|] eqn:Hc.
  - pose proof (charAt_lt _ _ Hc) as Hlt.
    pose proof (skipn_charAt _ _ Hc) as Hsk.
    destruct (Ascii.eqb c LT) eqn:Elt.
    { apply Ascii.eqb_eq in Elt. subst c. exfalso. apply Hno. rewrite Hsk. now left. }
    destruct (Ascii.eqb c AMP && jsEqb (slice source p (p + 4)) (str "&lt;")) eqn:E1.
    { apply andb_true_iff in E1 as [_ E1]. apply jsEqb_eq in E1.
      apply (@slice_prefix source (str "&lt;") p) in E1 as [E1 E1']; [|discriminate].
      change (length (str "&lt;")) with 4 in E1, E1'.
      rewrite IH; [|lia|lia|].
      - rewrite E1. rewrite decodeEntities_lt, <- app_assoc. reflexivity.
      - intros Hin. apply Hno. rewrite E1. apply in_or_app. now right. }
    destruct (Ascii.eqb c AMP && jsEqb (slice source p (p + 5)) (str "&amp;")) eqn:E2.
    { apply andb_true_iff in E2 as [_ E2]. apply jsEqb_eq in E2.
      apply (@slice_prefix source (str "&amp;") p) in E2 as [E2 E2']; [|discriminate].
      change (length (str "&amp;")) with 5 in E2, E2'.
      rewrite IH; [|lia|lia|].
      - rewrite E2. rewrite decodeEntities_amp, <- app_assoc. reflexivity.
      - intros Hin. apply Hno. rewrite E2. apply in_or_app. now right. }
    rewrite slice_firstn, Hsk in E1, E2.
    apply (amp_guard c (skipn (p + 1) source) (str "lt;") 4) in E1.
    apply (amp_guard c (skipn (p + 1) source) (str "amp;") 5) in E2.
    rewrite IH; [|lia|lia|].
    + rewrite Hsk. rewrite decodeEntities_other; [|exact E1|exact E2].
      rewrite <- app_assoc. reflexivity.
    + intros Hin. apply Hno. rewrite Hsk. now right.
  - apply charAt_none in Hc. replace p with (length source) by lia.
    rewrite skipn_all. cbn. now rewrite app_nil_r.
Qed.

(** A non-empty source without '<' is one text token and the end marker. *)
Lemma tokenize_text_only :
  source <> [] -> ~ In LT source ->
  tokenize source =
  Ok [ TextToken (decodeEntities source) (mkToken source 0 (length source) 1 1);
       EofToken (mkToken [] (length source) (length source)
                   (pos_line (calculatePosition source (length source)))
                   (pos_column (calculatePosition source (length source)))) ].
Proof.
  intros Hne Hno. unfold tokenize, tokenizerRun.
  destruct source as [|c r] eqn:Hs; [congruence|]. rewrite <- Hs in *.
  assert (Hlen : length source = S (length r)) by (rewrite Hs; reflexivity).
  assert (Hc : charAt source 0 = Some c) by (rewrite Hs; reflexivity).
  assert (Hcne : Ascii.eqb c LT = false).
  { destruct (Ascii.eqb c LT) eqn:E; auto. apply Ascii.eqb_eq in E. subst c.
    exfalso. apply Hno. rewrite Hs. now left. }
  cbn [tokenizeLoop position].
  replace (0 <? length source) with true by (symmetry; apply Nat.ltb_lt; lia).
  unfold tokenizeNext. cbn [position]. rewrite Hc, Hcne.
  unfold tokenizeText. cbn [position tokens].
  rewrite readText_noLT; [|lia|lia|exact Hno].
  cbn [bind skipn app]. rewrite Hlen at 1.
  cbn [tokenizeLoop position]. rewrite Nat.ltb_irrefl.
  cbn [bind position tokens app].
  unfold slice. rewrite Nat.sub_0_r. cbn [skipn]. rewrite firstn_all.
  rewrite calculatePosition_0. reflexivity.
Qed.

End TextOnly.

(** ** Lists *)

Lemma skipn_nth_error {A} (l : list A) (i : nat) (x : A) :
  nth_error l i = Some x -> skipn i l = x :: skipn (i + 1) l.
Proof.
  revert i; induction l as [|y l IH]; intros [|i]; simpl; try discriminate.
  - now intros [= ->].
  - intros H. now apply IH.
Qed.

Lemma firstn_nth_error {A} (l : list A) (i : nat) (x : A) :
  nth_error l i = Some x -> firstn (i + 1) l = firstn i l ++ [x].
Proof.
  revert i; induction l as [|y l IH]; intros [|i]; simpl; try discriminate.
  - now intros [= ->].
  - intros H. f_equal. now apply IH.
Qed.

Lemma in_removelast {A} (l : list A) (x : A) : In x (removelast l) -> In x l.
Proof.
  induction l as [|y l IH]; simpl; auto.
  destruct l as [|z l]; simpl in *; [tauto|].
  intros [H|H]; auto.
Qed.

(** ** The steps of the child loop *)

Section ParserSteps.

Variable source : jsString.
Variable tokens : list TamlToken.

Lemma parseNodesLoop_stop (f d m : nat) (nodes : list TamlNode) (ctx : ParseContext) :
  match nth_error tokens (ctxPosition ctx) with
  | None | Some (EofToken _) | Some (CloseTagToken _ _) => True
  | _ => False
  end ->
  parseNodesLoop source tokens (S f) d m nodes ctx = (Ok nodes, ctx).
Proof.
  intros H. cbn [parseNodesLoop].
  destruct (nth_error tokens (ctxPosition ctx)) as [[]|]; try contradiction; reflexivity.
Qed.

Lemma parseNodesLoop_text (f d m : nat) (nodes : list TamlNode) (ctx : ParseContext)
    (content : jsString) (t : Token) :
  nth_error tokens (ctxPosition ctx) = Some (TextToken content t) ->
  parseNodesLoop source tokens (S f) d m nodes ctx =
  parseNodesLoop source tokens f d m
    (nodes ++ [createText content (tstart t) (tend t)])
    (mkParseContext (ctxPosition ctx + 1) (tagStack ctx)).
Proof.
  intros H. cbn [parseNodesLoop]. rewrite H.
  unfold pbind, parseText. rewrite H. reflexivity.
Qed.

Lemma parseNodesLoop_open (f d m : nat) (nodes : list TamlNode) (ctx : ParseContext)
    (n : jsString) (t : Token) :
  nth_error tokens (ctxPosition ctx) = Some (OpenTagToken n t) ->
  parseNodesLoop source tokens (S f) d m nodes ctx =
  let ctx1 := mkParseContext (ctxPosition ctx + 1)
                (tagStack ctx ++ [(n, OpenTagToken n t)]) in
  let unclosed := ParseError (UnclosedTagError n (tstart t) (line t) (column t)
                                (Some source)) in
  if m <? d + 1 then (Throw (GenericError (MaxDepthExceeded m)), ctx1)
  else
    match parseNodesLoop source tokens f (d + 1) m [] ctx1 with
    | (Ok children, ctx2) =>
        if length tokens <=? ctxPosition ctx2 then (Throw unclosed, ctx2)
        else
          match nth_error tokens (ctxPosition ctx2) with
          | Some (CloseTagToken cn ct) =>
              if negb (jsEqb cn n) then
                (Throw (ParseError (MismatchedTagError n cn (tstart ct) (line ct)
                                      (column ct) (Some source))), ctx2)
              else
                parseNodesLoop source tokens f d m
                  (nodes ++ [createElement n children (tstart t) (tend ct)])
                  (mkParseContext (ctxPosition ctx2 + 1) (removelast (tagStack ctx2)))
          | _ => (Throw unclosed, ctx2)
          end
    | (Throw e, ctx2) => (Throw e, ctx2)
    | (OutOfFuel, ctx2) => (OutOfFuel, ctx2)
    end.
Proof.
  intros H. cbn [parseNodesLoop]. rewrite H.
  unfold pbind at 1. unfold parseElementWithDepth. rewrite H. unfold pbind. cbv zeta.
  destruct (m <? d + 1); [reflexivity|].
  destruct (parseNodesLoop source tokens f (d + 1) m [] _) as [[children| |] ctx2];
    try reflexivity.
  destruct (length tokens <=? ctxPosition ctx2); [reflexivity|].
  destruct (nth_error tokens (ctxPosition ctx2)) as [[]|]; try reflexivity.
  destruct (negb (jsEqb tagName n)); reflexivity.
Qed.

End ParserSteps.

(** ** Depth of nesting and the depth guard *)

Lemma nestingDepth_ge (toks : list TamlToken) (d : nat) : d <= nestingDepth d toks.
Proof.
  revert d; induction toks as [|t toks IH]; intros d; simpl; [lia|].
  destruct t; auto; lia.
Qed.
Section DepthGuard.

Variable source : jsString.
Variable tokens : list TamlToken.

Lemma parseNodesLoop_nested (fuel : nat) :
  forall pos stk d m nodes opened,
    length tokens - pos < fuel -> d <= m ->
    wellNested opened (skipn pos tokens) = true ->
    (exists nodes' pos',
        parseNodesLoop source tokens fuel d m nodes (mkParseContext pos stk)
        = (Ok nodes', mkParseContext pos' stk) /\
        pos <= pos' /\ stopsAt tokens pos' /\
        wellNested opened (skipn pos' tokens) = true /\
        (m < nestingDepth d (skipn pos tokens) <-> m < nestingDepth d (skipn pos' tokens)))
    \/
    (exists ctx',
        parseNodesLoop source tokens fuel d m nodes (mkParseContext pos stk)
        = (Throw (GenericError (MaxDepthExceeded m)), ctx') /\
        m < nestingDepth d (skipn pos tokens)).
Proof.
  induction fuel as [|f IH]; intros pos stk d m nodes opened Hf Hd Hw; [lia|].
  destruct (nth_error tokens pos) as [tok|] eqn:Hn.
  2:{ left. exists nodes, pos. rewrite parseNodesLoop_stop.
      - unfold stopsAt. rewrite Hn. repeat split; auto.
      - cbn [ctxPosition]. now rewrite Hn. }
  assert (Hlt : pos < length tokens) by (apply nth_error_Some; congruence).
  pose proof (skipn_nth_error _ _ Hn) as Hsk.
  destruct tok as [n t|n t|content t|t].
  - (* open tag *)
    rewrite Hsk in Hw. cbn [wellNested] in Hw.
    rewrite (@parseNodesLoop_open source tokens f d m nodes _ n t) by exact Hn.
    cbv zeta. cbn [ctxPosition tagStack].
    rewrite Hsk. cbn [nestingDepth].
    pose proof (nestingDepth_ge (skipn (pos + 1) tokens) (S d)) as Hge.
    destruct (m <? d + 1) eqn:Hm.
    { apply Nat.ltb_lt in Hm. right. eexists. split; [reflexivity|]. lia. }
    apply Nat.ltb_ge in Hm.
    destruct (IH (pos + 1) (stk ++ [(n, OpenTagToken n t)]) (d + 1) m [] (n :: opened))
      as [(children & pos1 & Hr & Hle & Hstop & Hw1 & Hiff)|(ctx' & Hr & Hdeep)];
      [lia|lia|exact Hw| |]; rewrite Hr; replace (d + 1) with (S d) in * by lia.
    2:{ right. exists ctx'. split; [reflexivity|]. lia. }
    cbn [ctxPosition tagStack].
    unfold stopsAt in Hstop.
    destruct (nth_error tokens pos1) as [tok1|] eqn:Hn1.
    2:{ apply nth_error_None in Hn1. rewrite skipn_all2 in Hw1 by lia. discriminate. }
    assert (Hlt1 : pos1 < length tokens) by (apply nth_error_Some; congruence).
    pose proof (skipn_nth_error _ _ Hn1) as Hsk1.
    rewrite Hsk1 in Hw1, Hiff.
    destruct tok1 as [n1 t1|n1 t1|c1 t1|t1]; try contradiction;
      cbn [wellNested] in Hw1; [|discriminate].
    apply andb_true_iff in Hw1 as [Hname Hw1].
    replace (length tokens <=? pos1) with false by (symmetry; apply Nat.leb_gt; lia).
    rewrite Hname. cbn [negb]. rewrite removelast_last.
    cbn [nestingDepth Nat.pred] in Hiff.
    destruct (IH (pos1 + 1) stk d m
                (nodes ++ [createElement n children (tstart t) (tend t1)]) opened)
      as [(nodes' & pos2 & Hr2 & Hle2 & Hstop2 & Hw2 & Hiff2)|(ctx' & Hr2 & Hdeep2)];
      [lia|lia|exact Hw1| |]; rewrite Hr2.
    + left. exists nodes', pos2. repeat split; auto; try lia.
    + right. exists ctx'. split; [reflexivity|]. lia.
  - (* close tag *)
    left. exists nodes, pos. rewrite parseNodesLoop_stop.
    + unfold stopsAt. rewrite Hn. repeat split; auto.
    + cbn [ctxPosition]. now rewrite Hn.
  - (* text *)
    rewrite Hsk in Hw. cbn [wellNested] in Hw.
    rewrite (@parseNodesLoop_text source tokens f d m nodes _ content t) by exact Hn.
    cbn [ctxPosition tagStack]. rewrite Hsk. cbn [nestingDepth].
    destruct (IH (pos + 1) stk d m
                (nodes ++ [createText content (tstart t) (tend t)]) opened)
      as [(nodes' & pos2 & Hr2 & Hle2 & Hstop2 & Hw2 & Hiff2)|(ctx' & Hr2 & Hdeep2)];
      [lia|lia|exact Hw| |]; rewrite Hr2.
    + left. exists nodes', pos2. repeat split; auto; try lia; apply Hiff2.
    + right. exists ctx'. auto.
  - (* end marker *)
    left. exists nodes, pos. rewrite parseNodesLoop_stop.
    + unfold stopsAt. rewrite Hn. repeat split; auto.
    + cbn [ctxPosition]. now rewrite Hn.
Qed.

Lemma parseTokens_depth (ip : bool) (m : nat) :
  wellNested [] tokens = true ->
  (nestingDepth 0 tokens <= m ->
   exists children ctx,
     parseTokens source tokens (mkParseOptions ip m)
     = (Ok (DocumentNode children 0 (length source)), ctx)) /\
  (m < nestingDepth 0 tokens ->
   exists ctx,
     parseTokens source tokens (mkParseOptions ip m)
     = (Throw (GenericError (MaxDepthExceeded m)), ctx)).
Proof.
  intros Hw. unfold parseTokens, pbind, parseNodesWithDepth. cbn [maxDepth].
  replace (m <? 0) with false by (symmetry; apply Nat.ltb_ge; lia).
  destruct (@parseNodesLoop_nested (S (length tokens)) 0 [] 0 m [] [])
    as [(nodes' & pos' & Hr & _ & Hstop & Hw' & Hiff)|(ctx' & Hr & Hdeep)];
    [lia|lia|exact Hw| |]; rewrite Hr.
  - cbn [tagStack stackTop]. cbn [skipn] in Hiff.
    assert (Hshallow : nestingDepth 0 (skipn pos' tokens) = 0).
    { unfold stopsAt in Hstop.
      destruct (nth_error tokens pos') as [tok|] eqn:Hn.
      - rewrite (skipn_nth_error _ _ Hn) in *.
        destruct tok; try contradiction; cbn [wellNested] in Hw'; [discriminate|].
        destruct (skipn (pos' + 1) tokens); [reflexivity|discriminate].
      - apply nth_error_None in Hn. now rewrite skipn_all2 by lia. }
    rewrite Hshallow in Hiff. split.
    + intros _. eexists. eexists. reflexivity.
    + intros H. apply Hiff in H. lia.
  - cbn [skipn] in Hdeep. split.
    + intros H. lia.
    + intros _. eexists. reflexivity.
Qed.

End DepthGuard.

(** ** The tag stack and the unclosed tags *)

Lemma unclosedOpenTags_snoc (l : list TamlToken) (x : TamlToken) :
  unclosedOpenTags (l ++ [x]) = openStep (unclosedOpenTags l) x.
Proof. unfold unclosedOpenTags. now rewrite fold_left_app. Qed.

Lemma unclosedOpenTags_in (toks : list TamlToken) (x : TamlToken) :
  In x (unclosedOpenTags toks) -> In x toks.
Proof.
  unfold unclosedOpenTags.
  assert (H : forall acc, In x (fold_left openStep toks acc) -> In x acc \/ In x toks).
  { induction toks as [|t toks IH]; intros acc Hin; cbn [fold_left] in *; auto.
    apply IH in Hin as [Hin|Hin]; [|right; now right].
    destruct t; cbn [openStep] in Hin; auto.
    - apply in_app_or in Hin as [Hin|[<-|[]]]; auto. right. now left.
    - apply in_removelast in Hin. auto. }
  intros Hin. apply H in Hin as [[]|Hin]. exact Hin.
Qed.

Section TagStack.

Variable source : jsString.
Variable tokens : list TamlToken.

Lemma stackInv_advance (ctx : ParseContext) (tok : TamlToken)
    (stack' : list (jsString * TamlToken)) :
  stackInv tokens ctx ->
  nth_error tokens (ctxPosition ctx) = Some tok ->
  map snd stack' = openStep (map snd (tagStack ctx)) tok ->
  stackInv tokens (mkParseContext (ctxPosition ctx + 1) stack').
Proof.
  unfold stackInv. cbn [ctxPosition tagStack]. intros Hinv Hn Hs.
  rewrite (firstn_nth_error _ _ Hn), unclosedOpenTags_snoc, <- Hinv. exact Hs.
Qed.

Lemma parseNodesLoop_unclosed (fuel : nat) :
  forall d m nodes ctx r ctx',
    parseNodesLoop source tokens fuel d m nodes ctx = (r, ctx') ->
    stackInv tokens ctx ->
    match r with
    | Ok _ =>
        stackInv tokens ctx' /\ tagStack ctx' = tagStack ctx /\
        stopsAt tokens (ctxPosition ctx')
    | Throw (ParseError (UnclosedTagError name p l c _)) =>
        stackInv tokens ctx' /\
        (exists outer t,
            tagStack ctx' = outer ++ [(name, OpenTagToken name t)] /\
            p = tstart t /\ l = line t /\ c = column t) /\
        match nth_error tokens (ctxPosition ctx') with
        | None | Some (EofToken _) => True
        | _ => False
        end
    | _ => True
    end.
Proof.
  induction fuel as [|f IH]; intros d m nodes ctx r ctx' H Hinv.
  { cbn in H. now injection H as <- <-. }
  destruct (nth_error tokens (ctxPosition ctx)) as [tok|] eqn:Hn.
  2:{ rewrite parseNodesLoop_stop in H by now rewrite Hn.
      injection H as <- <-. unfold stopsAt. now rewrite Hn. }
  destruct tok as [n t|n t|content t|t].
  - (* open tag *)
    rewrite (@parseNodesLoop_open source tokens f d m nodes ctx n t Hn) in H.
    cbv zeta in H.
    destruct (m <? d + 1); [now injection H as <- <-|].
    set (ctx1 := mkParseContext (ctxPosition ctx + 1)
                   (tagStack ctx ++ [(n, OpenTagToken n t)])) in *.
    assert (Hinv1 : stackInv tokens ctx1).
    { apply stackInv_advance with (tok := OpenTagToken n t); auto.
      now rewrite map_app. }
    destruct (parseNodesLoop source tokens f (d + 1) m [] ctx1) as [r1 ctx2] eqn:E1.
    specialize (IH _ _ _ _ _ _ E1 Hinv1) as IH1.
    destruct r1 as [children|e|].
    2:{ injection H as <- <-. exact IH1. }
    2:{ now injection H as <- <-. }
    destruct IH1 as (Hinv2 & Hstk2 & Hstop2).
    cbn [tagStack ctx1] in Hstk2.
    assert (Hthrow :
                     match nth_error tokens (ctxPosition ctx2) with
                     | None | Some (EofToken _) => True
                     | _ => False
                     end ->
                     (@Throw (list TamlNode) (ParseError (UnclosedTagError n (tstart t) (line t)
                                         (column t) (Some source))), ctx2) = (r, ctx') ->
                     match r with
                     | Ok _ =>
                         stackInv tokens ctx' /\ tagStack ctx' = tagStack ctx /\
                         stopsAt tokens (ctxPosition ctx')
                     | Throw (ParseError (UnclosedTagError name p l c _)) =>
                         stackInv tokens ctx' /\
                         (exists outer t,
                             tagStack ctx' = outer ++ [(name, OpenTagToken name t)] /\
                             p = tstart t /\ l = line t /\ c = column t) /\
                         match nth_error tokens (ctxPosition ctx') with
                         | None | Some (EofToken _) => True
                         | _ => False
                         end
                     | _ => True
                     end).
    { intros Hend Heq. injection Heq as <- <-. cbn.
      repeat split; auto. exists (tagStack ctx), t. auto. }
    destruct (length tokens <=? ctxPosition ctx2) eqn:Hlen.
    { apply Hthrow; auto. apply Nat.leb_le in Hlen.
      apply nth_error_None in Hlen. now rewrite Hlen. }
    unfold stopsAt in Hstop2.
    destruct (nth_error tokens (ctxPosition ctx2)) as [[n2 t2|n2 t2|c2 t2|t2]|] eqn:Hn2;
      try contradiction; try (apply Hthrow; [exact I|exact H]).
    destruct (negb (jsEqb n2 n)); [now injection H as <- <-|].
    rewrite Hstk2, removelast_last in H.
    apply IH in H.
    + destruct r as [nodes'|[[]|]|]; cbn [tagStack] in H; try exact I; exact H.
    + apply stackInv_advance with (tok := CloseTagToken n2 t2); auto.
      rewrite Hstk2, map_app. cbn [openStep map]. now rewrite removelast_last.
  - (* close tag *)
    rewrite parseNodesLoop_stop in H by now rewrite Hn.
    injection H as <- <-. unfold stopsAt. now rewrite Hn.
  - (* text *)
    rewrite (@parseNodesLoop_text source tokens f d m nodes ctx content t Hn) in H.
    apply IH in H.
    + destruct r as [nodes'|[[]|]|]; cbn [tagStack] in H; try exact I; exact H.
    + apply stackInv_advance with (tok := TextToken content t); auto.
  - (* end marker *)
    rewrite parseNodesLoop_stop in H by now rewrite Hn.
    injection H as <- <-. unfold stopsAt. now rewrite Hn.
Qed.

Lemma parseTokens_unclosed (options : ParseOptions) (name : jsString) (p l c : nat)
    (s : option jsString) :
  fst (parseTokens source tokens options)
  = Throw (ParseError (UnclosedTagError name p l c s)) ->
  exists ctx' outer t,
    stackInv tokens ctx' /\
    tagStack ctx' = outer ++ [(name, OpenTagToken name t)] /\
    p = tstart t /\ l = line t /\ c = column t /\
    match nth_error tokens (ctxPosition ctx') with
    | None | Some (EofToken _) => True
    | _ => False
    end.
Proof.
  unfold parseTokens, pbind, parseNodesWithDepth.
  replace (maxDepth options <? 0) with false by (symmetry; apply Nat.ltb_ge; lia).
  destruct (parseNodesLoop source tokens (S (length tokens)) 0 (maxDepth options) []
              (mkParseContext 0 [])) as [r ctx'] eqn:E.
  apply parseNodesLoop_unclosed in E; [|reflexivity].
  destruct r as [children|e|]; cbn [fst]; try discriminate.
  - destruct E as (_ & Hstk & _). cbn [tagStack] in Hstk. rewrite Hstk.
    cbn [stackTop fst]. discriminate.
  - intros [= ->]. destruct E as (Hinv & (outer & t & Hs & -> & -> & ->) & Hend).
    exists ctx', outer, t. repeat split; auto.
Qed.

End TagStack.

(** ** Termination of the tree builder *)

Section ParserFuel.

Variable source : jsString.
Variable tokens : list TamlToken.

Lemma parseNodesLoop_fuel (fuel : nat) :
  forall d m nodes ctx,
    length tokens - ctxPosition ctx < fuel ->
    match parseNodesLoop source tokens fuel d m nodes ctx with
    | (Ok _, ctx') => ctxPosition ctx <= ctxPosition ctx'
    | (Throw _, _) => True
    | (OutOfFuel, _) => False
    end.
Proof.
  induction fuel as [|f IH]; intros d m nodes ctx Hf; [lia|].
  destruct (nth_error tokens (ctxPosition ctx)) as [tok|] eqn:Hn.
  2:{ rewrite parseNodesLoop_stop by now rewrite Hn. lia. }
  assert (Hlt : ctxPosition ctx < length tokens) by (apply nth_error_Some; congruence).
  destruct tok as [n t|n t|content t|t].
  - rewrite (@parseNodesLoop_open source tokens f d m nodes ctx n t Hn). cbv zeta.
    destruct (m <? d + 1); [exact I|].
    match goal with |- context [parseNodesLoop source tokens f (d + 1) m [] ?c] =>
      pose proof (IH (d + 1) m [] c) as IH1 end.
    cbn [ctxPosition] in IH1.
    destruct (parseNodesLoop source tokens f (d + 1) m [] _) as [[children|e|] ctx2];
      [|exact I|apply IH1; lia].
    assert (Hle : ctxPosition ctx + 1 <= ctxPosition ctx2) by (apply IH1; lia).
    destruct (length tokens <=? ctxPosition ctx2); [exact I|].
    destruct (nth_error tokens (ctxPosition ctx2)) as [[n2 t2|n2 t2|c2 t2|t2]|];
      try exact I.
    destruct (negb (jsEqb n2 n)); [exact I|].
    match goal with |- context [parseNodesLoop source tokens f d m ?ns ?c] =>
      pose proof (IH d m ns c) as IH2 end.
    cbn [ctxPosition] in IH2.
    destruct (parseNodesLoop source tokens f d m _ _) as [[nodes'|e|] ctx3];
      [|exact I|apply IH2; lia].
    assert (ctxPosition ctx2 + 1 <= ctxPosition ctx3) by (apply IH2; lia). lia.
  - rewrite parseNodesLoop_stop by now rewrite Hn. lia.
  - rewrite (@parseNodesLoop_text source tokens f d m nodes ctx content t Hn).
    match goal with |- context [parseNodesLoop source tokens f d m ?ns ?c] =>
      pose proof (IH d m ns c) as IH2 end.
    cbn [ctxPosition] in IH2.
    destruct (parseNodesLoop source tokens f d m _ _) as [[nodes'|e|] ctx3];
      [|exact I|apply IH2; lia].
    assert (ctxPosition ctx + 1 <= ctxPosition ctx3) by (apply IH2; lia). lia.
  - rewrite parseNodesLoop_stop by now rewrite Hn. lia.
Qed.

(** The tree builder returns a document spanning the source, or throws. *)
Lemma parseTokens_result (options : ParseOptions) :
  match fst (parseTokens source tokens options) with
  | Ok ast => exists children, ast = DocumentNode children 0 (length source)
  | Throw _ => True
  | OutOfFuel => False
  end.
Proof.
  unfold parseTokens, pbind, parseNodesWithDepth.
  destruct (maxDepth options <? 0); [exact I|].
  pose proof (@parseNodesLoop_fuel (S (length tokens)) 0 (maxDepth options) []
                (mkParseContext 0 [])) as H.
  destruct (parseNodesLoop source tokens (S (length tokens)) 0 (maxDepth options) []
              (mkParseContext 0 [])) as [[children|e|] ctx']; cbn [fst]; auto.
  - destruct (stackTop (tagStack ctx')) as [[]|]; cbn [fst]; eauto.
  - apply H. cbn. lia.
Qed.

End ParserFuel.

Lemma parseWithOptions_result (source : jsString) (options : ParseOptions) :
  match parseWithOptions source options with
  | Ok ast => exists children, ast = DocumentNode children 0 (length source)
  | Throw _ => True
  | OutOfFuel => False
  end.
Proof.
  unfold parseWithOptions. pose proof (tokenize_spec source) as Ht.
  destruct (tokenize source) as [toks|e|]; cbn [bind]; auto.
  apply parseTokens_result.
Qed.

Lemma parseTaml_terminates (source : jsString) (options : PartialOptions) :
  parseTaml source options <> OutOfFuel.
Proof.
  unfold parseTaml. pose proof (parseWithOptions_result source (withDefaults options)) as H.
  destruct (parseWithOptions source (withDefaults options)); cbn [bind]; auto.
  - destruct (negb _); discriminate.
  - discriminate.
Qed.

(** The parse does not look at [includePositions]. *)
Lemma parseWithOptions_includePositions (source : jsString) (ip ip' : bool) (m : nat) :
  parseWithOptions source (mkParseOptions ip m)
  = parseWithOptions source (mkParseOptions ip' m).
Proof. reflexivity. Qed.

(** ** Stripping positions *)

Lemma TamlNode_ind (P : TamlNode -> Prop) :
  (forall children s e, Forall P children -> P (DocumentNode children s e)) ->
  (forall tagName children s e, Forall P children -> P (ElementNode tagName children s e)) ->
  (forall content s e, P (TextNode content s e)) ->
  forall n, P n.
Proof.
  intros Hdoc Helem Htext.
  fix IH 1. intros [children s e|tagName children s e|content s e].
  - apply Hdoc. induction children as [|c cs IHcs]; constructor; auto.
  - apply Helem. induction children as [|c cs IHcs]; constructor; auto.
  - apply Htext.
Qed.

Lemma stripPositionsFromNode_spec (n : TamlNode) :
  sameStructure n (stripPositionsFromNode n) = true /\
  positionsZero (stripPositionsFromNode n) = true.
Proof.
  induction n as [children s e IH|tagName children s e IH|content s e] using TamlNode_ind;
    cbn [stripPositionsFromNode createDocument createElement createText
         sameStructure positionsZero Nat.eqb andb].
  - induction IH as [|c cs [Hc1 Hc2] _ [IH1 IH2]]; cbn [map forallb]; [auto|].
    rewrite Hc1, Hc2. auto.
  - rewrite jsEqb_refl. cbn [andb].
    induction IH as [|c cs [Hc1 Hc2] _ [IH1 IH2]]; cbn [map forallb]; [auto|].
    rewrite Hc1, Hc2. auto.
  - rewrite jsEqb_refl. auto.
Qed.

Lemma stripPositions_spec (children : list TamlNode) (s e : nat) :
  sameStructure (DocumentNode children s e) (stripPositions (DocumentNode children s e)) = true /\
  positionsZero (stripPositions (DocumentNode children s e)) = true.
Proof.
  exact (stripPositionsFromNode_spec (DocumentNode children s e)).
Qed.

(** ** The errors of the tree builder are placed at a token *)

Section ParserErrors.

Variable source : jsString.
Variable tokens : list TamlToken.

Lemma parseNodesLoop_errors (fuel : nat) :
  forall d m nodes ctx e ctx',
    parseNodesLoop source tokens fuel d m nodes ctx = (Throw (ParseError e), ctx') ->
    exists tok,
      In tok tokens /\ isEofToken tok = false /\
      errPosition e = tstart (base tok) /\
      errLine e = line (base tok) /\ errColumn e = column (base tok).
Proof.
  induction fuel as [|f IH]; intros d m nodes ctx e ctx' H; [discriminate|].
  destruct (nth_error tokens (ctxPosition ctx)) as [tok|] eqn:Hn.
  2:{ rewrite parseNodesLoop_stop in H by now rewrite Hn. discriminate. }
  destruct tok as [n t|n t|content t|t].
  - rewrite (@parseNodesLoop_open source tokens f d m nodes ctx n t Hn) in H.
    cbv zeta in H.
    destruct (m <? d + 1); [discriminate|].
    destruct (parseNodesLoop source tokens f (d + 1) m [] _) as [[children|e1|] ctx2] eqn:E1;
      [| |discriminate].
    2:{ injection H as -> ->. eapply IH. exact E1. }
    assert (Hopen : forall r : Result (list TamlNode),
               r = Throw (ParseError (UnclosedTagError n (tstart t) (line t) (column t)
                                        (Some source))) ->
               (r, ctx2) = (Throw (ParseError e), ctx') ->
               exists tok,
                 In tok tokens /\ isEofToken tok = false /\
                 errPosition e = tstart (base tok) /\
                 errLine e = line (base tok) /\ errColumn e = column (base tok)).
    { intros r -> [= <- _]. exists (OpenTagToken n t).
      split; [eapply nth_error_In; exact Hn|]. cbn. auto. }
    destruct (length tokens <=? ctxPosition ctx2); [eapply Hopen; eauto|].
    destruct (nth_error tokens (ctxPosition ctx2)) as [[n2 t2|n2 t2|c2 t2|t2]|] eqn:Hn2;
      try (eapply Hopen; now eauto).
    destruct (negb (jsEqb n2 n)).
    + injection H as <- _. exists (CloseTagToken n2 t2).
      split; [eapply nth_error_In; exact Hn2|]. cbn. auto.
    + eapply IH. exact H.
  - rewrite parseNodesLoop_stop in H by now rewrite Hn. discriminate.
  - rewrite (@parseNodesLoop_text source tokens f d m nodes ctx content t Hn) in H.
    eapply IH. exact H.
  - rewrite parseNodesLoop_stop in H by now rewrite Hn. discriminate.
Qed.

Lemma parseTokens_errors (options : ParseOptions) (e : TamlParseError) :
  fst (parseTokens source tokens options) = Throw (ParseError e) ->
  exists tok,
    In tok tokens /\ isEofToken tok = false /\
    errPosition e = tstart (base tok) /\
    errLine e = line (base tok) /\ errColumn e = column (base tok).
Proof.
  unfold parseTokens, pbind, parseNodesWithDepth.
  destruct (maxDepth options <? 0); [discriminate|].
  destruct (parseNodesLoop source tokens (S (length tokens)) 0 (maxDepth options) []
              (mkParseContext 0 [])) as [r ctx'] eqn:E.
  destruct r as [children|e1|]; cbn [fst]; try discriminate.
  - apply parseNodesLoop_unclosed in E; [|reflexivity].
    destruct E as (_ & Hstk & _). cbn [tagStack] in Hstk. rewrite Hstk.
    cbn [stackTop fst]. discriminate.
  - intros [= ->]. eapply parseNodesLoop_errors. exact E.
Qed.

End ParserErrors.

(** Every positioned error of [parseTaml] other than the unexpected end of
    input has the line and column of its own position. *)
Lemma parseTaml_errors_positioned (source : jsString) (options : PartialOptions)
    (e : TamlParseError) :
  parseTaml source options = Throw (ParseError e) ->
  match e with
  | UnexpectedEndOfInputError _ _ _ _ _ => True
  | _ => mkPosition (errLine e) (errColumn e) = calculatePosition source (errPosition e)
  end.
Proof.
  unfold parseTaml, parseWithOptions. intros H.
  pose proof (tokenize_spec source) as Htok.
  destruct (tokenize source) as [toks|e0|]; cbn [bind] in H; [| |contradiction].
  2:{ injection H as ->. destruct e; try contradiction; auto. }
  destruct (fst (parseTokens source toks (withDefaults options))) as [ast|e0|] eqn:E;
    cbn [bind] in H; [|injection H as ->|discriminate].
  { destruct (negb (includePositions (withDefaults options))); discriminate. }
  apply parseTokens_errors in E as (tok & Hin & Hne & Hp & Hl & Hc).
  destruct Htok as (body & -> & Hbody).
  apply in_app_or in Hin as [Hin|[<-|[]]]; [|discriminate].
  rewrite Forall_forall in Hbody. apply Hbody in Hin.
  destruct Hin as (_ & _ & _ & Hpos & _).
  rewrite <- Hp, <- Hl, <- Hc in Hpos.
  destruct e; auto.
Qed.

Lemma tokenize_errors_positioned (source : jsString) (e : TamlParseError) :
  tokenize source = Throw (ParseError e) ->
  match e with
  | UnexpectedEndOfInputError _ _ _ _ _ => True
  | _ => mkPosition (errLine e) (errColumn e) = calculatePosition source (errPosition e)
  end.
Proof.
  intros H. pose proof (tokenize_spec source) as Htok. rewrite H in Htok.
  destruct e; try contradiction; auto.
Qed.

(** ** Literal text *)


(** * The claims of the specification *)

(** ** Sanity checks of the embedding against the test-suite *)

Example tokenize_red_hello :
  tokenize (str "<red>Hello</red>") =
  Ok [ OpenTagToken (str "red") (mkToken (str "<red>") 0 5 1 1);
       TextToken (str "Hello") (mkToken (str "Hello") 5 10 1 6);
       CloseTagToken (str "red") (mkToken (str "</red>") 10 16 1 11);
       EofToken (mkToken [] 16 16 1 17) ].
Proof. reflexivity. Qed.

Example tokenize_multiline :
  map (fun t => (line (base t), column (base t)))
      (tokensOf (str "Line 1" ++ [NEWLINE] ++ str "<red>Line 2" ++ [NEWLINE]
                 ++ str "Line 3</red>"))
  = [(1, 1); (2, 1); (2, 6); (3, 7); (3, 13)].
Proof. reflexivity. Qed.

Example tokenize_malformed :
  tokenize (str "<>") =
  Throw (ParseError (MalformedTagError (str "<>") 0 1 1 (Some (str "<>")))).
Proof. reflexivity. Qed.

Example parseTaml_mismatched :
  parseTaml (str "<red>text</blue>") noOptions =
  Throw (ParseError (MismatchedTagError (str "red") (str "blue") 9 1 10
                       (Some (str "<red>text</blue>")))).
Proof. reflexivity. Qed.

Example validate_well_formed :
  validateTamlTokens (tokensOf (str "<red><bold>Text</bold></red>"))
                     (str "<red><bold>Text</bold></red>")
  = mkValidationResult true [].
Proof. reflexivity. Qed.

(** ** C1 *)

(** C1 (as stated, refuted): on the tokens of ["<red>text</blue>"] the error
    list of [validateTokens] is not a single [MismatchedTagError]. *)
Lemma validator_mismatch_not_single_error :
  ~ (valid (validateTamlTokens (tokensOf (str "<red>text</blue>")) (str "<red>text</blue>"))
     = false /\
     exists p l c s,
       errors (validateTamlTokens (tokensOf (str "<red>text</blue>"))
                 (str "<red>text</blue>"))
       = [ParseError (MismatchedTagError (str "red") (str "blue") p l c s)]).
Proof. intros (_ & p & l & c & s & H). vm_compute in H. discriminate. Qed.

(** C1 (amended): on the tokens of ["<red>text</blue>"] [validateTokens]
    returns [valid = false] and exactly two errors, in this order: the
    [MismatchedTagError] with expected "red" and actual "blue", at the
    close tag, and an [UnclosedTagError] for "red" from the end-of-stream
    stack check, the mismatch having left "red" on the stack. *)
Theorem validator_mismatch_then_unclosed :
  tokenize (str "<red>text</blue>")
  = Ok [ OpenTagToken (str "red") (mkToken (str "<red>") 0 5 1 1);
         TextToken (str "text") (mkToken (str "text") 5 9 1 6);
         CloseTagToken (str "blue") (mkToken (str "</blue>") 9 16 1 10);
         EofToken (mkToken [] 16 16 1 17) ] /\
  validateTamlTokens (tokensOf (str "<red>text</blue>")) (str "<red>text</blue>")
  = mkValidationResult false
      [ ParseError (MismatchedTagError (str "red") (str "blue") 9 1 10
                      (Some (str "<red>text</blue>")));
        ParseError (UnclosedTagError (str "red") 0 1 1
                      (Some (str "<red>text</blue>"))) ].
Proof. split; reflexivity. Qed.

(** The sibling [validateNesting] has the same design: the mismatch is
    recorded and "red" is still reported unclosed. *)
Example validateNesting_mismatch :
  validateNesting (tokensOf (str "<red>text</blue>"))
  = mkNestingResult false [str "red"] [(str "red", str "blue")].
Proof. reflexivity. Qed.

(** ** C2 *)

(** C2 (the code departs from the claim): on the tokens of ["<red><bold>x"]
    the tag stack holds two tags at the end of the stream, "red" and
    "bold", and [validateTokens] reports one [UnclosedTagError], for "bold"
    only; the sibling [validateNesting] reports both tags unclosed. *)
Theorem validator_reports_only_innermost_unclosed :
  map fst (vTagStack (validateTokenSequence (str "<red><bold>x")
                        (tokensOf (str "<red><bold>x"))
                        (mkValidationContext 0 [] [])))
  = [str "red"; str "bold"] /\
  validateTamlTokens (tokensOf (str "<red><bold>x")) (str "<red><bold>x")
  = mkValidationResult false
      [ ParseError (UnclosedTagError (str "bold") 5 1 6 (Some (str "<red><bold>x"))) ] /\
  unclosedTags (validateNesting (tokensOf (str "<red><bold>x")))
  = [str "red"; str "bold"].
Proof. repeat split; reflexivity. Qed.

Example validateTagClosure_two_unclosed :
  validateTagClosure (tokensOf (str "<red><bold>x"))
  = (false, [ mkClosureIssue IssueUnclosed (str "red") 0;
              mkClosureIssue IssueUnclosed (str "bold") 5 ]).
Proof. reflexivity. Qed.

(** ** C3 *)

(** C3 (as stated, refuted): the empty string contains no '<' and its
    token sequence is the end marker alone, without a text token. *)
Lemma tokenize_empty_no_text :
  ~ (forall s : jsString, ~ In LT s ->
       exists t e, tokenize s = Ok [TextToken (decodeEntities s) t; EofToken e]).
Proof.
  intros H. destruct (H [] (fun x => x)) as (t & e & E).
  vm_compute in E. discriminate.
Qed.

(** C3 (amended): for every non-empty string [s] without '<', [tokenize s]
    is exactly one text token, whose content is [s] with ["&lt;"] and
    ["&amp;"] decoded and which spans the whole of [s], followed by the
    end marker at [s.length]; for the empty string, [tokenize] returns the
    end marker alone. *)
Theorem tokenize_without_lt (s : jsString) :
  tokenize [] = Ok [EofToken (mkToken [] 0 0 1 1)] /\
  (s <> [] -> ~ In LT s ->
   tokenize s =
   Ok [ TextToken (decodeEntities s) (mkToken s 0 (length s) 1 1);
        EofToken (mkToken [] (length s) (length s)
                    (pos_line (calculatePosition s (length s)))
                    (pos_column (calculatePosition s (length s)))) ]).
Proof.
  split.
  - reflexivity.
  - apply tokenize_text_only.
Qed.

Lemma tokenize_without_lt_witness :
  tokenize [] = Ok [EofToken (mkToken [] 0 0 1 1)] /\
  tokenize (str "AT&amp;T") =
  Ok [ TextToken (str "AT&T") (mkToken (str "AT&amp;T") 0 8 1 1);
       EofToken (mkToken [] 8 8 1 9) ].
Proof.
  destruct (@tokenize_without_lt (str "AT&amp;T")) as [Hempty Htext].
  split; [exact Hempty|].
  apply Htext.
  - discriminate.
  - vm_compute. intuition discriminate.
Defined.

(** ** C4 *)

(** C4 (the code departs from the claim): [tokenize "<red"] throws an
    [UnexpectedEndOfInputError] whose position is 4, the end of the input,
    and whose line and column are 1 and 1, those of offset 0, while
    [calculatePosition "<red" 4] is line 1, column 5; [parseTaml] throws
    the same error. *)
Theorem unexpected_end_position_mismatch :
  tokenize (str "<red")
  = Throw (ParseError (UnexpectedEndOfInputError 4 1 1 (Some (str "<red"))
                         (Some (str "parsing tag")))) /\
  parseTaml (str "<red") noOptions
  = Throw (ParseError (UnexpectedEndOfInputError 4 1 1 (Some (str "<red"))
                         (Some (str "parsing tag")))) /\
  calculatePosition (str "<red") 4 = mkPosition 1 5 /\
  calculatePosition (str "<red") 0 = mkPosition 1 1 /\
  (exists e, tokenize (str "<red") = Throw (ParseError e) /\
             mkPosition (errLine e) (errColumn e)
             <> calculatePosition (str "<red") (errPosition e)).
Proof.
  repeat split; try reflexivity.
  eexists. split; [reflexivity|]. vm_compute. discriminate.
Qed.

(** ** C5 *)

(** C5: with the default options ([maxDepth = 100]) [parseTaml] returns a
    document on every source whose tokens are well nested with exactly 100
    tags open at the deepest point, and on every such source with 101 it
    throws the plain "maximum nesting depth exceeded" error, which is not a
    [TamlParseError]. *)
Theorem parseTaml_depth_guard (source : jsString) (toks : list TamlToken) :
  tokenize source = Ok toks ->
  wellNested [] toks = true ->
  (nestingDepth 0 toks = 100 -> exists doc, parseTaml source noOptions = Ok doc) /\
  (nestingDepth 0 toks = 101 ->
   parseTaml source noOptions = Throw (GenericError (MaxDepthExceeded 100)) /\
   isTamlParseError (GenericError (MaxDepthExceeded 100)) = false).
Proof.
  intros Htok Hw.
  destruct (@parseTokens_depth source toks true 100 Hw) as [Hok Hdeep].
  unfold parseTaml. change (withDefaults noOptions) with (mkParseOptions true 100).
  unfold parseWithOptions. rewrite Htok. cbn [bind includePositions negb].
  split; intros Hd.
  - destruct Hok as (children & ctx & E); [lia|]. rewrite E. cbn. eauto.
  - destruct Hdeep as (ctx & E); [lia|]. rewrite E. cbn. auto.
Qed.

Lemma parseTaml_depth_guard_witness :
  (exists doc, parseTaml (nested 100) noOptions = Ok doc) /\
  (parseTaml (nested 101) noOptions = Throw (GenericError (MaxDepthExceeded 100)) /\
   isTamlParseError (GenericError (MaxDepthExceeded 100)) = false).
Proof.
  split.
  - refine (proj1 (@parseTaml_depth_guard (nested 100) (tokensOf (nested 100)) _ _) _).
    + (vm_compute; reflexivity).
    + (vm_compute; reflexivity).
    + (vm_compute; reflexivity).
  - refine (proj2 (@parseTaml_depth_guard (nested 101) (tokensOf (nested 101)) _ _) _).
    + (vm_compute; reflexivity).
    + (vm_compute; reflexivity).
    + (vm_compute; reflexivity).
Defined.

(** ** C6 *)

(** C6: a token sequence returned by [tokenize] is a run of tokens that are
    not end markers and have [start < end], followed by one end marker with
    [start = end = source.length]; the line and column of every token are
    those of its start offset. *)
Theorem tokenize_token_invariants (source : jsString) (toks : list TamlToken) :
  tokenize source = Ok toks ->
  exists body e,
    toks = body ++ [EofToken e] /\
    tstart e = length source /\ tend e = length source /\
    Forall (fun t => isEofToken t = false /\ tstart (base t) < tend (base t)) body /\
    Forall (fun t => mkPosition (line (base t)) (column (base t))
                     = calculatePosition source (tstart (base t))) toks.
Proof.
  intros H. pose proof (tokenize_spec source) as Hs. rewrite H in Hs.
  destruct Hs as (body & -> & Hbody).
  eexists body, _. split; [reflexivity|]. cbn [tstart tend].
  repeat split.
  - eapply Forall_impl; [|exact Hbody]. intros t (H1 & H2 & _). auto.
  - apply Forall_app. split.
    + eapply Forall_impl; [|exact Hbody]. intros t (_ & _ & _ & H4 & _). exact H4.
    + constructor; [|constructor]. apply position_eta.
Qed.

Lemma tokenize_token_invariants_witness :
  exists body e,
    tokensOf (str "<red>Hello</red> World") = body ++ [EofToken e] /\
    tstart e = length (str "<red>Hello</red> World") /\
    tend e = length (str "<red>Hello</red> World") /\
    Forall (fun t => isEofToken t = false /\ tstart (base t) < tend (base t)) body /\
    Forall (fun t => mkPosition (line (base t)) (column (base t))
                     = calculatePosition (str "<red>Hello</red> World") (tstart (base t)))
           (tokensOf (str "<red>Hello</red> World")).
Proof.
  apply (@tokenize_token_invariants (str "<red>Hello</red> World")
           (tokensOf (str "<red>Hello</red> World"))).
  vm_compute. reflexivity.
Defined.

(** ** C7 *)



(** ** C8 *)

(** C8: [parseTaml "<red>Hello</red>"] is a document spanning [0, 16] with
    one child, the element "red" spanning [0, 16], which has one child, the
    text "Hello" spanning [5, 10]. *)
Theorem parseTaml_red_hello :
  parseTaml (str "<red>Hello</red>") noOptions
  = Ok (DocumentNode
          [ElementNode (str "red") [TextNode (str "Hello") 5 10] 0 16]
          0 16).
Proof. reflexivity. Qed.

(** ** C9 *)

(** C9: when [parseTaml source] returns a tree, [parseTaml] with
    [includePositions: false] returns [stripPositions] of that tree: a tree
    with the same kinds of node, tag names, text contents and children in
    the same number and order, in which every [start] and [end] is 0. *)
Theorem includePositions_false_strips (source : jsString) (ast : TamlNode) :
  parseTaml source noOptions = Ok ast ->
  exists stripped,
    parseTaml source (mkPartialOptions (Some false) None) = Ok stripped /\
    stripped = stripPositions ast /\
    sameStructure ast stripped = true /\
    positionsZero stripped = true.
Proof.
  unfold parseTaml.
  change (withDefaults noOptions) with (mkParseOptions true 100).
  change (withDefaults (mkPartialOptions (Some false) None))
    with (mkParseOptions false 100).
  rewrite (parseWithOptions_includePositions source false true 100).
  pose proof (parseWithOptions_result source (mkParseOptions true 100)) as Hr.
  destruct (parseWithOptions source (mkParseOptions true 100)) as [doc|e|];
    cbn [bind includePositions negb]; try discriminate.
  intros [= <-]. destruct Hr as (children & ->).
  exists (stripPositions (DocumentNode children 0 (length source))).
  split; [reflexivity|]. split; [reflexivity|].
  apply stripPositions_spec.
Qed.

Lemma includePositions_false_strips_witness :
  exists stripped,
    parseTaml (str "a<red>Hello<bold>!</bold></red>") (mkPartialOptions (Some false) None)
    = Ok stripped /\
    stripped = stripPositions
                 (DocumentNode
                    [TextNode (str "a") 0 1;
                     ElementNode (str "red")
                       [TextNode (str "Hello") 6 11;
                        ElementNode (str "bold") [TextNode (str "!") 17 18] 11 25]
                       1 31]
                    0 31) /\
    sameStructure
      (DocumentNode
         [TextNode (str "a") 0 1;
          ElementNode (str "red")
            [TextNode (str "Hello") 6 11;
             ElementNode (str "bold") [TextNode (str "!") 17 18] 11 25]
            1 31]
         0 31) stripped = true /\
    positionsZero stripped = true.
Proof.
  apply (@includePositions_false_strips (str "a<red>Hello<bold>!</bold></red>")).
  vm_compute. reflexivity.
Defined.

(** ** C10 *)

(** C10: when [parseTaml] throws an [UnclosedTagError], the error names the
    innermost tag left open by the tokens of the source (the last of the
    open tags not yet closed), and its position, line and column are the
    start, line and column of that open-tag token: the offset of its '<',
    which lies inside the source, and the line and column of that offset. *)
Theorem unclosed_tag_error_position (source : jsString) (options : PartialOptions)
    (name : jsString) (p l c : nat) (s : option jsString) :
  parseTaml source options = Throw (ParseError (UnclosedTagError name p l c s)) ->
  exists toks outer t,
    tokenize source = Ok toks /\
    unclosedOpenTags toks = outer ++ [OpenTagToken name t] /\
    p = tstart t /\ l = line t /\ c = column t /\
    charAt source p = Some LT /\ p < length source /\
    mkPosition l c = calculatePosition source p.
Proof.
  unfold parseTaml, parseWithOptions. intros H.
  pose proof (tokenize_spec source) as Htok.
  destruct (tokenize source) as [toks|e|]; cbn [bind] in H; [| |contradiction].
  2:{ injection H as ->. contradiction. }
  destruct (fst (parseTokens source toks (withDefaults options))) as [ast|e|] eqn:E;
    cbn [bind] in H; [|injection H as ->|discriminate].
  { destruct (negb (includePositions (withDefaults options))); discriminate. }
  apply parseTokens_unclosed in E
    as (ctx' & outer & t & Hinv & Hstk & -> & -> & -> & Hend).
  destruct Htok as (body & -> & Hbody).
  set (eofTok := EofToken _) in *.
  assert (Hall : unclosedOpenTags (firstn (ctxPosition ctx') (body ++ [eofTok]))
                 = unclosedOpenTags (body ++ [eofTok])).
  { destruct (nth_error (body ++ [eofTok]) (ctxPosition ctx')) as [tok|] eqn:Hn.
    - destruct tok; try contradiction.
      destruct (Nat.lt_ge_cases (ctxPosition ctx') (length body)) as [Hlt|Hge].
      + rewrite nth_error_app1 in Hn by exact Hlt.
        apply nth_error_In in Hn. rewrite Forall_forall in Hbody.
        apply Hbody in Hn. destruct Hn as (Hne & _). discriminate.
      + assert (Hlt : ctxPosition ctx' < length (body ++ [eofTok]))
          by (apply nth_error_Some; congruence).
        rewrite length_app in Hlt. cbn [length] in Hlt.
        replace (ctxPosition ctx') with (length body + 0) by lia.
        rewrite firstn_app_2. cbn [firstn]. rewrite app_nil_r.
        now rewrite unclosedOpenTags_snoc.
    - apply nth_error_None in Hn. now rewrite firstn_all2. }
  unfold stackInv in Hinv. rewrite Hall, Hstk, map_app in Hinv. cbn [map snd] in Hinv.
  assert (Hin : In (OpenTagToken name t) body).
  { assert (Hin : In (OpenTagToken name t) (body ++ [eofTok])).
    { apply unclosedOpenTags_in. rewrite <- Hinv. apply in_or_app. right. now left. }
    apply in_app_or in Hin as [Hin|[Hin|[]]]; [exact Hin|discriminate]. }
  rewrite Forall_forall in Hbody. apply Hbody in Hin.
  destruct Hin as (_ & Hse & Hel & Hpos & Hlt). cbn [base] in *.
  exists (body ++ [eofTok]), (map snd outer), t.
  repeat split; auto. lia.
Qed.

Lemma unclosed_tag_error_position_witness :
  exists toks outer t,
    tokenize (str "<bold><red>nested") = Ok toks /\
    unclosedOpenTags toks = outer ++ [OpenTagToken (str "red") t] /\
    6 = tstart t /\ 1 = line t /\ 7 = column t /\
    charAt (str "<bold><red>nested") 6 = Some LT /\
    6 < length (str "<bold><red>nested") /\
    mkPosition 1 7 = calculatePosition (str "<bold><red>nested") 6.
Proof.
  apply (@unclosed_tag_error_position (str "<bold><red>nested") noOptions
           (str "red") 6 1 7 (Some (str "<bold><red>nested"))).
  vm_compute. reflexivity.
Defined.

(** * Further lemmas *)

(** ** The position calculator *)

Lemma calculatePositionLoop_clamp (s : jsString) :
  forall n l c, length s <= n ->
    calculatePositionLoop s n l c = calculatePositionLoop s (length s) l c.
Proof.
  induction s as [|x s IH]; intros n l c Hn.
  - now destruct n.
  - destruct n as [|n]; cbn [length] in *; [lia|].
    cbn [calculatePositionLoop]. destruct (Ascii.eqb x NEWLINE); apply IH; lia.
Qed.

Lemma splitLines_nonempty (s : jsString) : splitLines s <> [].
Proof.
  induction s as [|x s IH]; cbn [splitLines]; [discriminate|].
  destruct (Ascii.eqb x NEWLINE); [discriminate|].
  destruct (splitLines s); discriminate.
Qed.

Lemma calculatePositionLoop_lines (s : jsString) :
  forall n l c,
    calculatePositionLoop s n l c =
    let ls := splitLines (firstn n s) in
    mkPosition (l + length ls - 1)
               (if length ls =? 1 then c + length (last ls []) else 1 + length (last ls [])).
Proof.
  induction s as [|x s IH]; intros n l c.
  - destruct n; cbn; f_equal; lia.
  - destruct n as [|n]; [cbn; f_equal; lia|].
    cbn [calculatePositionLoop firstn splitLines].
    pose proof (splitLines_nonempty (firstn n s)) as Hne.
    destruct (Ascii.eqb x NEWLINE).
    + rewrite IH. cbv zeta.
      destruct (splitLines (firstn n s)) as [|f o] eqn:E; [congruence|].
      cbn [length Nat.eqb]. f_equal; [lia|].
      destruct o as [|f' o]; cbn [length Nat.eqb]; [reflexivity|].
      reflexivity.
    + rewrite IH. cbv zeta.
      destruct (splitLines (firstn n s)) as [|f o] eqn:E; [congruence|].
      cbn [length]. f_equal.
      destruct o as [|f' o]; cbn [length Nat.eqb last]; [lia|reflexivity].
Qed.

Lemma calculatePositionLoop_ge (s : jsString) :
  forall n l c,
    let p := calculatePositionLoop s n l c in
    l < pos_line p \/ (l = pos_line p /\ c <= pos_column p).
Proof.
  induction s as [|x s IH]; intros n l c; [destruct n; cbn; lia|].
  destruct n as [|n]; [cbn; lia|].
  cbn [calculatePositionLoop]. destruct (Ascii.eqb x NEWLINE).
  - specialize (IH n (S l) 1). cbv zeta in *. lia.
  - specialize (IH n l (S c)). cbv zeta in *. lia.
Qed.

Lemma calculatePositionLoop_increasing (s : jsString) :
  forall p q l c, p < q -> q <= length s ->
    let a := calculatePositionLoop s p l c in
    let b := calculatePositionLoop s q l c in
    pos_line a < pos_line b \/ (pos_line a = pos_line b /\ pos_column a < pos_column b).
Proof.
  induction s as [|x s IH]; intros p q l c Hpq Hq; cbn [length] in Hq; [lia|].
  destruct q as [|q]; [lia|]. destruct p as [|p].
  - cbn [calculatePositionLoop]. cbn [pos_line pos_column].
    destruct (Ascii.eqb x NEWLINE).
    + pose proof (calculatePositionLoop_ge s q (S l) 1) as H. cbv zeta in *. lia.
    + pose proof (calculatePositionLoop_ge s q l (S c)) as H. cbv zeta in *. lia.
  - cbn [calculatePositionLoop]. destruct (Ascii.eqb x NEWLINE); apply IH; lia.
Qed.

Lemma splitLines_app (a b : jsString) :
  splitLines (a ++ b) =
  removelast (splitLines a) ++ (last (splitLines a) [] ++ hd [] (splitLines b))
                               :: tl (splitLines b).
Proof.
  induction a as [|x a IH].
  - cbn. pose proof (splitLines_nonempty b). now destruct (splitLines b).
  - cbn [app splitLines]. pose proof (splitLines_nonempty a) as Hne.
    destruct (Ascii.eqb x NEWLINE).
    + rewrite IH. destruct (splitLines a) as [|f o]; [congruence|]. reflexivity.
    + rewrite IH. destruct (splitLines a) as [|f o]; [congruence|].
      destruct o as [|f' o]; reflexivity.
Qed.

Lemma nth_error_removelast_last {A} (l : list A) (x d : A) (r : list A) :
  l <> [] ->
  nth_error (removelast l ++ x :: r) (length l - 1) = Some x.
Proof.
  intros Hne. pose proof (app_removelast_last d Hne) as E.
  apply (f_equal (@length A)) in E. rewrite length_app in E. cbn [length] in E.
  rewrite nth_error_app2 by lia.
  replace (length l - 1 - length (removelast l)) with 0 by lia. reflexivity.
Qed.

(** ** The tokens tile the source *)

Lemma firstn_plus {A} (n m : nat) (l : list A) :
  firstn (n + m) l = firstn n l ++ firstn m (skipn n l).
Proof.
  revert l; induction n as [|n IH]; intros l; [reflexivity|].
  destruct l as [|x l]; cbn [Nat.add firstn skipn app].
  - now rewrite firstn_nil.
  - now rewrite IH.
Qed.

Lemma slice_split (s : jsString) (a b c : nat) :
  a <= b -> b <= c -> slice s a c = slice s a b ++ slice s b c.
Proof.
  intros Hab Hbc. unfold slice.
  replace (c - a) with ((b - a) + (c - b)) by lia.
  rewrite firstn_plus. f_equal. rewrite skipn_skipn. do 2 f_equal. lia.
Qed.

Lemma slice_one (s : jsString) (a : nat) (x : ascii) :
  charAt s a = Some x -> slice s a (a + 1) = [x].
Proof.
  intros H. unfold slice. rewrite (skipn_charAt _ _ H).
  replace (a + 1 - a) with 1 by lia. reflexivity.
Qed.

Lemma slice_nil (s : jsString) (a : nat) : slice s a a = [].
Proof. unfold slice. now rewrite Nat.sub_diag. Qed.

Lemma slice_to_end (s : jsString) (a : nat) : slice s a (length s) = skipn a s.
Proof.
  unfold slice. apply firstn_all2. rewrite length_skipn. lia.
Qed.

Lemma slice_cons (s : jsString) (a b : nat) (x : ascii) :
  charAt s a = Some x -> a < b -> slice s a b = x :: slice s (a + 1) b.
Proof.
  intros H Hlt. rewrite (@slice_split s a (a + 1) b) by lia.
  now rewrite (slice_one _ _ H).
Qed.

Lemma firstn_prefix_guard (l pat : jsString) (k : nat) :
  jsEqb (firstn (length pat) l) pat = false ->
  jsEqb (firstn (length pat) (firstn k l)) pat = false.
Proof.
  intros H. destruct (jsEqb (firstn (length pat) (firstn k l)) pat) eqn:E; auto.
  apply jsEqb_eq in E. rewrite firstn_firstn in E.
  assert (Hmin : Nat.min (length pat) k = length pat).
  { apply (f_equal (@length ascii)) in E. rewrite length_firstn in E. lia. }
  rewrite Hmin in E. rewrite E, jsEqb_refl in H. discriminate.
Qed.

Section TokenizerTiling.

Variable source : jsString.

Lemma readText_segment (fuel : nat) :
  forall p content p' content',
    readText source fuel p content = Ok (p', content') ->
    p <= p' /\
    content' = content ++ decodeEntities (slice source p p') /\
    ~ In LT (slice source p p').
Proof.
  induction fuel as [|fuel IH]; intros p content p' content' H; [discriminate|].
  cbn [readText] in H. destruct (charAt source p) as [c|] eqn:Hc.
  2:{ inversion H; subst. rewrite slice_nil. cbn. rewrite app_nil_r. auto. }
  destruct (Ascii.eqb c LT) eqn:Elt.
  { inversion H; subst. rewrite slice_nil. cbn. rewrite app_nil_r. auto. }
  assert (Hne : c <> LT) by (intros ->; now rewrite Ascii.eqb_refl in Elt).
  destruct (Ascii.eqb c AMP && jsEqb (slice source p (p + 4)) (str "&lt;")) eqn:E1.
  { apply andb_true_iff in E1 as [_ E1]. apply jsEqb_eq in E1.
    apply IH in H as (Hle & -> & Hno).
    assert (Hs : slice source p p' = str "&lt;" ++ slice source (p + 4) p').
    { rewrite (@slice_split source p (p + 4) p') by lia. now rewrite E1. }
    rewrite Hs. split; [lia|]. split.
    - rewrite decodeEntities_lt, <- app_assoc. reflexivity.
    - intros Hin. apply in_app_or in Hin as [Hin|Hin]; [|contradiction].
      revert Hin. vm_compute. intuition discriminate. }
  destruct (Ascii.eqb c AMP && jsEqb (slice source p (p + 5)) (str "&amp;")) eqn:E2.
  { apply andb_true_iff in E2 as [_ E2]. apply jsEqb_eq in E2.
    apply IH in H as (Hle & -> & Hno).
    assert (Hs : slice source p p' = str "&amp;" ++ slice source (p + 5) p').
    { rewrite (@slice_split source p (p + 5) p') by lia. now rewrite E2. }
    rewrite Hs. split; [lia|]. split.
    - rewrite decodeEntities_amp, <- app_assoc. reflexivity.
    - intros Hin. apply in_app_or in Hin as [Hin|Hin]; [|contradiction].
      revert Hin. vm_compute. intuition discriminate. }
  apply IH in H as (Hle & -> & Hno).
  assert (Hs : slice source p p' = c :: slice source (p + 1) p')
    by (apply slice_cons; [exact Hc|lia]).
  split; [lia|]. split.
  - rewrite slice_firstn in E1, E2.
    rewrite (skipn_charAt _ _ Hc) in E1, E2.
    apply (amp_guard c (skipn (p + 1) source) (str "lt;") 4) in E1.
    apply (amp_guard c (skipn (p + 1) source) (str "amp;") 5) in E2.
    rewrite <- (skipn_charAt _ _ Hc) in E1, E2.
    apply (@firstn_prefix_guard (skipn p source) (str "&lt;") (p' - p)) in E1.
    apply (@firstn_prefix_guard (skipn p source) (str "&amp;") (p' - p)) in E2.
    fold (slice source p p') in E1, E2. rewrite Hs in E1, E2 |- *.
    rewrite decodeEntities_other; [|exact E1|exact E2].
    rewrite <- app_assoc. reflexivity.
  - rewrite Hs. intros [Hin|Hin]; [congruence|contradiction].
Qed.

Lemma readTagName_le (fuel : nat) :
  forall p p', readTagName source fuel p = Ok p' -> p <= length source ->
               p' <= length source.
Proof.
  induction fuel as [|fuel IH]; intros p p' H Hp; [discriminate|].
  cbn [readTagName] in H. destruct (charAt source p) as [c|] eqn:Hc.
  - destruct (Ascii.eqb c GT); [injection H as <-; lia|].
    apply IH in H; auto. apply charAt_lt in Hc. lia.
  - injection H as <-. lia.
Qed.

Lemma tokenizeTag_full (st : TokenizerState) :
  charAt source (position st) = Some LT ->
  match tokenizeTag source (S (length source)) st with
  | Ok st' =>
      exists t, tokens st' = tokens st ++ [t] /\ tokenFaithful source t
  | Throw e => raisedAtTag source e
  | OutOfFuel => False
  end.
Proof.
  intros Hc. unfold tokenizeTag. rewrite Hc. rewrite Ascii.eqb_refl. cbn [negb].
  pose proof (charAt_lt _ _ Hc) as Hlt.
  set (isClosing := match charAt source (position st + 1) with
                    | Some c1 => Ascii.eqb c1 SLASH
                    | None => false
                    end).
  set (p2 := if isClosing then position st + 1 + 1 else position st + 1).
  assert (Hp2 : position st + 1 <= p2 /\ p2 <= length source /\
                slice source (position st) p2
                = LT :: (if isClosing then [SLASH] else [])).
  { unfold p2, isClosing.
    destruct (charAt source (position st + 1)) as [c1|] eqn:Hc1.
    - destruct (Ascii.eqb c1 SLASH) eqn:E.
      + apply Ascii.eqb_eq in E. subst c1. pose proof (charAt_lt _ _ Hc1).
        repeat split; try lia.
        rewrite (@slice_split source (position st) (position st + 1)) by lia.
        now rewrite (slice_one _ _ Hc), (slice_one _ _ Hc1).
      + repeat split; try lia. now rewrite (slice_one _ _ Hc).
    - repeat split; try lia. now rewrite (slice_one _ _ Hc). }
  destruct Hp2 as (Hp2 & Hp2' & Hopen).
  destruct (@readTagName_spec source (S (length source)) p2)
    as (p3 & Hr & Hle & Hstop); [lia|].
  pose proof (@readTagName_le _ _ _ Hr Hp2') as Hle3.
  rewrite Hr. cbn [bind].
  assert (Hat : forall content,
             raisedAtTag source
               (ParseError (MalformedTagError content (position st)
                  (pos_line (calculatePosition source (position st)))
                  (pos_column (calculatePosition source (position st)))
                  (Some source)))).
  { intros content. exists (position st). cbn. rewrite position_eta. auto. }
  assert (Heoi : charAt source p3 <> Some GT ->
             raisedAtTag source
               (ParseError (UnexpectedEndOfInputError p3
                  (pos_line (calculatePosition source (position st)))
                  (pos_column (calculatePosition source (position st)))
                  (Some source) (Some (str "parsing tag"))))).
  { intros Hn. exists (position st). cbn. rewrite position_eta.
    repeat split; auto. destruct Hstop as [Hs|Hs]; [contradiction|].
    apply charAt_none in Hs. lia. }
  destruct (jsEqb (slice source p2 p3) []); [apply Hat|].
  destruct (negb (lettersOnly (slice source p2 p3))); [apply Hat|].
  destruct (charAt source p3) as [c3|] eqn:Hc3; [|apply Heoi; discriminate].
  destruct (Ascii.eqb c3 GT) eqn:Egt.
  2:{ apply Heoi. intros [= ->]. now rewrite Ascii.eqb_refl in Egt. }
  apply Ascii.eqb_eq in Egt. subst c3.
  destruct (negb (isValidTag (slice source p2 p3))) eqn:Ev.
  { exists (position st). cbn. rewrite position_eta. auto. }
  apply negb_false_iff in Ev.
  eexists. split; [reflexivity|].
  assert (Hval : slice source (position st) (p3 + 1)
                 = LT :: (if isClosing then [SLASH] else []) ++ slice source p2 p3 ++ [GT]).
  { rewrite (@slice_split source (position st) p2 (p3 + 1)) by lia.
    rewrite (@slice_split source p2 p3 (p3 + 1)) by lia.
    rewrite Hopen, (slice_one _ _ Hc3). reflexivity. }
  unfold tokenFaithful. destruct isClosing; cbn; rewrite Hval; auto.
Qed.

Lemma readText_never_throws (fuel : nat) :
  forall p content e, readText source fuel p content <> Throw e.
Proof.
  induction fuel as [|fuel IH]; intros p content e; [discriminate|].
  cbn [readText]. destruct (charAt source p) as [c|]; [|discriminate].
  destruct (Ascii.eqb c LT); [discriminate|].
  destruct (_ && _); [apply IH|]. destruct (_ && _); apply IH.
Qed.

Lemma tokenizeText_full (st : TokenizerState) (fuel : nat) :
  match tokenizeText source fuel st with
  | Ok st' =>
      exists t, tokens st' = tokens st ++ [t] /\ tokenFaithful source t
  | Throw e => False
  | OutOfFuel => True
  end.
Proof.
  unfold tokenizeText.
  destruct (readText source fuel (position st) []) as [[p' content]|e|] eqn:Hr;
    cbn [bind]; auto.
  - apply readText_segment in Hr as (Hle & -> & Hno).
    eexists. split; [reflexivity|]. unfold tokenFaithful. cbn. auto.
  - now apply readText_never_throws in Hr.
Qed.

Lemma tokenizeNext_full (st : TokenizerState) :
  position st < length source ->
  match tokenizeNext source (S (length source)) st with
  | Ok st' =>
      exists t, tokens st' = tokens st ++ [t] /\ tokenFaithful source t /\
                wellPlaced source t /\
                tstart (base t) = position st /\ tend (base t) = position st'
  | Throw e => raisedAtTag source e
  | OutOfFuel => False
  end.
Proof.
  intros Hlt. pose proof (@tokenizeNext_spec source st Hlt) as Hspec.
  unfold tokenizeNext in *.
  destruct (charAt source (position st)) as [c|] eqn:Hc;
    [|apply charAt_none in Hc; lia].
  destruct (Ascii.eqb c LT) eqn:E.
  - apply Ascii.eqb_eq in E. subst c. pose proof (tokenizeTag_full st Hc) as Hfull.
    destruct (tokenizeTag source (S (length source)) st) as [st'|e|];
      try contradiction; auto.
    destruct Hspec as (t & Ht & Hw & Hs & He), Hfull as (t' & Ht' & Hf).
    rewrite Ht in Ht'. apply app_inj_tail in Ht' as [_ <-]. exists t.
    exact (conj Ht (conj Hf (conj Hw (conj Hs He)))).
  - pose proof (tokenizeText_full st (S (length source))) as Hfull.
    destruct (tokenizeText source (S (length source)) st) as [st'|e|];
      try contradiction; auto.
    destruct Hspec as (t & Ht & Hw & Hs & He), Hfull as (t' & Ht' & Hf).
    rewrite Ht in Ht'. apply app_inj_tail in Ht' as [_ <-]. exists t.
    exact (conj Ht (conj Hf (conj Hw (conj Hs He)))).
Qed.

Lemma tokenizeLoop_full (fuel : nat) (st : TokenizerState) :
  length source - position st < fuel -> position st <= length source ->
  match tokenizeLoop source fuel st with
  | Ok st' =>
      position st' = length source /\
      exists new,
        tokens st' = tokens st ++ new /\
        Forall (tokenFaithful source) new /\
        contiguous (position st)
          (new ++ [EofToken (mkToken [] (length source) (length source)
                              (pos_line (calculatePosition source (length source)))
                              (pos_column (calculatePosition source (length source))))]) /\
        concat (map (fun t => value (base t)) new) = skipn (position st) source
  | Throw e => raisedAtTag source e
  | OutOfFuel => False
  end.
Proof.
  revert st; induction fuel as [|fuel IH]; intros st Hf Hp; [lia|].
  cbn [tokenizeLoop]. destruct (position st <? length source) eqn:Hlt.
  - apply Nat.ltb_lt in Hlt.
    pose proof (tokenizeNext_full st Hlt) as Hn.
    destruct (tokenizeNext source (S (length source)) st) as [st1| |]; cbn [bind]; auto.
    destruct Hn as (t & Ht & Hfaith & Hw & Hs & He).
    assert (Hw' := Hw). destruct Hw' as (_ & Hse & Hel & _).
    specialize (IH st1). rewrite <- He in IH.
    assert (H1 : length source - tend (base t) < fuel) by lia.
    specialize (IH H1 Hel).
    destruct (tokenizeLoop source fuel st1) as [st2| |]; auto.
    destruct IH as (Hpos & new & Hnew & Hall & Hcont & Hcat).
    split; auto. exists (t :: new). split; [|split; [|split]].
    + rewrite Hnew, Ht, <- app_assoc. reflexivity.
    + now constructor.
    + cbn [app contiguous]. auto.
    + cbn [map concat]. rewrite Hcat. destruct Hfaith as (Hv & _). rewrite Hv, Hs.
      rewrite <- (slice_to_end source (tend (base t))), <- (slice_to_end source (position st)).
      symmetry. apply slice_split; lia.
  - apply Nat.ltb_ge in Hlt. split; [lia|]. exists []. rewrite app_nil_r.
    split; [reflexivity|]. split; [constructor|]. split.
    + cbn. split; [lia|exact I].
    + cbn. rewrite skipn_all2 by lia. reflexivity.
Qed.

(** [tokenize] returns contiguous, faithful tokens whose values make up the
    source, or throws at a tag. *)
Lemma tokenize_full :
  match tokenize source with
  | Ok toks =>
      Forall (tokenFaithful source) toks /\ contiguous 0 toks /\
      concat (map (fun t => value (base t)) toks) = source
  | Throw e => raisedAtTag source e
  | OutOfFuel => False
  end.
Proof.
  unfold tokenize, tokenizerRun.
  pose proof (@tokenizeLoop_full (S (length source)) (mkTokenizerState 0 [])) as H.
  cbn [position] in H.
  assert (H0 : length source - 0 < S (length source)) by lia.
  specialize (H H0 (Nat.le_0_l _)).
  destruct (tokenizeLoop source (S (length source)) (mkTokenizerState 0 [])) as [st| |];
    cbn [bind]; auto.
  destruct H as (Hpos & new & Hnew & Hall & Hcont & Hcat).
  cbn [tokens app] in Hnew. rewrite Hnew, Hpos. split; [|split].
  - apply Forall_app. split; auto. constructor; [|constructor].
    unfold tokenFaithful. cbn [base value tstart tend]. rewrite slice_nil. auto.
  - exact Hcont.
  - rewrite map_app, concat_app. cbn. rewrite Hcat. cbn. now rewrite !app_nil_r.
Qed.

End TokenizerTiling.

(** ** What the tokenizer accepts *)

Lemma isValidTag_letters (n : jsString) : isValidTag n = true -> lettersOnly n = true.
Proof.
  unfold isValidTag. intros H. apply existsb_exists in H as (v & Hin & Heq).
  apply jsEqb_eq in Heq. subst v.
  assert (Hall : forallb lettersOnly validTags = true) by (vm_compute; reflexivity).
  rewrite forallb_forall in Hall. now apply Hall.
Qed.

Lemma lettersOnly_forall (n : jsString) :
  lettersOnly n = true -> n <> [] /\ forall c, In c n -> isLetter c = true.
Proof.
  unfold lettersOnly. destruct n as [|x n]; [discriminate|].
  intros H. split; [discriminate|]. now apply forallb_forall.
Qed.

Lemma skipn_app_length (s a b : jsString) (p : nat) :
  skipn p s = a ++ b -> skipn (p + length a) s = b.
Proof.
  intros H. rewrite Nat.add_comm, <- skipn_skipn, H.
  now rewrite skipn_app, skipn_all, Nat.sub_diag.
Qed.

Lemma skipn_head (s r : jsString) (p : nat) (c : ascii) :
  skipn p s = c :: r -> charAt s p = Some c /\ skipn (p + 1) s = r.
Proof.
  intros H. split.
  - unfold charAt. rewrite <- (Nat.add_0_r p), <- nth_error_skipn, H. reflexivity.
  - apply (@skipn_app_length s [c] r p H).
Qed.

Section TokenizerAcceptance.

Variable source : jsString.

Lemma readTagName_reads (n : jsString) :
  forall fuel p rest,
    skipn p source = n ++ GT :: rest -> ~ In GT n -> length n < fuel ->
    readTagName source fuel p = Ok (p + length n).
Proof.
  induction n as [|x n IH]; intros fuel p rest Hs Hno Hf;
    (destruct fuel as [|fuel]; [cbn in Hf; lia|]); cbn [readTagName].
  - apply skipn_head in Hs as [Hc _]. rewrite Hc, Ascii.eqb_refl.
    cbn. now rewrite Nat.add_0_r.
  - cbn [app] in Hs. apply skipn_head in Hs as [Hc Hs]. rewrite Hc.
    destruct (Ascii.eqb x GT) eqn:E.
    + apply Ascii.eqb_eq in E. subst x. exfalso. apply Hno. now left.
    + rewrite (IH fuel (p + 1) rest Hs).
      * f_equal. cbn [length]. lia.
      * intros Hin. apply Hno. now right.
      * cbn [length] in Hf. lia.
Qed.

Lemma tokenizeTag_complete (st : TokenizerState) (closing : bool) (n rest : jsString) :
  skipn (position st) source = spell (PTag closing n) ++ rest ->
  isValidTag n = true ->
  exists st',
    tokenizeTag source (S (length source)) st = Ok st' /\
    skipn (position st') source = rest.
Proof.
  intros Hs Hv. pose proof (isValidTag_letters _ Hv) as Hl.
  destruct (lettersOnly_forall _ Hl) as [Hne Hall].
  assert (Hgt : ~ In GT n).
  { intros Hin. apply Hall in Hin. discriminate. }
  assert (Hlen : length (spell (PTag closing n) ++ rest) <= length source).
  { rewrite <- Hs, length_skipn. lia. }
  unfold tokenizeTag.
  assert (Hhead : exists body, spell (PTag closing n) ++ rest = LT :: body).
  { destruct closing; cbn [spell app]; eauto. }
  destruct Hhead as (body & Hb). rewrite Hb in Hs.
  destruct (skipn_head _ _ Hs) as [Hc Hs1]. rewrite Hc, Ascii.eqb_refl. cbn [negb].
  cbv zeta.
  assert (Hname : exists p2,
             (if match charAt source (position st + 1) with
                 | Some c1 => Ascii.eqb c1 SLASH
                 | None => false
                 end
              then position st + 1 + 1 else position st + 1) = p2 /\
             match charAt source (position st + 1) with
             | Some c1 => Ascii.eqb c1 SLASH
             | None => false
             end = closing /\
             skipn p2 source = n ++ GT :: rest).
  { destruct closing; cbn [spell app] in Hb; injection Hb as <-.
    - destruct (skipn_head _ _ Hs1) as [Hc1 Hs2]. rewrite Hc1, Ascii.eqb_refl.
      eexists. split; [reflexivity|]. split; [reflexivity|].
      rewrite Hs2. now rewrite <- app_assoc.
    - destruct n as [|x n]; [congruence|]. cbn [app] in Hs1.
      destruct (skipn_head _ _ Hs1) as [Hc1 _]. rewrite Hc1.
      assert (Hx : Ascii.eqb x SLASH = false).
      { destruct (Ascii.eqb x SLASH) eqn:E; auto. apply Ascii.eqb_eq in E. subst x.
        specialize (Hall SLASH (or_introl eq_refl)). discriminate. }
      rewrite Hx. eexists. split; [reflexivity|]. split; [reflexivity|].
      rewrite Hs1. cbn [app]. now rewrite <- app_assoc. }
  destruct Hname as (p2 & -> & -> & Hs2).
  assert (Hfuel : length n < S (length source)).
  { rewrite length_app in Hlen. destruct closing; cbn [spell length] in Hlen;
      rewrite length_app in Hlen; lia. }
  rewrite (@readTagName_reads n (S (length source)) p2 rest Hs2 Hgt Hfuel). cbn [bind].
  assert (Hslice : slice source p2 (p2 + length n) = n).
  { unfold slice. replace (p2 + length n - p2) with (length n) by lia.
    rewrite Hs2, firstn_app, firstn_all, Nat.sub_diag. cbn. now rewrite app_nil_r. }
  rewrite Hslice.
  assert (Hnil : jsEqb n [] = false) by (destruct n; [congruence|reflexivity]).
  rewrite Hnil, Hl. cbn [negb].
  pose proof (@skipn_app_length source n (GT :: rest) p2 Hs2) as Hs3.
  destruct (skipn_head _ _ Hs3) as [Hc3 Hs4]. rewrite Hc3, Ascii.eqb_refl, Hv.
  cbn [negb]. eexists. split; [reflexivity|]. cbn [position]. exact Hs4.
Qed.

Lemma readText_stops (fuel : nat) :
  forall p content p' content',
    readText source fuel p content = Ok (p', content') ->
    charAt source p' = None \/ charAt source p' = Some LT.
Proof.
  induction fuel as [|fuel IH]; intros p content p' content' H; [discriminate|].
  cbn [readText] in H. destruct (charAt source p) as [c|] eqn:Hc.
  2:{ inversion H; subst. now left. }
  destruct (Ascii.eqb c LT) eqn:E.
  { inversion H; subst. apply Ascii.eqb_eq in E. subst c. now right. }
  destruct (_ && _); [eapply IH; eauto|].
  destruct (_ && _); eapply IH; eauto.
Qed.

End TokenizerAcceptance.

Lemma spelled_head (ps : list Piece) (b : jsString) :
  Forall okPiece ps -> flat_map spell ps = LT :: b ->
  exists closing n ps',
    isValidTag n = true /\ Forall okPiece ps' /\
    LT :: b = spell (PTag closing n) ++ flat_map spell ps'.
Proof.
  induction 1 as [|p ps Hp Hps IH]; cbn [flat_map]; [discriminate|].
  destruct p as [closing n|text]; cbn [okPiece] in Hp.
  - intros <-. exists closing, n, ps. auto.
  - destruct text as [|x text]; cbn [spell app].
    + exact IH.
    + intros [= -> _]. exfalso. apply Hp. now left.
Qed.

Lemma spelled_suffix (ps : list Piece) :
  forall a b,
    Forall okPiece ps -> ~ In LT a -> flat_map spell ps = a ++ LT :: b ->
    exists ps', Forall okPiece ps' /\ LT :: b = flat_map spell ps'.
Proof.
  induction ps as [|p ps IH]; intros a b Hall Ha Hs; cbn [flat_map] in Hs.
  { destruct a; discriminate. }
  inversion Hall as [|? ? Hp Hps]; subst.
  destruct p as [closing n|text].
  - destruct a as [|x a].
    + exists (PTag closing n :: ps). split; [exact Hall|]. cbn [app] in Hs.
      now rewrite <- Hs.
    + exfalso. apply Ha. left.
      destruct closing; cbn [spell app] in Hs; now injection Hs as <- _.
  - cbn [spell okPiece] in *. clear Hall. revert a Ha Hs.
    induction text as [|x text IHt]; intros a Ha Hs; cbn [app] in Hs.
    + now apply (IH a b).
    + destruct a as [|y a]; cbn [app] in Hs.
      * injection Hs as -> _. exfalso. apply Hp. now left.
      * injection Hs as _ Hs. apply (IHt (fun Hin => Hp (or_intror Hin)) a).
        -- intros Hin. apply Ha. now right.
        -- exact Hs.
Qed.

Lemma tokenizeLoop_complete (source : jsString) (fuel : nat) :
  forall st ps,
    length source - position st < fuel -> position st <= length source ->
    Forall okPiece ps -> skipn (position st) source = flat_map spell ps ->
    exists st', tokenizeLoop source fuel st = Ok st'.
Proof.
  induction fuel as [|fuel IH]; intros st ps Hf Hp Hall Hs; [lia|].
  cbn [tokenizeLoop]. destruct (position st <? length source) eqn:Hlt; [|eauto].
  apply Nat.ltb_lt in Hlt.
  pose proof (@tokenizeNext_full source st Hlt) as Hn.
  pose proof (@tokenizeNext_spec source st Hlt) as Hspec.
  unfold tokenizeNext in *.
  destruct (charAt source (position st)) as [c|] eqn:Hc;
    [|apply charAt_none in Hc; lia].
  destruct (Ascii.eqb c LT) eqn:E.
  - apply Ascii.eqb_eq in E. subst c.
    rewrite (skipn_charAt _ _ Hc) in Hs. symmetry in Hs.
    destruct (spelled_head Hall Hs) as (closing & n & ps' & Hv & Hall' & Hsp).
    assert (Hs' : skipn (position st) source
                  = spell (PTag closing n) ++ flat_map spell ps').
    { rewrite (skipn_charAt _ _ Hc). exact Hsp. }
    destruct (@tokenizeTag_complete source st closing n _ Hs' Hv) as (st1 & Ht & Hrest).
    rewrite Ht in *. cbn [bind].
    destruct Hspec as (t & _ & Hw & Hst & Hen). destruct Hw as (_ & Hse & Hel & _).
    apply (IH st1 ps'); auto; lia.
  - pose proof (@tokenizeText_full source st (S (length source))) as Hfull.
    destruct (tokenizeText source (S (length source)) st) as [st1|e|] eqn:Ht;
      [|contradiction|contradiction].
    cbn [bind].
    destruct Hspec as (t & _ & Hw & Hst & Hen). destruct Hw as (_ & Hse & Hel & _).
    destruct Hn as (t' & _ & Hfaith & _ & Hst' & Hen').
    unfold tokenizeText in Ht.
    destruct (readText source (S (length source)) (position st) [])
      as [[p' content]|e|] eqn:Hr; cbn [bind] in Ht; try discriminate.
    injection Ht as <-. cbn [position] in *.
    pose proof (@readText_segment source _ _ _ _ _ Hr) as (Hle & _ & Hno).
    destruct (@readText_stops source _ _ _ _ _ Hr) as [Hend|Hlt'].
    + apply charAt_none in Hend. apply (IH _ []); cbn [position]; try lia; auto.
      cbn. apply skipn_all2. lia.
    + assert (Hsplit : skipn (position st) source
                       = slice source (position st) p' ++ skipn p' source).
      { unfold slice. rewrite <- (firstn_skipn (p' - position st)
                                   (skipn (position st) source)) at 1.
        f_equal. rewrite skipn_skipn. f_equal. lia. }
      rewrite (skipn_charAt _ _ Hlt') in Hsplit. rewrite Hs in Hsplit.
      destruct (spelled_suffix _ _ Hall Hno Hsplit) as (ps' & Hall' & Hsp).
      apply (IH _ ps'); cbn [position]; try lia; auto.
      now rewrite (skipn_charAt _ _ Hlt').
Qed.

(** ** The two tree builders *)

Section PlainParserSteps.

Variable source : jsString.
Variable tokens : list TamlToken.

Lemma parseNodes_stop (f : nat) (nodes : list TamlNode) (ctx : ParseContext) :
  match nth_error tokens (ctxPosition ctx) with
  | None | Some (EofToken _) | Some (CloseTagToken _ _) => True
  | _ => False
  end ->
  parseNodes source tokens (S f) nodes ctx = (Ok nodes, ctx).
Proof.
  intros H. cbn [parseNodes].
  destruct (nth_error tokens (ctxPosition ctx)) as [[]|]; try contradiction; reflexivity.
Qed.

Lemma parseNodes_text (f : nat) (nodes : list TamlNode) (ctx : ParseContext)
    (content : jsString) (t : Token) :
  nth_error tokens (ctxPosition ctx) = Some (TextToken content t) ->
  parseNodes source tokens (S f) nodes ctx =
  parseNodes source tokens f
    (nodes ++ [createText content (tstart t) (tend t)])
    (mkParseContext (ctxPosition ctx + 1) (tagStack ctx)).
Proof.
  intros H. cbn [parseNodes]. rewrite H.
  unfold pbind, parseText. rewrite H. reflexivity.
Qed.

Lemma parseNodes_open (f : nat) (nodes : list TamlNode) (ctx : ParseContext)
    (n : jsString) (t : Token) :
  nth_error tokens (ctxPosition ctx) = Some (OpenTagToken n t) ->
  parseNodes source tokens (S f) nodes ctx =
  let ctx1 := mkParseContext (ctxPosition ctx + 1)
                (tagStack ctx ++ [(n, OpenTagToken n t)]) in
  let unclosed := ParseError (UnclosedTagError n (tstart t) (line t) (column t)
                                (Some source)) in
  match parseNodes source tokens f [] ctx1 with
  | (Ok children, ctx2) =>
      if length tokens <=? ctxPosition ctx2 then (Throw unclosed, ctx2)
      else
        match nth_error tokens (ctxPosition ctx2) with
        | Some (CloseTagToken cn ct) =>
            if negb (jsEqb cn n) then
              (Throw (ParseError (MismatchedTagError n cn (tstart ct) (line ct)
                                    (column ct) (Some source))), ctx2)
            else
              parseNodes source tokens f
                (nodes ++ [createElement n children (tstart t) (tend ct)])
                (mkParseContext (ctxPosition ctx2 + 1) (removelast (tagStack ctx2)))
        | _ => (Throw unclosed, ctx2)
        end
  | (Throw e, ctx2) => (Throw e, ctx2)
  | (OutOfFuel, ctx2) => (OutOfFuel, ctx2)
  end.
Proof.
  intros H. cbn [parseNodes]. rewrite H.
  unfold pbind at 1. unfold parseElement. rewrite H. unfold pbind. cbv zeta.
  destruct (parseNodes source tokens f [] _) as [[children| |] ctx2];
    try reflexivity.
  destruct (length tokens <=? ctxPosition ctx2); [reflexivity|].
  destruct (nth_error tokens (ctxPosition ctx2)) as [[]|]; try reflexivity.
  destruct (negb (jsEqb tagName n)); reflexivity.
Qed.

(** Where the depth-checking loop does not stop on the depth, the plain
    loop does the same. *)
Lemma parseNodesLoop_plain (fuel : nat) :
  forall d m nodes ctx r ctx',
    parseNodesLoop source tokens fuel d m nodes ctx = (r, ctx') ->
    r <> Throw (GenericError (MaxDepthExceeded m)) ->
    parseNodes source tokens fuel nodes ctx = (r, ctx').
Proof.
  induction fuel as [|f IH]; intros d m nodes ctx r ctx' H Hr; [exact H|].
  destruct (nth_error tokens (ctxPosition ctx)) as [tok|] eqn:Hn.
  2:{ rewrite parseNodesLoop_stop in H by now rewrite Hn.
      rewrite parseNodes_stop by now rewrite Hn. exact H. }
  destruct tok as [n t|n t|content t|t].
  - rewrite (@parseNodesLoop_open source tokens f d m nodes ctx n t Hn) in H.
    rewrite (@parseNodes_open f nodes ctx n t Hn). cbv zeta in *.
    destruct (m <? d + 1).
    { injection H as <- <-. congruence. }
    destruct (parseNodesLoop source tokens f (d + 1) m [] _) as [r1 ctx2] eqn:E1.
    destruct r1 as [children|e|].
    + rewrite (IH _ _ _ _ _ _ E1) by discriminate.
      destruct (length tokens <=? ctxPosition ctx2); [exact H|].
      destruct (nth_error tokens (ctxPosition ctx2)) as [[n2 t2|n2 t2|c2 t2|t2]|];
        try exact H.
      destruct (negb (jsEqb n2 n)); [exact H|].
      eapply IH; eauto.
    + injection H as <- <-. rewrite (IH _ _ _ _ _ _ E1) by exact Hr. reflexivity.
    + rewrite (IH _ _ _ _ _ _ E1) by discriminate. exact H.
  - rewrite parseNodesLoop_stop in H by now rewrite Hn.
    rewrite parseNodes_stop by now rewrite Hn. exact H.
  - rewrite (@parseNodesLoop_text source tokens f d m nodes ctx content t Hn) in H.
    rewrite (@parseNodes_text f nodes ctx content t Hn). eapply IH; eauto.
  - rewrite parseNodesLoop_stop in H by now rewrite Hn.
    rewrite parseNodes_stop by now rewrite Hn. exact H.
Qed.

(** Raising [maxDepth] keeps every outcome that is not the depth error. *)
Lemma parseNodesLoop_deeper (fuel : nat) :
  forall d m m' nodes ctx r ctx', m <= m' ->
    parseNodesLoop source tokens fuel d m nodes ctx = (r, ctx') ->
    r <> Throw (GenericError (MaxDepthExceeded m)) ->
    parseNodesLoop source tokens fuel d m' nodes ctx = (r, ctx').
Proof.
  induction fuel as [|f IH]; intros d m m' nodes ctx r ctx' Hm H Hr; [exact H|].
  destruct (nth_error tokens (ctxPosition ctx)) as [tok|] eqn:Hn.
  2:{ rewrite parseNodesLoop_stop in H |- * by now rewrite Hn. exact H. }
  destruct tok as [n t|n t|content t|t].
  - rewrite (@parseNodesLoop_open source tokens f d m nodes ctx n t Hn) in H.
    rewrite (@parseNodesLoop_open source tokens f d m' nodes ctx n t Hn). cbv zeta in *.
    destruct (m <? d + 1) eqn:E.
    { injection H as <- <-. congruence. }
    apply Nat.ltb_ge in E.
    replace (m' <? d + 1) with false by (symmetry; apply Nat.ltb_ge; lia).
    destruct (parseNodesLoop source tokens f (d + 1) m [] _) as [r1 ctx2] eqn:E1.
    destruct r1 as [children|e|].
    + rewrite (IH _ _ _ _ _ _ _ Hm E1) by discriminate.
      destruct (length tokens <=? ctxPosition ctx2); [exact H|].
      destruct (nth_error tokens (ctxPosition ctx2)) as [[n2 t2|n2 t2|c2 t2|t2]|];
        try exact H.
      destruct (negb (jsEqb n2 n)); [exact H|].
      eapply IH; eauto.
    + injection H as <- <-. rewrite (IH _ _ _ _ _ _ _ Hm E1) by exact Hr. reflexivity.
    + rewrite (IH _ _ _ _ _ _ _ Hm E1) by discriminate. exact H.
  - rewrite parseNodesLoop_stop in H |- * by now rewrite Hn. exact H.
  - rewrite (@parseNodesLoop_text source tokens f d m nodes ctx content t Hn) in H.
    rewrite (@parseNodesLoop_text source tokens f d m' nodes ctx content t Hn).
    eapply IH; eauto.
  - rewrite parseNodesLoop_stop in H |- * by now rewrite Hn. exact H.
Qed.

(** The only plain [Error] of the depth-checking loop is the depth error. *)
Lemma parseNodesLoop_generic (fuel : nat) :
  forall d m nodes ctx g ctx',
    parseNodesLoop source tokens fuel d m nodes ctx = (Throw (GenericError g), ctx') ->
    g = MaxDepthExceeded m.
Proof.
  induction fuel as [|f IH]; intros d m nodes ctx g ctx' H; [discriminate|].
  destruct (nth_error tokens (ctxPosition ctx)) as [tok|] eqn:Hn.
  2:{ rewrite parseNodesLoop_stop in H by now rewrite Hn. discriminate. }
  destruct tok as [n t|n t|content t|t].
  - rewrite (@parseNodesLoop_open source tokens f d m nodes ctx n t Hn) in H.
    cbv zeta in H.
    destruct (m <? d + 1); [now injection H as <-|].
    destruct (parseNodesLoop source tokens f (d + 1) m [] _) as [[children|e|] ctx2] eqn:E1;
      [| |discriminate].
    2:{ injection H as -> ->. eapply IH. exact E1. }
    destruct (length tokens <=? ctxPosition ctx2); [discriminate|].
    destruct (nth_error tokens (ctxPosition ctx2)) as [[n2 t2|n2 t2|c2 t2|t2]|];
      try discriminate.
    destruct (negb (jsEqb n2 n)); [discriminate|].
    eapply IH. exact H.
  - rewrite parseNodesLoop_stop in H by now rewrite Hn. discriminate.
  - rewrite (@parseNodesLoop_text source tokens f d m nodes ctx content t Hn) in H.
    eapply IH. exact H.
  - rewrite parseNodesLoop_stop in H by now rewrite Hn. discriminate.
Qed.

End PlainParserSteps.

Section StructuralErrors.

Variable source : jsString.
Variable tokens : list TamlToken.

(** A positioned error of the loop is an unclosed or a mismatched tag, and
    it carries the source and the place of a tag token. *)
Lemma parseNodesLoop_structural (fuel : nat) :
  forall d m nodes ctx e ctx',
    parseNodesLoop source tokens fuel d m nodes ctx = (Throw (ParseError e), ctx') ->
    exists tok,
      In tok tokens /\ isEofToken tok = false /\ isTextToken tok = false /\
      errPosition e = tstart (base tok) /\
      errLine e = line (base tok) /\ errColumn e = column (base tok) /\
      errSource e = Some source /\
      match e with
      | UnclosedTagError _ _ _ _ _ | MismatchedTagError _ _ _ _ _ _ => True
      | _ => False
      end.
Proof.
  induction fuel as [|f IH]; intros d m nodes ctx e ctx' H; [discriminate|].
  destruct (nth_error tokens (ctxPosition ctx)) as [tok|] eqn:Hn.
  2:{ rewrite parseNodesLoop_stop in H by now rewrite Hn. discriminate. }
  destruct tok as [n t|n t|content t|t].
  - rewrite (@parseNodesLoop_open source tokens f d m nodes ctx n t Hn) in H.
    cbv zeta in H.
    destruct (m <? d + 1); [discriminate|].
    destruct (parseNodesLoop source tokens f (d + 1) m [] _) as [[children|e1|] ctx2] eqn:E1;
      [| |discriminate].
    2:{ injection H as -> ->. eapply IH. exact E1. }
    assert (Hopen : forall r : Result (list TamlNode),
               r = Throw (ParseError (UnclosedTagError n (tstart t) (line t) (column t)
                                        (Some source))) ->
               (r, ctx2) = (Throw (ParseError e), ctx') ->
               exists tok,
                 In tok tokens /\ isEofToken tok = false /\ isTextToken tok = false /\
                 errPosition e = tstart (base tok) /\
                 errLine e = line (base tok) /\ errColumn e = column (base tok) /\
                 errSource e = Some source /\
                 match e with
                 | UnclosedTagError _ _ _ _ _ | MismatchedTagError _ _ _ _ _ _ => True
                 | _ => False
                 end).
    { intros r -> [= <- _]. exists (OpenTagToken n t).
      split; [eapply nth_error_In; exact Hn|]. cbn. tauto. }
    destruct (length tokens <=? ctxPosition ctx2); [eapply Hopen; eauto|].
    destruct (nth_error tokens (ctxPosition ctx2)) as [[n2 t2|n2 t2|c2 t2|t2]|] eqn:Hn2;
      try (eapply Hopen; now eauto).
    destruct (negb (jsEqb n2 n)).
    + injection H as <- _. exists (CloseTagToken n2 t2).
      split; [eapply nth_error_In; exact Hn2|]. cbn. tauto.
    + eapply IH. exact H.
  - rewrite parseNodesLoop_stop in H by now rewrite Hn. discriminate.
  - rewrite (@parseNodesLoop_text source tokens f d m nodes ctx content t Hn) in H.
    eapply IH. exact H.
  - rewrite parseNodesLoop_stop in H by now rewrite Hn. discriminate.
Qed.

Lemma parseTokens_outcome (options : ParseOptions) :
  match fst (parseTokens source tokens options) with
  | Ok _ => True
  | Throw (GenericError g) => g = MaxDepthExceeded (maxDepth options)
  | Throw (ParseError e) =>
      exists tok,
        In tok tokens /\ isEofToken tok = false /\ isTextToken tok = false /\
        errPosition e = tstart (base tok) /\
        errLine e = line (base tok) /\ errColumn e = column (base tok) /\
        errSource e = Some source /\
        match e with
        | UnclosedTagError _ _ _ _ _ | MismatchedTagError _ _ _ _ _ _ => True
        | _ => False
        end
  | OutOfFuel => False
  end.
Proof.
  pose proof (parseTokens_result source tokens options) as Hres.
  unfold parseTokens, pbind, parseNodesWithDepth in *.
  destruct (maxDepth options <? 0) eqn:E0; [apply Nat.ltb_lt in E0; lia|].
  destruct (parseNodesLoop source tokens (S (length tokens)) 0 (maxDepth options) []
              (mkParseContext 0 [])) as [r ctx'] eqn:E.
  destruct r as [children|e1|]; cbn [fst] in *; auto.
  - pose proof E as E'. apply parseNodesLoop_unclosed in E'; [|reflexivity].
    destruct E' as (_ & Hstk & _). cbn [tagStack] in Hstk. rewrite Hstk.
    cbn [stackTop fst]. exact I.
  - destruct e1 as [e|g].
    + eapply parseNodesLoop_structural. exact E.
    + eapply parseNodesLoop_generic. exact E.
Qed.

End StructuralErrors.

(** ** What the tree builder accepts *)

Lemma segment_split {A} (l : list A) (a b c : nat) :
  a <= b -> b <= c ->
  firstn (c - a) (skipn a l) = firstn (b - a) (skipn a l) ++ firstn (c - b) (skipn b l).
Proof.
  intros Hab Hbc. replace (c - a) with ((b - a) + (c - b)) by lia.
  rewrite firstn_plus. f_equal. rewrite skipn_skipn. do 2 f_equal. lia.
Qed.

Lemma segment_cons {A} (l : list A) (a c : nat) (x : A) :
  nth_error l a = Some x -> a < c ->
  firstn (c - a) (skipn a l) = x :: firstn (c - (a + 1)) (skipn (a + 1) l).
Proof.
  intros H Hlt. rewrite (skipn_nth_error _ _ H).
  replace (c - a) with (S (c - (a + 1))) by lia. reflexivity.
Qed.

Section Acceptance.

Variable source : jsString.
Variable tokens : list TamlToken.

Lemma parseNodesLoop_parsable (fuel : nat) :
  forall pos stk d m nodes opened,
    length tokens - pos < fuel -> length opened = d ->
    match parseNodesLoop source tokens fuel d m nodes (mkParseContext pos stk) with
    | (Ok _, ctx') =>
        exists pos',
          ctx' = mkParseContext pos' stk /\ pos <= pos' /\ stopsAt tokens pos' /\
          parsable m opened (skipn pos tokens) = parsable m opened (skipn pos' tokens)
    | (Throw _, _) => parsable m opened (skipn pos tokens) = false
    | (OutOfFuel, _) => False
    end.
Proof.
  induction fuel as [|f IH]; intros pos stk d m nodes opened Hf Hd; [lia|].
  destruct (nth_error tokens pos) as [tok|] eqn:Hn.
  2:{ rewrite parseNodesLoop_stop by (cbn [ctxPosition]; now rewrite Hn).
      exists pos. unfold stopsAt. rewrite Hn. auto. }
  assert (Hlt : pos < length tokens) by (apply nth_error_Some; congruence).
  pose proof (skipn_nth_error _ _ Hn) as Hsk.
  destruct tok as [n t|n t|content t|t].
  - rewrite (@parseNodesLoop_open source tokens f d m nodes _ n t) by exact Hn.
    cbv zeta. cbn [ctxPosition tagStack]. rewrite Hsk. cbn [parsable]. rewrite Hd.
    destruct (m <? d + 1) eqn:Hm.
    { apply Nat.ltb_lt in Hm.
      replace (d <? m) with false by (symmetry; apply Nat.ltb_ge; lia). reflexivity. }
    apply Nat.ltb_ge in Hm.
    replace (d <? m) with true by (symmetry; apply Nat.ltb_lt; lia). cbn [andb].
    pose proof (IH (pos + 1) (stk ++ [(n, OpenTagToken n t)]) (d + 1) m [] (n :: opened))
      as IH1.
    destruct (parseNodesLoop source tokens f (d + 1) m [] _) as [[children|e|] ctx2];
      [|apply IH1; cbn [length]; lia|apply IH1; cbn [length]; lia].
    destruct IH1 as (pos1 & -> & Hle & Hstop & Hpar); [lia|cbn [length]; lia|].
    rewrite Hpar. cbn [ctxPosition tagStack]. unfold stopsAt in Hstop.
    destruct (nth_error tokens pos1) as [tok1|] eqn:Hn1.
    2:{ apply nth_error_None in Hn1.
        replace (length tokens <=? pos1) with true by (symmetry; apply Nat.leb_le; lia).
        now rewrite skipn_all2 by lia. }
    assert (Hlt1 : pos1 < length tokens) by (apply nth_error_Some; congruence).
    replace (length tokens <=? pos1) with false by (symmetry; apply Nat.leb_gt; lia).
    rewrite (skipn_nth_error _ _ Hn1).
    destruct tok1 as [n1 t1|n1 t1|c1 t1|t1]; try contradiction; cbn [parsable];
      [|reflexivity].
    destruct (jsEqb n1 n) eqn:Hname; cbn [negb andb]; [|reflexivity].
    rewrite removelast_last.
    pose proof (IH (pos1 + 1) stk d m
                  (nodes ++ [createElement n children (tstart t) (tend t1)]) opened) as IH2.
    destruct (parseNodesLoop source tokens f d m _ _) as [[nodes'|e|] ctx3];
      [|apply IH2; lia|apply IH2; lia].
    destruct IH2 as (pos2 & -> & Hle2 & Hstop2 & Hpar2); [lia|lia|].
    exists pos2. repeat split; auto. lia.
  - rewrite parseNodesLoop_stop by (cbn [ctxPosition]; now rewrite Hn).
    exists pos. unfold stopsAt. rewrite Hn. auto.
  - rewrite (@parseNodesLoop_text source tokens f d m nodes _ content t) by exact Hn.
    cbn [ctxPosition tagStack]. rewrite Hsk. cbn [parsable].
    pose proof (IH (pos + 1) stk d m
                  (nodes ++ [createText content (tstart t) (tend t)]) opened) as IH2.
    destruct (parseNodesLoop source tokens f d m _ _) as [[nodes'|e|] ctx3];
      [|apply IH2; lia|apply IH2; lia].
    destruct IH2 as (pos2 & -> & Hle2 & Hstop2 & Hpar2); [lia|lia|].
    exists pos2. repeat split; auto. lia.
  - rewrite parseNodesLoop_stop by (cbn [ctxPosition]; now rewrite Hn).
    exists pos. unfold stopsAt. rewrite Hn. auto.
Qed.

Lemma parsable_at_stop (m : nat) (pos : nat) :
  stopsAt tokens pos -> parsable m [] (skipn pos tokens) = true.
Proof.
  unfold stopsAt. intros H. destruct (nth_error tokens pos) as [tok|] eqn:Hn.
  - rewrite (skipn_nth_error _ _ Hn). destruct tok; try contradiction; reflexivity.
  - apply nth_error_None in Hn. now rewrite skipn_all2 by lia.
Qed.

Lemma parseTokens_parsable (options : ParseOptions) :
  match fst (parseTokens source tokens options) with
  | Ok _ => parsable (maxDepth options) [] tokens = true
  | Throw _ => parsable (maxDepth options) [] tokens = false
  | OutOfFuel => False
  end.
Proof.
  unfold parseTokens, pbind, parseNodesWithDepth.
  destruct (maxDepth options <? 0) eqn:E0; [apply Nat.ltb_lt in E0; lia|].
  pose proof (@parseNodesLoop_parsable (S (length tokens)) 0 [] 0 (maxDepth options) [] [])
    as H.
  cbn [skipn] in H.
  destruct (parseNodesLoop source tokens (S (length tokens)) 0 (maxDepth options) []
              (mkParseContext 0 [])) as [[children|e|] ctx']; cbn [fst].
  - destruct H as (pos' & -> & _ & Hstop & Hpar); [lia|reflexivity|].
    cbn [tagStack stackTop fst]. rewrite Hpar. now apply parsable_at_stop.
  - apply H; [lia|reflexivity].
  - apply H; [lia|reflexivity].
Qed.

(** The tree lists the tokens that were read, in order. *)
Lemma parseNodesLoop_events (fuel : nat) :
  forall d m nodes ctx nodes' ctx',
    parseNodesLoop source tokens fuel d m nodes ctx = (Ok nodes', ctx') ->
    ctxPosition ctx <= ctxPosition ctx' /\
    flat_map eventsOfNode nodes' =
    flat_map eventsOfNode nodes ++
    flat_map eventOf (firstn (ctxPosition ctx' - ctxPosition ctx)
                             (skipn (ctxPosition ctx) tokens)).
Proof.
  induction fuel as [|f IH]; intros d m nodes ctx nodes' ctx' H; [discriminate|].
  destruct (nth_error tokens (ctxPosition ctx)) as [tok|] eqn:Hn.
  2:{ rewrite parseNodesLoop_stop in H by now rewrite Hn. injection H as <- <-.
      rewrite Nat.sub_diag. cbn. now rewrite app_nil_r. }
  destruct tok as [n t|n t|content t|t].
  - rewrite (@parseNodesLoop_open source tokens f d m nodes ctx n t Hn) in H.
    cbv zeta in H.
    destruct (m <? d + 1); [discriminate|].
    destruct (parseNodesLoop source tokens f (d + 1) m [] _) as [[children|e|] ctx2] eqn:E1;
      try discriminate.
    apply IH in E1 as (Hle1 & Hev1). cbn [ctxPosition flat_map app] in Hle1, Hev1.
    destruct (length tokens <=? ctxPosition ctx2); [discriminate|].
    destruct (nth_error tokens (ctxPosition ctx2)) as [[n2 t2|n2 t2|c2 t2|t2]|] eqn:Hn2;
      try discriminate.
    destruct (jsEqb n2 n) eqn:Hname; cbn [negb] in H; [|discriminate].
    apply jsEqb_eq in Hname. subst n2.
    apply IH in H as (Hle2 & Hev2). cbn [ctxPosition] in Hle2, Hev2.
    split; [lia|]. rewrite Hev2.
    rewrite flat_map_app. cbn [flat_map eventsOfNode createElement]. rewrite app_nil_r.
    rewrite Hev1, <- app_assoc. f_equal.
    rewrite (@segment_cons _ tokens (ctxPosition ctx) (ctxPosition ctx') _ Hn) by lia.
    cbn [flat_map eventOf app]. f_equal.
    rewrite (@segment_split _ tokens (ctxPosition ctx + 1) (ctxPosition ctx2)
               (ctxPosition ctx')) by lia.
    rewrite flat_map_app, <- app_assoc. f_equal.
    rewrite (@segment_cons _ tokens (ctxPosition ctx2) (ctxPosition ctx') _ Hn2) by lia.
    reflexivity.
  - rewrite parseNodesLoop_stop in H by now rewrite Hn. injection H as <- <-.
    rewrite Nat.sub_diag. cbn. now rewrite app_nil_r.
  - rewrite (@parseNodesLoop_text source tokens f d m nodes ctx content t Hn) in H.
    apply IH in H as (Hle2 & Hev2). cbn [ctxPosition] in Hle2, Hev2.
    split; [lia|]. rewrite Hev2.
    rewrite flat_map_app. cbn [flat_map eventsOfNode createText]. rewrite <- app_assoc.
    f_equal.
    rewrite (@segment_cons _ tokens (ctxPosition ctx) (ctxPosition ctx') _ Hn) by lia.
    reflexivity.
  - rewrite parseNodesLoop_stop in H by now rewrite Hn. injection H as <- <-.
    rewrite Nat.sub_diag. cbn. now rewrite app_nil_r.
Qed.

End Acceptance.

(** ** The spans of the tree *)

Lemma chained_snoc (P : TamlNode -> Prop) (hi mid : nat) (n : TamlNode) :
  forall l lo,
    chained P mid lo l -> mid <= nodeStart n -> P n -> nodeEnd n <= hi ->
    chained P hi lo (l ++ [n]).
Proof.
  induction l as [|c l IH]; intros lo H Hm Hp Hn; cbn [app chained] in *.
  - repeat split; auto. lia.
  - destruct H as (H1 & H2 & H3). repeat split; auto.
Qed.

Lemma chained_weaken (P : TamlNode -> Prop) (hi hi' lo lo' : nat) (l : list TamlNode) :
  chained P hi lo l -> lo' <= lo -> hi <= hi' -> chained P hi' lo' l.
Proof.
  revert lo lo'; induction l as [|c l IH]; intros lo lo' H Hlo Hhi; cbn [chained] in *.
  - lia.
  - destruct H as (H1 & H2 & H3). repeat split; auto; [lia|].
    eapply IH; eauto.
Qed.

Lemma chained_le (P : TamlNode -> Prop) (hi : nat) (l : list TamlNode) :
  Forall (fun c => P c -> nodeStart c <= nodeEnd c) l ->
  forall lo, chained P hi lo l -> lo <= hi.
Proof.
  induction 1 as [|c l Hc _ IH]; intros lo H; cbn [chained] in H; [exact H|].
  destruct H as (H1 & H2 & H3). specialize (IH _ H3). specialize (Hc H2). lia.
Qed.

Lemma wellSpanned_le (n : TamlNode) : wellSpanned n -> nodeStart n <= nodeEnd n.
Proof.
  induction n as [children s e IH|tagName children s e IH|content s e] using TamlNode_ind;
    cbn [wellSpanned nodeStart nodeEnd].
  - intros H. eapply chained_le; eauto.
  - intros [H _]. lia.
  - lia.
Qed.

Section Spans.

Variable source : jsString.
Variable tokens : list TamlToken.

Hypothesis Hnext :
  forall k t, nth_error tokens k = Some t ->
              tend (base t) = boundary source tokens (k + 1).
Hypothesis Hpos :
  forall k t, nth_error tokens k = Some t -> isEofToken t = false ->
              tstart (base t) < tend (base t).

Lemma parseNodesLoop_spans (fuel : nat) :
  forall d m nodes ctx nodes' ctx' lo,
    parseNodesLoop source tokens fuel d m nodes ctx = (Ok nodes', ctx') ->
    chained wellSpanned (boundary source tokens (ctxPosition ctx)) lo nodes ->
    chained wellSpanned (boundary source tokens (ctxPosition ctx')) lo nodes'.
Proof.
  induction fuel as [|f IH]; intros d m nodes ctx nodes' ctx' lo H Hch; [discriminate|].
  destruct (nth_error tokens (ctxPosition ctx)) as [tok|] eqn:Hn.
  2:{ rewrite parseNodesLoop_stop in H by now rewrite Hn. now injection H as <- <-. }
  assert (Hb : boundary source tokens (ctxPosition ctx) = tstart (base tok))
    by (unfold boundary; now rewrite Hn).
  destruct tok as [n t|n t|content t|t].
  - rewrite (@parseNodesLoop_open source tokens f d m nodes ctx n t Hn) in H.
    cbv zeta in H.
    destruct (m <? d + 1); [discriminate|].
    destruct (parseNodesLoop source tokens f (d + 1) m [] _) as [[children|e|] ctx2] eqn:E1;
      try discriminate.
    apply (IH _ _ _ _ _ _ (boundary source tokens (ctxPosition ctx + 1))) in E1;
      [|cbn [ctxPosition chained]; lia].
    destruct (length tokens <=? ctxPosition ctx2); [discriminate|].
    destruct (nth_error tokens (ctxPosition ctx2)) as [[n2 t2|n2 t2|c2 t2|t2]|] eqn:Hn2;
      try discriminate.
    destruct (negb (jsEqb n2 n)); [discriminate|].
    pose proof (Hnext _ Hn) as Hnx. pose proof (Hnext _ Hn2) as Hnx2.
    pose proof (Hpos _ Hn eq_refl) as Hp. pose proof (Hpos _ Hn2 eq_refl) as Hp2.
    cbn [base] in *.
    assert (Hb2 : boundary source tokens (ctxPosition ctx2) = tstart t2)
      by (unfold boundary; now rewrite Hn2).
    assert (Hle : boundary source tokens (ctxPosition ctx + 1)
                  <= boundary source tokens (ctxPosition ctx2)).
    { eapply chained_le; [|exact E1]. apply Forall_forall. intros c _.
      apply wellSpanned_le. }
    eapply IH; [exact H|]. cbn [ctxPosition].
    eapply chained_snoc; [exact Hch| | |].
    + cbn [createElement nodeStart]. lia.
    + cbn [createElement wellSpanned]. split; [lia|].
      eapply chained_weaken; [exact E1|lia|lia].
    + cbn [createElement nodeEnd]. lia.
  - rewrite parseNodesLoop_stop in H by now rewrite Hn. now injection H as <- <-.
  - rewrite (@parseNodesLoop_text source tokens f d m nodes ctx content t Hn) in H.
    pose proof (Hnext _ Hn) as Hnx. pose proof (Hpos _ Hn eq_refl) as Hp.
    cbn [base] in *.
    eapply IH; [exact H|]. cbn [ctxPosition].
    eapply chained_snoc; [exact Hch| | |].
    + cbn [createText nodeStart]. lia.
    + cbn [createText wellSpanned]. lia.
    + cbn [createText nodeEnd]. lia.
  - rewrite parseNodesLoop_stop in H by now rewrite Hn. now injection H as <- <-.
Qed.

End Spans.

Lemma contiguous_next (toks : list TamlToken) :
  forall from k t t',
    contiguous from toks ->
    nth_error toks k = Some t -> nth_error toks (k + 1) = Some t' ->
    tend (base t) = tstart (base t').
Proof.
  induction toks as [|x toks IH]; intros from k t t' Hc Hk Hk'; [now destruct k|].
  destruct Hc as [_ Hc]. destruct k as [|k].
  - injection Hk as ->. destruct toks as [|y toks]; [discriminate|].
    injection Hk' as ->. now destruct Hc.
  - eapply IH; eauto.
Qed.

(** The tokens of a source meet at the boundaries. *)
Lemma tokenize_boundaries (source : jsString) (toks : list TamlToken) :
  tokenize source = Ok toks ->
  (forall k t, nth_error toks k = Some t ->
               tend (base t) = boundary source toks (k + 1)) /\
  (forall k t, nth_error toks k = Some t -> isEofToken t = false ->
               tstart (base t) < tend (base t)) /\
  boundary source toks 0 = 0 /\
  (forall k, boundary source toks k <= length source).
Proof.
  intros H. pose proof (tokenize_spec source) as Hspec.
  pose proof (tokenize_full source) as Hfull. rewrite H in Hspec, Hfull.
  destruct Hspec as (body & -> & Hbody). destruct Hfull as (_ & Hcont & _).
  rewrite Forall_forall in Hbody.
  set (eofTok := EofToken _) in *.
  assert (Hin : forall k t, nth_error (body ++ [eofTok]) k = Some t ->
                  (wellPlaced source t /\ k < length body) \/
                  (t = eofTok /\ k = length body)).
  { intros k t Hk. destruct (Nat.lt_ge_cases k (length body)) as [Hlt|Hge].
    - rewrite nth_error_app1 in Hk by exact Hlt. left. split; auto.
      apply Hbody. eapply nth_error_In. exact Hk.
    - rewrite nth_error_app2 in Hk by exact Hge.
      destruct (k - length body) as [|j] eqn:Ej; cbn in Hk.
      + injection Hk as <-. right. split; auto. lia.
      + now destruct j. }
  repeat split.
  - intros k t Hk. unfold boundary.
    destruct (nth_error (body ++ [eofTok]) (k + 1)) as [t'|] eqn:Hk'.
    + eapply contiguous_next; eauto.
    + apply nth_error_None in Hk'. rewrite length_app in Hk'. cbn [length] in Hk'.
      destruct (Hin _ _ Hk) as [[_ Hlt]|[-> _]]; [lia|reflexivity].
  - intros k t Hk Hne. destruct (Hin _ _ Hk) as [[Hw _]|[-> _]]; [|discriminate].
    now destruct Hw as (_ & Hlt & _).
  - unfold boundary. destruct body as [|x body]; cbn in *;
      destruct Hcont as [Hc _]; lia.
  - intros k. unfold boundary.
    destruct (nth_error (body ++ [eofTok]) k) as [t|] eqn:Hk; [|lia].
    destruct (Hin _ _ Hk) as [[Hw _]|[-> _]]; [|cbn; lia].
    destruct Hw as (_ & Hlt & Hle & _). lia.
Qed.

(** ** The validators *)

Lemma jsEqb_sym (a b : jsString) : jsEqb a b = jsEqb b a.
Proof.
  destruct (jsEqb a b) eqn:E.
  - apply jsEqb_eq in E. subst. now rewrite jsEqb_refl.
  - destruct (jsEqb b a) eqn:E'; auto. apply jsEqb_eq in E'. subst.
    now rewrite jsEqb_refl in E.
Qed.

Lemma stackTop_some {A} (s : list A) (x : A) :
  stackTop s = Some x -> s = removelast s ++ [x].
Proof.
  unfold stackTop. destruct s as [|y s]; [discriminate|].
  intros H. assert (E : last (y :: s) y = x) by congruence.
  rewrite <- E. apply app_removelast_last. discriminate.
Qed.

Lemma stackTop_none {A} (s : list A) : stackTop s = None -> s = [].
Proof. unfold stackTop. now destruct s. Qed.

Lemma app_not_self {A} (l : list A) (x : A) (more : list A) : l ++ x :: more <> l.
Proof.
  intros H. apply (f_equal (@length A)) in H. rewrite length_app in H.
  cbn [length] in H. lia.
Qed.

Section ValidatorFacts.

Variable source : jsString.

Lemma validateTokenSequence_grows (rest : list TamlToken) :
  forall ctx, exists more,
    vErrors (validateTokenSequence source rest ctx) = vErrors ctx ++ more.
Proof.
  induction rest as [|t rest IH]; intros ctx; cbn [validateTokenSequence].
  - exists []. now rewrite app_nil_r.
  - destruct t as [n b|n b|c b|b].
    + destruct (IH (validateOpenTag source ctx (OpenTagToken n b))) as (more & ->).
      unfold validateOpenTag. destruct (negb (isValidTag n)); cbn [vErrors].
      * rewrite <- app_assoc. eauto.
      * eauto.
    + destruct (IH (validateCloseTag source ctx (CloseTagToken n b))) as (more & ->).
      unfold validateCloseTag. destruct (negb (isValidTag n)); cbn [vErrors].
      * rewrite <- app_assoc. eauto.
      * destruct (stackTop (vTagStack ctx)) as [[lastName tk]|]; cbn [vErrors].
        -- destruct (negb (jsEqb lastName n)); cbn [vErrors].
           ++ rewrite <- app_assoc. eauto.
           ++ eauto.
        -- rewrite <- app_assoc. eauto.
    + destruct (IH (mkValidationContext (vPosition ctx + 1) (vTagStack ctx) (vErrors ctx)))
        as (more & ->). cbn [vErrors]. eauto.
    + exists []. now rewrite app_nil_r.
Qed.

Lemma validateTokenSequence_wellNested (body : list TamlToken) (eof : Token) :
  Forall properToken body ->
  forall ctx,
    let ctx' := validateTokenSequence source (body ++ [EofToken eof]) ctx in
    (vErrors ctx' = vErrors ctx /\ vTagStack ctx' = []) <->
    wellNested (rev (map fst (vTagStack ctx))) (body ++ [EofToken eof]) = true.
Proof.
  induction 1 as [|t body Ht _ IH]; intros ctx; cbv zeta.
  - cbn [app validateTokenSequence wellNested].
    destruct (vTagStack ctx) as [|e st]; cbn [map rev].
    + tauto.
    + split; [intros [_ H]; discriminate|].
      destruct (rev (map fst st) ++ [fst e]) eqn:E; [|discriminate].
      now destruct (rev (map fst st)).
  - cbn [app validateTokenSequence].
    destruct t as [n b|n b|c b|b]; cbn [properToken] in Ht; [| | |contradiction].
    + unfold validateOpenTag. rewrite Ht. cbn [negb wellNested].
      pose proof (IH (mkValidationContext (vPosition ctx + 1)
                        (vTagStack ctx ++ [(n, OpenTagToken n b)]) (vErrors ctx))) as IH1.
      cbv zeta in IH1. cbn [vErrors vTagStack] in IH1.
      rewrite map_app, rev_app_distr in IH1. exact IH1.
    + unfold validateCloseTag. rewrite Ht. cbn [negb wellNested].
      destruct (stackTop (vTagStack ctx)) as [[lastName tk]|] eqn:Etop.
      * apply stackTop_some in Etop.
        assert (Hrev : rev (map fst (vTagStack ctx))
                       = lastName :: rev (map fst (removelast (vTagStack ctx)))).
        { rewrite Etop at 1. now rewrite map_app, rev_app_distr. }
        rewrite Hrev. rewrite (jsEqb_sym n lastName).
        destruct (jsEqb lastName n); cbn [negb andb].
        -- pose proof (IH (mkValidationContext (vPosition ctx + 1)
                             (removelast (vTagStack ctx)) (vErrors ctx))) as IH1.
           cbv zeta in IH1. cbn [vErrors vTagStack] in IH1. exact IH1.
        -- split; [|discriminate]. intros [He _]. exfalso.
           match type of He with
             vErrors (validateTokenSequence _ _ ?c) = _ =>
               destruct (validateTokenSequence_grows (body ++ [EofToken eof]) c)
                 as (more & Hm)
           end.
           rewrite Hm in He. cbn [vErrors] in He. rewrite <- app_assoc in He.
           exact (@app_not_self _ _ _ _ He).
      * apply stackTop_none in Etop. rewrite Etop. cbn [map rev].
        split; [|discriminate]. intros [He _]. exfalso.
        match type of He with
          vErrors (validateTokenSequence _ _ ?c) = _ =>
            destruct (validateTokenSequence_grows (body ++ [EofToken eof]) c)
              as (more & Hm)
        end.
        rewrite Hm in He. cbn [vErrors] in He. rewrite <- app_assoc in He.
        exact (@app_not_self _ _ _ _ He).
    + cbn [wellNested].
      pose proof (IH (mkValidationContext (vPosition ctx + 1) (vTagStack ctx)
                        (vErrors ctx))) as IH1.
      cbv zeta in IH1. cbn [vErrors vTagStack] in IH1. exact IH1.
Qed.

Lemma validateTokens_wellNested (body : list TamlToken) (eof : Token) :
  Forall properToken body ->
  valid (validateTokens source (body ++ [EofToken eof])) = true <->
  wellNested [] (body ++ [EofToken eof]) = true.
Proof.
  intros Hbody. unfold validateTokens. cbn [vPosition skipn valid].
  pose proof (validateTokenSequence_wellNested eof Hbody (mkValidationContext 0 [] [])) as H.
  cbv zeta in H. cbn [vErrors vTagStack map rev] in H. rewrite <- H.
  set (ctx1 := validateTokenSequence source (body ++ [EofToken eof])
                 (mkValidationContext 0 [] [])).
  destruct (stackTop (vTagStack ctx1)) as [[name tk]|] eqn:Etop.
  - cbn [vErrors]. rewrite length_app. cbn [length].
    replace (length (vErrors ctx1) + 1 =? 0) with false
      by (symmetry; apply Nat.eqb_neq; lia).
    split; [discriminate|]. intros [_ Hs]. rewrite Hs in Etop. discriminate.
  - apply stackTop_none in Etop. rewrite Etop. split.
    + intros Hv. apply Nat.eqb_eq in Hv. split; auto.
      now destruct (vErrors ctx1).
    + intros [-> _]. reflexivity.
Qed.

End ValidatorFacts.

Lemma tokenize_proper (source : jsString) (toks : list TamlToken) :
  tokenize source = Ok toks ->
  exists body eof, toks = body ++ [EofToken eof] /\ Forall properToken body.
Proof.
  intros H. pose proof (tokenize_spec source) as Hspec.
  pose proof (tokenize_full source) as Hfull. rewrite H in Hspec, Hfull.
  destruct Hspec as (body & -> & Hbody). destruct Hfull as (Hf & _).
  eexists body, _. split; [reflexivity|].
  apply Forall_app in Hf as [Hf _].
  rewrite Forall_forall in *. intros t Hin.
  specialize (Hbody _ Hin). specialize (Hf _ Hin).
  destruct Hbody as (Hne & _). destruct Hf as (_ & Hf).
  destruct t; cbn [properToken]; try tauto. discriminate.
Qed.

Lemma isValidTag_nonempty (n : jsString) : isValidTag n = true -> n <> [].
Proof. intros H ->. discriminate. Qed.

Lemma map_fst_removelast {A B} (l : list (A * B)) :
  map fst (removelast l) = removelast (map fst l).
Proof.
  induction l as [|x l IH]; [reflexivity|].
  destruct l as [|y l]; [reflexivity|].
  cbn [removelast map] in *. now rewrite IH.
Qed.

Lemma stackTop_map_fst {A B} (l : list (A * B)) :
  stackTop (map fst l) = option_map fst (stackTop l).
Proof.
  assert (H : forall (l : list (A * B)) d, last (map fst l) (fst d) = fst (last l d)).
  { induction l0 as [|y l0 IH]; intros d; [reflexivity|].
    destruct l0 as [|z l0]; [reflexivity|].
    change (last (map fst (z :: l0)) (fst d) = fst (last (z :: l0) d)). apply IH. }
  unfold stackTop. destruct l as [|x l]; [reflexivity|].
  cbn [option_map map]. f_equal. apply (H (x :: l) x).
Qed.

Lemma validators_agree_fold (tokens : list TamlToken) :
  forall (mism : list (jsString * jsString)) (stack2 : list (jsString * nat))
         (issues : list ClosureIssue),
    Forall (fun n => n <> []) (map fst stack2) ->
    map snd mism = map issueTagName issues ->
    Forall (fun i => isUnclosedIssue i = false) issues ->
    let r1 := fold_left nestingStep tokens (map fst stack2, mism) in
    let r2 := fold_left closureStep tokens (stack2, issues) in
    map fst (fst r2) = fst r1 /\
    map snd (snd r1) = map issueTagName (snd r2) /\
    Forall (fun i => isUnclosedIssue i = false) (snd r2).
Proof.
  induction tokens as [|t tokens IH]; intros mism stack2 issues Hne Hm Hu;
    cbv zeta; cbn [fold_left]; [auto|].
  destruct t as [n b|n b|c b|b]; cbn [nestingStep closureStep]; try (apply IH; now auto).
  - destruct (isValidTag n) eqn:Ev; [|apply IH; now auto].
    pose proof (IH mism (stack2 ++ [(n, tstart b)]) issues) as IH1.
    rewrite map_app in IH1. cbn [map fst] in IH1. apply IH1; auto.
    apply Forall_app. split; auto.
    constructor; auto. now apply isValidTag_nonempty.
  - destruct (isValidTag n) eqn:Ev; [|apply IH; now auto].
    rewrite (@stackTop_map_fst jsString nat stack2).
    destruct (stackTop stack2) as [[lastName pos]|] eqn:E2; cbn [option_map fst].
    + assert (Hl : lastName <> []).
      { apply stackTop_some in E2. rewrite Forall_forall in Hne. apply Hne.
        rewrite E2, map_app. apply in_or_app. right. now left. }
      replace (jsEqb lastName []) with false
        by (symmetry; destruct (jsEqb lastName []) eqn:E; auto;
            apply jsEqb_eq in E; contradiction).
      cbn [negb andb].
      destruct (jsEqb lastName n).
      * pose proof (IH mism (removelast stack2) issues) as IH1.
        rewrite map_fst_removelast in IH1. apply IH1; auto.
        rewrite Forall_forall in *.
        intros x Hx. apply Hne. now apply in_removelast.
      * apply IH; auto.
        -- rewrite !map_app, Hm. reflexivity.
        -- apply Forall_app. split; auto.
    + apply IH; auto.
      * rewrite !map_app, Hm. reflexivity.
      * apply Forall_app. split; auto.
Qed.

(** ** The tree builder and the validator *)

Lemma stackTop_snoc {A} (l : list A) (x : A) : stackTop (l ++ [x]) = Some x.
Proof.
  unfold stackTop. destruct (l ++ [x]) as [|y r] eqn:E.
  - now destruct l.
  - rewrite <- E. now rewrite last_last.
Qed.

Section Agreement.

Variable source : jsString.
Variable tokens : list TamlToken.

Hypothesis Hvalid : Forall (tokenFaithful source) tokens.

Lemma validateTokenSequence_app (l r : list TamlToken) :
  forall ctx,
    Forall (fun t => isEofToken t = false) l ->
    validateTokenSequence source (l ++ r) ctx
    = validateTokenSequence source r (validateTokenSequence source l ctx).
Proof.
  induction l as [|t l IH]; intros ctx Hl; [reflexivity|].
  inversion Hl as [|? ? Ht Hl']; subst. cbn [app validateTokenSequence].
  destruct t; try discriminate; now apply IH.
Qed.

Lemma scanned_advance (ctx : ParseContext) (tok : TamlToken)
    (stack' : list (jsString * TamlToken)) :
  scanned source tokens ctx ->
  nth_error tokens (ctxPosition ctx) = Some tok ->
  isEofToken tok = false ->
  validateTokenSequence source [tok]
    (mkValidationContext (ctxPosition ctx) (tagStack ctx) [])
  = mkValidationContext (ctxPosition ctx + 1) stack' [] ->
  scanned source tokens (mkParseContext (ctxPosition ctx + 1) stack').
Proof.
  intros [Hs Hne] Hn He Hstep. unfold scanned. cbn [ctxPosition tagStack].
  rewrite (firstn_nth_error _ _ Hn). split.
  - rewrite validateTokenSequence_app by exact Hne. now rewrite Hs.
  - apply Forall_app. split; auto.
Qed.

Lemma tag_valid (k : nat) (tok : TamlToken) :
  nth_error tokens k = Some tok ->
  match tok with
  | OpenTagToken n _ | CloseTagToken n _ => isValidTag n = true
  | _ => True
  end.
Proof.
  intros Hn. apply nth_error_In in Hn. rewrite Forall_forall in Hvalid.
  specialize (Hvalid _ Hn). destruct tok; auto; now destruct Hvalid as (_ & _ & Hv).
Qed.

Lemma parseNodesLoop_scanned (fuel : nat) :
  forall d m nodes ctx r ctx',
    parseNodesLoop source tokens fuel d m nodes ctx = (r, ctx') ->
    scanned source tokens ctx ->
    match r with
    | Ok _ =>
        scanned source tokens ctx' /\ tagStack ctx' = tagStack ctx /\
        stopsAt tokens (ctxPosition ctx')
    | Throw (ParseError e) =>
        scanned source tokens ctx' /\ thrownAt source tokens ctx' e
    | _ => True
    end.
Proof.
  induction fuel as [|f IH]; intros d m nodes ctx r ctx' H Hsc.
  { cbn in H. now injection H as <- <-. }
  destruct (nth_error tokens (ctxPosition ctx)) as [tok|] eqn:Hn.
  2:{ rewrite parseNodesLoop_stop in H by now rewrite Hn.
      injection H as <- <-. unfold stopsAt. now rewrite Hn. }
  pose proof (tag_valid _ Hn) as Hv.
  destruct tok as [n t|n t|content t|t].
  - (* open tag *)
    rewrite (@parseNodesLoop_open source tokens f d m nodes ctx n t Hn) in H.
    cbv zeta in H.
    destruct (m <? d + 1); [now injection H as <- <-|].
    set (ctx1 := mkParseContext (ctxPosition ctx + 1)
                   (tagStack ctx ++ [(n, OpenTagToken n t)])) in *.
    assert (Hsc1 : scanned source tokens ctx1).
    { apply scanned_advance with (tok := OpenTagToken n t); auto.
      cbn [validateTokenSequence]. unfold validateOpenTag. rewrite Hv. reflexivity. }
    destruct (parseNodesLoop source tokens f (d + 1) m [] ctx1) as [r1 ctx2] eqn:E1.
    pose proof (IH _ _ _ _ _ _ E1 Hsc1) as IH1.
    destruct r1 as [children|e|].
    2:{ injection H as <- <-. exact IH1. }
    2:{ now injection H as <- <-. }
    destruct IH1 as (Hsc2 & Hstk2 & Hstop2).
    cbn [tagStack ctx1] in Hstk2.
    assert (Htop : stackTop (tagStack ctx2) = Some (n, OpenTagToken n t)).
    { rewrite Hstk2. apply stackTop_snoc. }
    assert (Hthrow :
              match nth_error tokens (ctxPosition ctx2) with
              | None | Some (EofToken _) => True
              | _ => False
              end ->
              thrownAt source tokens ctx2
                (UnclosedTagError n (tstart t) (line t) (column t) (Some source))).
    { intros Hend. split; [exact Hend|]. exists t. auto. }
    destruct (length tokens <=? ctxPosition ctx2) eqn:Hlen.
    { injection H as <- <-. split; [exact Hsc2|]. apply Hthrow.
      apply Nat.leb_le in Hlen. apply nth_error_None in Hlen. now rewrite Hlen. }
    unfold stopsAt in Hstop2.
    destruct (nth_error tokens (ctxPosition ctx2)) as [[n2 t2|n2 t2|c2 t2|t2]|] eqn:Hn2;
      try contradiction.
    + pose proof (tag_valid _ Hn2) as Hv2. cbv beta iota in Hv2.
      destruct (negb (jsEqb n2 n)) eqn:Hneq.
      * injection H as <- <-. split; [exact Hsc2|].
        exists t2, (OpenTagToken n t). rewrite Hn2, Htop.
        rewrite jsEqb_sym. apply negb_true_iff in Hneq. auto 10.
      * apply IH in H.
        -- rewrite Hstk2, removelast_last in H.
           destruct r as [nodes'|[e|g]|]; cbn [tagStack] in H; try exact I; exact H.
        -- apply scanned_advance with (tok := CloseTagToken n2 t2); auto.
           cbn [validateTokenSequence]. unfold validateCloseTag. rewrite Hv2.
           cbn [negb vTagStack]. rewrite Htop, jsEqb_sym, Hneq. reflexivity.
    + injection H as <- <-. split; [exact Hsc2|]. apply Hthrow. exact I.
    + injection H as <- <-. split; [exact Hsc2|]. apply Hthrow. exact I.
  - (* close tag *)
    rewrite parseNodesLoop_stop in H by now rewrite Hn.
    injection H as <- <-. unfold stopsAt. now rewrite Hn.
  - (* text *)
    rewrite (@parseNodesLoop_text source tokens f d m nodes ctx content t Hn) in H.
    apply IH in H.
    + destruct r as [nodes'|[e|g]|]; cbn [tagStack] in H; try exact I; exact H.
    + apply scanned_advance with (tok := TextToken content t); auto.
  - (* end marker *)
    rewrite parseNodesLoop_stop in H by now rewrite Hn.
    injection H as <- <-. unfold stopsAt. now rewrite Hn.
Qed.

Lemma validateTokens_first_error (ctx : ParseContext) (e : TamlParseError) :
  scanned source tokens ctx -> thrownAt source tokens ctx e ->
  hd_error (errors (validateTokens source tokens)) = Some (ParseError e) /\
  (if isUnclosedError e
   then errors (validateTokens source tokens) = [ParseError e] else True).
Proof.
  intros [Hs Hne] Hat. unfold validateTokens. cbn [vPosition skipn].
  assert (E0 : validateTokenSequence source tokens (mkValidationContext 0 [] [])
               = validateTokenSequence source (skipn (ctxPosition ctx) tokens)
                   (mkValidationContext (ctxPosition ctx) (tagStack ctx) [])).
  { rewrite <- (firstn_skipn (ctxPosition ctx) tokens) at 1.
    rewrite validateTokenSequence_app by exact Hne. now rewrite Hs. }
  rewrite E0. clear E0.
  destruct e; try contradiction; cbn [thrownAt] in Hat.
  - destruct Hat as (Hend & t & Htop & -> & -> & -> & ->).
    assert (E : validateTokenSequence source (skipn (ctxPosition ctx) tokens)
                  (mkValidationContext (ctxPosition ctx) (tagStack ctx) [])
                = mkValidationContext (ctxPosition ctx) (tagStack ctx) []).
    { destruct (nth_error tokens (ctxPosition ctx)) as [tok|] eqn:Hn.
      - rewrite (skipn_nth_error _ _ Hn). destruct tok; try contradiction. reflexivity.
      - apply nth_error_None in Hn. now rewrite skipn_all2 by lia. }
    rewrite E. cbn [vTagStack]. rewrite Htop. cbn [vErrors errors app base hd_error].
    cbn [isUnclosedError]. split; reflexivity.
  - destruct Hat as (t & tokOpen & Hn & Htop & Hneq & -> & -> & -> & ->).
    rewrite (skipn_nth_error _ _ Hn). cbn [validateTokenSequence].
    pose proof (tag_valid _ Hn) as Hv. cbv beta iota in Hv.
    unfold validateCloseTag. rewrite Hv. cbn [negb vTagStack]. rewrite Htop, Hneq.
    cbn [negb vErrors app vPosition].
    match goal with
    | |- context [validateTokenSequence source ?r ?c] =>
        destruct (validateTokenSequence_grows source r c) as (more & Hm);
        set (ctx1 := validateTokenSequence source r c) in *
    end.
    cbn [vErrors app] in Hm. cbn [isUnclosedError]. split; [|exact I].
    destruct (stackTop (vTagStack ctx1)) as [[un ut]|]; cbn [vErrors errors];
      rewrite Hm; reflexivity.
Qed.

End Agreement.

(** ** The line around an offset *)

Lemma splitLines_last (s : jsString) :
  exists pre,
    s = pre ++ last (splitLines s) [] /\
    ~ In NEWLINE (last (splitLines s) []) /\
    (pre = [] \/ exists pre', pre = pre' ++ [NEWLINE]) /\
    length (splitLines s) = S (count_occ ascii_dec pre NEWLINE).
Proof.
  induction s as [|c r IH].
  - exists []. cbn. intuition.
  - destruct IH as (pre & Hs & Hno & Hpre & Hlen).
    pose proof (splitLines_nonempty r) as Hne.
    cbn [splitLines]. destruct (Ascii.eqb c NEWLINE) eqn:E.
    + apply Ascii.eqb_eq in E. subst c. exists (NEWLINE :: pre).
      destruct (splitLines r) as [|f o] eqn:Er; [congruence|].
      change (last ([] :: f :: o) []) with (last (f :: o) (@nil ascii)).
      split; [cbn [app]; now rewrite <- Hs|]. split; [exact Hno|]. split.
      * right. destruct Hpre as [->|(pre' & ->)].
        -- now exists [].
        -- now exists (NEWLINE :: pre').
      * cbn [length]. rewrite count_occ_cons_eq by reflexivity. cbn [length] in Hlen. lia.
    + assert (Hc : c <> NEWLINE).
      { intros ->. now rewrite Ascii.eqb_refl in E. }
      destruct (splitLines r) as [|f o] eqn:Er; [congruence|].
      destruct o as [|f' o].
      * cbn [last length] in *.
        assert (Hp : pre = []).
        { destruct Hpre as [->|(pre' & ->)]; [reflexivity|].
          rewrite count_occ_app in Hlen. cbn in Hlen.
          destruct (ascii_dec NEWLINE NEWLINE); [lia|congruence]. }
        subst pre. exists []. cbn [app] in *. split; [now rewrite <- Hs|].
        split; [|split; [now left|reflexivity]].
        intros [Hin|Hin]; [congruence|contradiction].
      * change (last ((c :: f) :: f' :: o) []) with (last (f' :: o) (@nil ascii)).
        change (last (f :: f' :: o) []) with (last (f' :: o) (@nil ascii)) in Hs, Hno.
        exists (c :: pre). split; [cbn [app]; now rewrite <- Hs|]. split; [exact Hno|].
        split.
        -- right. destruct Hpre as [->|(pre' & ->)].
           ++ cbn in Hlen. lia.
           ++ now exists (c :: pre').
        -- rewrite count_occ_cons_neq by congruence. exact Hlen.
Qed.

Lemma splitLines_hd (s : jsString) :
  exists post,
    s = hd [] (splitLines s) ++ post /\
    ~ In NEWLINE (hd [] (splitLines s)) /\
    (post = [] \/ exists post', post = NEWLINE :: post').
Proof.
  induction s as [|c r IH].
  - exists []. cbn. intuition.
  - destruct IH as (post & Hs & Hno & Hpost).
    pose proof (splitLines_nonempty r) as Hne.
    cbn [splitLines]. destruct (Ascii.eqb c NEWLINE) eqn:E.
    + apply Ascii.eqb_eq in E. subst c. exists (NEWLINE :: r). cbn. intuition eauto.
    + assert (Hc : c <> NEWLINE).
      { intros ->. now rewrite Ascii.eqb_refl in E. }
      destruct (splitLines r) as [|f o] eqn:Er; [congruence|].
      cbn [hd] in *. exists post. split; [cbn [app]; now rewrite <- Hs|].
      split; [|exact Hpost].
      intros [Hin|Hin]; [congruence|contradiction].
Qed.

(** The line and column of an offset select, in [source.split("\\n")], the
    line around that offset, and the column is one more than the number of
    characters of the line before the offset. *)
Lemma calculatePosition_onLine (source : jsString) (p : nat) (c : ascii) :
  charAt source p = Some c -> c <> NEWLINE ->
  exists before after,
    errorLineOf source (pos_line (calculatePosition source p))
    = Some (before ++ c :: after) /\
    pos_column (calculatePosition source p) = S (length before) /\
    onLine source p (pos_line (calculatePosition source p)) before c after.
Proof.
  intros Hc Hnl. unfold calculatePosition. rewrite calculatePositionLoop_lines. cbv zeta.
  pose proof (splitLines_nonempty (firstn p source)) as Hne.
  destruct (splitLines_last (firstn p source)) as (pre & Hpre & Hnb & Hpre' & Hcount).
  destruct (splitLines_hd (c :: skipn (p + 1) source)) as (post & Hpost & Hna & Hpost').
  set (ls := splitLines (firstn p source)) in *.
  assert (Hsplit : source = firstn p source ++ c :: skipn (p + 1) source).
  { rewrite <- (firstn_skipn p source) at 1. f_equal. now apply skipn_charAt. }
  assert (Hhd : exists after, hd [] (splitLines (c :: skipn (p + 1) source)) = c :: after).
  { cbn [splitLines]. destruct (Ascii.eqb c NEWLINE) eqn:E.
    - apply Ascii.eqb_eq in E. contradiction.
    - pose proof (splitLines_nonempty (skipn (p + 1) source)).
      destruct (splitLines (skipn (p + 1) source)); [congruence|]. eexists. reflexivity. }
  destruct Hhd as (after & Hhd). rewrite Hhd in Hpost, Hna.
  exists (last ls []), after. cbn [pos_line pos_column].
  assert (Hlen : 1 <= length ls) by (destruct ls; [congruence|cbn; lia]).
  split; [|split].
  - unfold errorLineOf. replace (1 + length ls - 1) with (S (length ls - 1)) by lia.
    rewrite Hsplit at 1. rewrite splitLines_app. fold ls. rewrite Hhd.
    apply nth_error_removelast_last; [exact []|exact Hne].
  - destruct (length ls =? 1); lia.
  - exists pre, post. split; [|split; [|split; [|split; [|split; [|split]]]]].
    + rewrite Hsplit at 1. rewrite Hpre at 1. rewrite Hpost.
      rewrite <- !app_assoc. reflexivity.
    + pose proof (charAt_lt _ _ Hc) as Hlt.
      apply (f_equal (@length ascii)) in Hpre.
      rewrite length_firstn, length_app in Hpre. lia.
    + lia.
    + exact Hnb.
    + intros Hin. apply Hna. now right.
    + exact Hpre'.
    + exact Hpost'.
Qed.

(** ** The tag an error is about *)

Lemma slice_length (s : jsString) (a b : nat) :
  b <= length s -> length (slice s a b) = b - a.
Proof. intros H. unfold slice. rewrite length_firstn, length_skipn. lia. Qed.

Lemma slice_self (s : jsString) (a b : nat) :
  slice s a (a + length (slice s a b)) = slice s a b.
Proof.
  unfold slice. replace (a + length (firstn (b - a) (skipn a s)) - a)
    with (length (firstn (b - a) (skipn a s))) by lia.
  rewrite <- (firstn_all (firstn (b - a) (skipn a s))) at 2.
  rewrite firstn_firstn. f_equal. rewrite length_firstn. lia.
Qed.

Section TagOfError.

Variable source : jsString.

Lemma readTagName_noGT (fuel : nat) :
  forall p p', readTagName source fuel p = Ok p' ->
               p <= p' /\ ~ In GT (slice source p p').
Proof.
  induction fuel as [|fuel IH]; intros p p' H; [discriminate|].
  cbn [readTagName] in H. destruct (charAt source p) as [c|] eqn:Hc.
  - destruct (Ascii.eqb c GT) eqn:E.
    + injection H as <-. rewrite slice_nil. split; [lia|intros []].
    + apply IH in H as [Hle Hno]. split; [lia|].
      rewrite (@slice_cons source p p' c Hc) by lia. intros [Hin|Hin]; [|contradiction].
      subst c. now rewrite Ascii.eqb_refl in E.
  - injection H as <-. rewrite slice_nil. split; [lia|intros []].
Qed.

Lemma tokenizeTag_tagAt (st : TokenizerState) (e : TamlParseError) :
  charAt source (position st) = Some LT ->
  tokenizeTag source (S (length source)) st = Throw (ParseError e) ->
  errSource e = Some source /\
  mkPosition (errLine e) (errColumn e) = calculatePosition source (position st) /\
  tagAt source (position st) e.
Proof.
  intros Hc. unfold tokenizeTag. rewrite Hc. rewrite Ascii.eqb_refl. cbn [negb].
  pose proof (charAt_lt _ _ Hc) as Hlt.
  set (isClosing := match charAt source (position st + 1) with
                    | Some c1 => Ascii.eqb c1 SLASH
                    | None => false
                    end).
  set (p2 := if isClosing then position st + 1 + 1 else position st + 1).
  assert (Hp2 : position st + 1 <= p2 /\ p2 <= length source /\
                p2 = position st + 1 + (if isClosing then 1 else 0) /\
                slice source (position st) p2
                = LT :: (if isClosing then [SLASH] else [])).
  { unfold p2, isClosing.
    destruct (charAt source (position st + 1)) as [c1|] eqn:Hc1.
    - destruct (Ascii.eqb c1 SLASH) eqn:E.
      + apply Ascii.eqb_eq in E. subst c1. pose proof (charAt_lt _ _ Hc1).
        repeat split; try lia.
        rewrite (@slice_split source (position st) (position st + 1)) by lia.
        now rewrite (slice_one _ _ Hc), (slice_one _ _ Hc1).
      + repeat split; try lia. now rewrite (slice_one _ _ Hc).
    - repeat split; try lia. now rewrite (slice_one _ _ Hc). }
  destruct Hp2 as (Hp2 & Hp2' & Hp2eq & Hopen).
  destruct (@readTagName_spec source (S (length source)) p2)
    as (p3 & Hr & Hle & Hstop); [lia|].
  pose proof (@readTagName_le _ _ _ _ Hr Hp2') as Hle3.
  pose proof (@readTagName_noGT _ _ _ Hr) as [_ Hnogt].
  rewrite Hr. cbn [bind].
  assert (Hmal : forall e',
             Throw (ParseError (MalformedTagError (slice source (position st) (p3 + 1))
                      (position st)
                      (pos_line (calculatePosition source (position st)))
                      (pos_column (calculatePosition source (position st)))
                      (Some source)))
             = @Throw TokenizerState (ParseError e') ->
             errSource e' = Some source /\
             mkPosition (errLine e') (errColumn e')
             = calculatePosition source (position st) /\
             tagAt source (position st) e').
  { intros e' [= <-]. cbn. rewrite position_eta. repeat split; auto.
    symmetry. apply slice_self. }
  assert (Heoi : forall e',
             charAt source p3 <> Some GT ->
             Throw (ParseError (UnexpectedEndOfInputError p3
                      (pos_line (calculatePosition source (position st)))
                      (pos_column (calculatePosition source (position st)))
                      (Some source) (Some (str "parsing tag"))))
             = @Throw TokenizerState (ParseError e') ->
             errSource e' = Some source /\
             mkPosition (errLine e') (errColumn e')
             = calculatePosition source (position st) /\
             tagAt source (position st) e').
  { intros e' Hn [= <-]. cbn. rewrite position_eta.
    destruct Hstop as [Hs|Hs]; [contradiction|]. apply charAt_none in Hs.
    assert (Hp3 : p3 = length source) by lia.
    repeat split; auto.
    rewrite <- slice_to_end, <- Hp3.
    rewrite (@slice_split source (position st) p2 p3) by lia. rewrite Hopen.
    intros Hin. cbn [app] in Hin. destruct Hin as [Hin|Hin]; [discriminate|].
    apply in_app_or in Hin as [Hin|Hin]; [|contradiction].
    destruct isClosing; [|contradiction].
    destruct Hin as [Hin|[]]. discriminate. }
  destruct (jsEqb (slice source p2 p3) []); [apply Hmal|].
  destruct (negb (lettersOnly (slice source p2 p3))); [apply Hmal|].
  destruct (charAt source p3) as [c3|] eqn:Hc3; [|apply Heoi; discriminate].
  destruct (Ascii.eqb c3 GT) eqn:Egt.
  2:{ apply Heoi. intros [= ->]. now rewrite Ascii.eqb_refl in Egt. }
  apply Ascii.eqb_eq in Egt. subst c3.
  destruct (negb (isValidTag (slice source p2 p3))) eqn:Ev; [|destruct isClosing; discriminate].
  apply negb_true_iff in Ev. intros [= <-]. cbn. rewrite position_eta.
  repeat split; auto.
  assert (Hval : slice source (position st) (p3 + 1)
                 = LT :: (if isClosing then [SLASH] else []) ++ slice source p2 p3 ++ [GT]).
  { rewrite (@slice_split source (position st) p2 (p3 + 1)) by lia.
    rewrite (@slice_split source p2 p3 (p3 + 1)) by lia.
    rewrite Hopen, (slice_one _ _ Hc3). reflexivity. }
  rewrite (slice_length source p2 Hle3).
  destruct isClosing; [right|left]; cbn [app] in Hval; rewrite <- Hval; f_equal; lia.
Qed.

Lemma tokenizeLoop_tagAt (fuel : nat) :
  forall st e,
    tokenizeLoop source fuel st = Throw (ParseError e) ->
    exists q,
      charAt source q = Some LT /\ errSource e = Some source /\
      mkPosition (errLine e) (errColumn e) = calculatePosition source q /\
      tagAt source q e.
Proof.
  induction fuel as [|fuel IH]; intros st e H; [discriminate|].
  cbn [tokenizeLoop] in H. destruct (position st <? length source); [|discriminate].
  destruct (tokenizeNext source (S (length source)) st) as [st1|e1|] eqn:Hn;
    cbn [bind] in H; [eauto| |discriminate].
  injection H as ->. unfold tokenizeNext in Hn.
  destruct (charAt source (position st)) as [c|] eqn:Hc; [|discriminate].
  destruct (Ascii.eqb c LT) eqn:E.
  - apply Ascii.eqb_eq in E. subst c. exists (position st).
    destruct (tokenizeTag_tagAt _ Hc Hn) as (H1 & H2 & H3). auto.
  - pose proof (tokenizeText_full source st (S (length source))) as Hf.
    rewrite Hn in Hf. contradiction.
Qed.

End TagOfError.

Lemma tokenize_tag_tokens (source : jsString) (toks : list TamlToken) (t : TamlToken) :
  tokenize source = Ok toks -> In t toks ->
  match t with
  | OpenTagToken n b =>
      charAt source (tstart b) = Some LT /\
      mkPosition (line b) (column b) = calculatePosition source (tstart b) /\
      slice source (tstart b) (tstart b + (length n + 2)) = LT :: n ++ [GT]
  | CloseTagToken n b =>
      charAt source (tstart b) = Some LT /\
      mkPosition (line b) (column b) = calculatePosition source (tstart b) /\
      slice source (tstart b) (tstart b + (length n + 3)) = LT :: SLASH :: n ++ [GT]
  | _ => True
  end.
Proof.
  intros H Hin. pose proof (tokenize_spec source) as Hspec.
  pose proof (tokenize_full source) as Hfull. rewrite H in Hspec, Hfull.
  destruct Hspec as (body & -> & Hbody). destruct Hfull as (Hf & _).
  rewrite Forall_forall in Hf, Hbody. specialize (Hf _ Hin).
  apply in_app_or in Hin as [Hin|[<-|[]]]; [|exact I].
  destruct (Hbody _ Hin) as (_ & Hse & Hel & Hpos & Hlt).
  destruct Hf as (Hv & Hk).
  pose proof (slice_length source (tstart (base t)) Hel) as Hlen. rewrite <- Hv in Hlen.
  destruct t as [n b|n b|c b|b]; cbn [base] in *; auto.
  - destruct Hk as [Hk _]. rewrite Hk in Hlen. cbn [length] in Hlen.
    rewrite length_app in Hlen. cbn [length] in Hlen.
    split; [now apply Hlt|]. split; [exact Hpos|].
    replace (tstart b + (length n + 2)) with (tend b) by lia. now rewrite <- Hv.
  - destruct Hk as [Hk _]. rewrite Hk in Hlen. cbn [length] in Hlen.
    rewrite length_app in Hlen. cbn [length] in Hlen.
    split; [now apply Hlt|]. split; [exact Hpos|].
    replace (tstart b + (length n + 3)) with (tend b) by lia. now rewrite <- Hv.
Qed.

Lemma in_firstn {A} (k : nat) (l : list A) (x : A) : In x (firstn k l) -> In x l.
Proof.
  intros H. rewrite <- (firstn_skipn k l). apply in_or_app. now left.
Qed.

(** Every positioned error of [parseTaml] is about a tag of the source and
    carries the line and column of its ['<']. *)
Lemma parseTaml_tagAt (source : jsString) (options : PartialOptions)
    (e : TamlParseError) :
  parseTaml source options = Throw (ParseError e) ->
  exists q,
    charAt source q = Some LT /\ errSource e = Some source /\
    mkPosition (errLine e) (errColumn e) = calculatePosition source q /\
    tagAt source q e.
Proof.
  unfold parseTaml. cbv zeta. unfold parseWithOptions.
  destruct (tokenize source) as [toks|e0|] eqn:Htok; cbn [bind]; [| |discriminate].
  2:{ intros [= ->]. unfold tokenize, tokenizerRun in Htok.
      destruct (tokenizeLoop source (S (length source)) (mkTokenizerState 0 []))
        as [st|e1|] eqn:Hl; cbn [bind] in Htok; try discriminate.
      injection Htok as ->. now apply tokenizeLoop_tagAt in Hl. }
  pose proof (tokenize_full source) as Hf. rewrite Htok in Hf. destruct Hf as (Hall & _).
  unfold parseTokens, pbind, parseNodesWithDepth.
  destruct (maxDepth (withDefaults options) <? 0) eqn:E0;
    [apply Nat.ltb_lt in E0; lia|].
  destruct (parseNodesLoop source toks (S (length toks)) 0
              (maxDepth (withDefaults options)) [] (mkParseContext 0 []))
    as [r ctx'] eqn:Hl.
  assert (Hsc0 : scanned source toks (mkParseContext 0 [])).
  { split; [reflexivity|constructor]. }
  assert (Hinv0 : stackInv toks (mkParseContext 0 [])) by reflexivity.
  pose proof (@parseNodesLoop_scanned source toks Hall _ _ _ _ _ _ _ Hl Hsc0) as Hsc.
  pose proof (@parseNodesLoop_unclosed source toks _ _ _ _ _ _ _ Hl Hinv0) as Hun.
  destruct r as [children|e1|]; cbn [fst bind].
  - destruct Hsc as (_ & Hstk & _). cbn [tagStack] in Hstk. rewrite Hstk.
    cbn [stackTop fst bind]. destruct (negb _); discriminate.
  - intros [= ->]. destruct Hsc as (_ & Hat).
    destruct e; try contradiction; cbn [thrownAt] in Hat.
    + destruct Hat as (_ & t & Htop & -> & -> & -> & ->).
      destruct Hun as (Hinv & _ & _).
      assert (Hin : In (OpenTagToken tagName t) toks).
      { apply stackTop_some in Htop. unfold stackInv in Hinv.
        apply (@in_firstn _ (ctxPosition ctx')), unclosedOpenTags_in.
        rewrite <- Hinv, Htop, map_app. apply in_or_app. right. now left. }
      pose proof (@tokenize_tag_tokens source toks _ Htok Hin) as (H1 & H2 & H3).
      exists (tstart t). cbn. auto.
    + destruct Hat as (t & tokOpen & Hn & _ & _ & -> & -> & -> & ->).
      pose proof (@tokenize_tag_tokens source toks _ Htok (nth_error_In _ _ Hn)) as (H1 & H2 & H3).
      exists (tstart t). cbn. auto.
  - discriminate.
Qed.

(** * Further properties of the code *)

(** ** Positions and the rendering of errors *)

(** X1: an offset at or beyond the end of the source has the line and column
    of the end of the source. *)
Theorem calculatePosition_beyond_end (source : jsString) (index : nat) :
  length source <= index ->
  calculatePosition source index = calculatePosition source (length source).
Proof. intros H. now apply calculatePositionLoop_clamp. Qed.

Lemma calculatePosition_beyond_end_witness :
  calculatePosition (str "ab" ++ [NEWLINE] ++ str "cd") 100
  = calculatePosition (str "ab" ++ [NEWLINE] ++ str "cd")
      (length (str "ab" ++ [NEWLINE] ++ str "cd")).
Proof.
  apply (@calculatePosition_beyond_end (str "ab" ++ [NEWLINE] ++ str "cd") 100).
  vm_compute. lia.
Defined.

(** X2: the line of an offset is the number of lines of the text before it,
    as [split] on the newline counts them, and its column is one more than
    the length of the last of these lines. *)
Theorem calculatePosition_counts_lines (source : jsString) (index : nat) :
  calculatePosition source index =
  mkPosition (length (splitLines (firstn index source)))
             (S (length (last (splitLines (firstn index source)) []))).
Proof.
  unfold calculatePosition. rewrite calculatePositionLoop_lines. cbv zeta.
  pose proof (splitLines_nonempty (firstn index source)) as Hne.
  destruct (splitLines (firstn index source)) as [|f o]; [congruence|].
  cbn [length]. f_equal; try lia. destruct (S (length o) =? 1); reflexivity.
Qed.

(** X3: inside the source, a later offset has a later position, by line and
    then by column; two different offsets never share a line and column. *)
Theorem calculatePosition_increasing (source : jsString) (p q : nat) :
  p < q -> q <= length source ->
  positionBefore (calculatePosition source p) (calculatePosition source q) /\
  calculatePosition source p <> calculatePosition source q.
Proof.
  intros Hpq Hq.
  pose proof (@calculatePositionLoop_increasing source p q 1 1 Hpq Hq) as H.
  cbv zeta in H. split; [exact H|].
  unfold calculatePosition. intros E. rewrite E in H. lia.
Qed.

Lemma calculatePosition_increasing_witness :
  positionBefore (calculatePosition (str "ab" ++ [NEWLINE] ++ str "cd") 2)
                 (calculatePosition (str "ab" ++ [NEWLINE] ++ str "cd") 3) /\
  calculatePosition (str "ab" ++ [NEWLINE] ++ str "cd") 2
  <> calculatePosition (str "ab" ++ [NEWLINE] ++ str "cd") 3.
Proof.
  apply (@calculatePosition_increasing (str "ab" ++ [NEWLINE] ++ str "cd") 2 3).
  - lia.
  - vm_compute. lia.
Defined.

Lemma getDetailedMessage_shape (e : TamlParseError) (source lineText : jsString)
    (before : nat) :
  errSource e = Some source -> source <> [] ->
  errorLineOf source (errLine e) = Some lineText ->
  errColumn e = S before ->
  getDetailedMessage e =
  errMessage e ++ [NEWLINE; NEWLINE]
  ++ showNat (errLine e) ++ str " | " ++ lineText ++ [NEWLINE]
  ++ spaces (length (showNat (errLine e))) ++ str " | "
  ++ (spaces before ++ [CARET])
  ++ [NEWLINE; NEWLINE]
  ++ str "Position: line " ++ showNat (errLine e) ++ str ", column "
  ++ showNat (errColumn e).
Proof.
  intros Hs Hne Hl Hc. unfold getDetailedMessage. rewrite Hs.
  destruct source as [|x source]; [congruence|].
  rewrite Hl. unfold pointerOf. rewrite Hc.
  replace (S before - 1) with before by lia. reflexivity.
Qed.

(** X4: an error made by [createErrorAtPosition] at an offset of the source
    that holds a character other than the newline has that offset as
    position, and its detailed message shows the line of the source around
    that offset, under its line number, with the caret under the character
    at the offset. *)
Theorem createErrorAtPosition_rendering
    (mk : nat -> nat -> nat -> option jsString -> TamlParseError)
    (source : jsString) (p : nat) (ch : ascii) :
  (forall q l c s, errPosition (mk q l c s) = q /\ errLine (mk q l c s) = l /\
                   errColumn (mk q l c s) = c /\ errSource (mk q l c s) = s) ->
  charAt source p = Some ch -> ch <> NEWLINE ->
  exists before after,
    errPosition (createErrorAtPosition mk source p) = p /\
    onLine source p (errLine (createErrorAtPosition mk source p)) before ch after /\
    errColumn (createErrorAtPosition mk source p) = S (length before) /\
    getDetailedMessage (createErrorAtPosition mk source p) =
    errMessage (createErrorAtPosition mk source p) ++ [NEWLINE; NEWLINE]
    ++ showNat (errLine (createErrorAtPosition mk source p)) ++ str " | "
    ++ (before ++ ch :: after) ++ [NEWLINE]
    ++ spaces (length (showNat (errLine (createErrorAtPosition mk source p))))
    ++ str " | " ++ (spaces (length before) ++ [CARET])
    ++ [NEWLINE; NEWLINE]
    ++ str "Position: line " ++ showNat (errLine (createErrorAtPosition mk source p))
    ++ str ", column " ++ showNat (errColumn (createErrorAtPosition mk source p)).
Proof.
  intros Hmk Hc Hnl. set (e := createErrorAtPosition mk source p).
  destruct (calculatePosition_onLine source p Hc Hnl)
    as (before & after & Hline & Hcol & Hon).
  exists before, after.
  assert (He : errPosition e = p /\
               errLine e = pos_line (calculatePosition source p) /\
               errColumn e = pos_column (calculatePosition source p) /\
               errSource e = Some source).
  { unfold e, createErrorAtPosition. cbv zeta. apply Hmk. }
  destruct He as (Hp & Hl & Hco & Hs).
  split; [exact Hp|]. split; [now rewrite Hl|]. split; [now rewrite Hco|].
  apply getDetailedMessage_shape with (source := source).
  - exact Hs.
  - intros ->. now destruct p.
  - now rewrite Hl.
  - now rewrite Hco.
Qed.

Lemma createErrorAtPosition_rendering_witness :
  exists before after,
    errPosition (InvalidTagError (str "x") 4 2 2
                   (Some (str "ab" ++ [NEWLINE] ++ str "c<x>"))) = 4 /\
    onLine (str "ab" ++ [NEWLINE] ++ str "c<x>") 4 2 before "<"%char after /\
    2 = S (length before) /\
    getDetailedMessage
      (InvalidTagError (str "x") 4 2 2 (Some (str "ab" ++ [NEWLINE] ++ str "c<x>"))) =
    errMessage (InvalidTagError (str "x") 4 2 2
                  (Some (str "ab" ++ [NEWLINE] ++ str "c<x>")))
    ++ [NEWLINE; NEWLINE]
    ++ showNat 2 ++ str " | " ++ (before ++ "<"%char :: after) ++ [NEWLINE]
    ++ spaces (length (showNat 2)) ++ str " | "
    ++ (spaces (length before) ++ [CARET])
    ++ [NEWLINE; NEWLINE]
    ++ str "Position: line " ++ showNat 2 ++ str ", column " ++ showNat 2.
Proof.
  apply (@createErrorAtPosition_rendering (InvalidTagError (str "x"))
           (str "ab" ++ [NEWLINE] ++ str "c<x>") 4 "<"%char).
  - intros q l c s. cbn. auto.
  - reflexivity.
  - discriminate.
Defined.

(** X5: every positioned error thrown by [parseTaml] is about a tag of the
    source, whose ['<'] is at an offset [q]: an unclosed tag is the open
    tag [<name>] at [q], a mismatched tag the close tag [</actual>] at [q],
    an invalid tag [<name>] or [</name>] at [q], a malformed tag has the
    text at [q] as content, and these have [q] as position; an unexpected
    end is a tag at [q] that no ['>'] ends.  The detailed message of the
    error shows the line of the source around [q], under its line number,
    with the caret under that ['<']. *)
Theorem parseTaml_error_rendering (source : jsString) (options : PartialOptions)
    (e : TamlParseError) :
  parseTaml source options = Throw (ParseError e) ->
  exists q before after,
    tagAt source q e /\
    onLine source q (errLine e) before LT after /\
    errColumn e = S (length before) /\
    getDetailedMessage e =
    errMessage e ++ [NEWLINE; NEWLINE]
    ++ showNat (errLine e) ++ str " | " ++ (before ++ LT :: after) ++ [NEWLINE]
    ++ spaces (length (showNat (errLine e))) ++ str " | "
    ++ (spaces (length before) ++ [CARET])
    ++ [NEWLINE; NEWLINE]
    ++ str "Position: line " ++ showNat (errLine e) ++ str ", column "
    ++ showNat (errColumn e).
Proof.
  intros H. apply parseTaml_tagAt in H as (q & Hq & Hs & Hp & Htag).
  assert (Hnl : LT <> NEWLINE) by discriminate.
  destruct (calculatePosition_onLine source q Hq Hnl)
    as (before & after & Hline & Hcol & Hon).
  rewrite <- Hp in Hline, Hcol, Hon. cbn [pos_line pos_column] in Hline, Hcol, Hon.
  exists q, before, after. split; [exact Htag|]. split; [exact Hon|].
  split; [exact Hcol|].
  apply getDetailedMessage_shape with (source := source); auto.
  intros ->. now destruct q.
Qed.

Lemma parseTaml_error_rendering_witness :
  exists q before after,
    tagAt (str "ab" ++ [NEWLINE] ++ str "c<red>x</blue>") q
      (MismatchedTagError (str "red") (str "blue") 10 2 8
         (Some (str "ab" ++ [NEWLINE] ++ str "c<red>x</blue>"))) /\
    onLine (str "ab" ++ [NEWLINE] ++ str "c<red>x</blue>") q 2 before LT after /\
    8 = S (length before) /\
    getDetailedMessage
      (MismatchedTagError (str "red") (str "blue") 10 2 8
         (Some (str "ab" ++ [NEWLINE] ++ str "c<red>x</blue>"))) =
    errMessage (MismatchedTagError (str "red") (str "blue") 10 2 8
                  (Some (str "ab" ++ [NEWLINE] ++ str "c<red>x</blue>")))
    ++ [NEWLINE; NEWLINE]
    ++ showNat 2 ++ str " | " ++ (before ++ LT :: after) ++ [NEWLINE]
    ++ spaces (length (showNat 2)) ++ str " | "
    ++ (spaces (length before) ++ [CARET])
    ++ [NEWLINE; NEWLINE]
    ++ str "Position: line " ++ showNat 2 ++ str ", column " ++ showNat 8.
Proof.
  apply (@parseTaml_error_rendering (str "ab" ++ [NEWLINE] ++ str "c<red>x</blue>")
           noOptions
           (MismatchedTagError (str "red") (str "blue") 10 2 8
              (Some (str "ab" ++ [NEWLINE] ++ str "c<red>x</blue>")))).
  vm_compute. reflexivity.
Defined.

(** ** The tokenizer *)

(** X6: the tokens of a source tile it: the first starts at offset 0, each
    starts where the one before ends, and their values, put end to end,
    are the source. *)
Theorem tokenize_tiles_source (source : jsString) (toks : list TamlToken) :
  tokenize source = Ok toks ->
  contiguous 0 toks /\
  concat (map (fun t => value (base t)) toks) = source.
Proof.
  intros H. pose proof (tokenize_full source) as Hf. rewrite H in Hf.
  destruct Hf as (_ & Hc & Hcat). split; assumption.
Qed.

Lemma tokenize_tiles_source_witness :
  contiguous 0 (tokensOf (str "a<red>b &lt; c</red>")) /\
  concat (map (fun t => value (base t)) (tokensOf (str "a<red>b &lt; c</red>")))
  = str "a<red>b &lt; c</red>".
Proof.
  apply (@tokenize_tiles_source (str "a<red>b &lt; c</red>")
           (tokensOf (str "a<red>b &lt; c</red>"))).
  vm_compute. reflexivity.
Defined.

(** X7: every token of a source spells the slice of the source it spans; a
    tag token is ['<'], ['/'] for a close tag, one of the 37 tag names and
    ['>']; the value of a text token holds no ['<'] and its content is the
    value with the two entities decoded. *)
Theorem tokenize_tokens_faithful (source : jsString) (toks : list TamlToken) :
  tokenize source = Ok toks ->
  Forall (tokenFaithful source) toks.
Proof.
  intros H. pose proof (tokenize_full source) as Hf. rewrite H in Hf.
  now destruct Hf as (Hall & _).
Qed.

Lemma tokenize_tokens_faithful_witness :
  Forall (tokenFaithful (str "a<red>b &lt; c</red>"))
         (tokensOf (str "a<red>b &lt; c</red>")).
Proof.
  apply (@tokenize_tokens_faithful (str "a<red>b &lt; c</red>")
           (tokensOf (str "a<red>b &lt; c</red>"))).
  vm_compute. reflexivity.
Defined.

(** X8: whatever [tokenize] throws is a malformed-tag, an invalid-tag or an
    unexpected-end error that carries the source and the line and column of
    a ['<'] of the source; the first two have the offset of that ['<'], the
    third the length of the source. *)
Theorem tokenize_errors_at_tag (source : jsString) (e : Exn) :
  tokenize source = Throw e -> raisedAtTag source e.
Proof.
  intros H. pose proof (tokenize_full source) as Hf. now rewrite H in Hf.
Qed.

Lemma tokenize_errors_at_tag_witness :
  raisedAtTag (str "ab<red")
    (ParseError (UnexpectedEndOfInputError 6 1 3 (Some (str "ab<red"))
                   (Some (str "parsing tag")))).
Proof.
  apply (@tokenize_errors_at_tag (str "ab<red")).
  vm_compute. reflexivity.
Defined.

Lemma tokenFaithful_piece (source : jsString) (t : TamlToken) :
  tokenFaithful source t ->
  okPiece (pieceOf t) /\ spell (pieceOf t) = value (base t).
Proof.
  intros (_ & H). destruct t as [n b|n b|c b|b]; cbn [pieceOf okPiece spell base] in *.
  - destruct H as [-> Hv]. auto.
  - destruct H as [-> Hv]. auto.
  - destruct H as [Hno _]. auto.
  - rewrite H. split; [intros []|reflexivity].
Qed.

(** X9: [tokenize] returns exactly on the sources made of tags that name
    one of the 37 tags and texts without ['<']: the tokens it returns spell
    such pieces, which make up the source, and every source made of such
    pieces is tokenized. *)
Theorem tokenize_accepts :
  (forall source toks,
     tokenize source = Ok toks ->
     Forall okPiece (map pieceOf toks) /\
     flat_map spell (map pieceOf toks) = source) /\
  (forall ps,
     Forall okPiece ps -> exists toks, tokenize (flat_map spell ps) = Ok toks).
Proof.
  split.
  - intros source toks H. pose proof (tokenize_full source) as Hf. rewrite H in Hf.
    destruct Hf as (Hall & _ & Hcat). split.
    + apply Forall_forall. intros p Hp. apply in_map_iff in Hp as (t & <- & Ht).
      rewrite Forall_forall in Hall. now apply (tokenFaithful_piece (Hall _ Ht)).
    + rewrite <- Hcat. clear Hcat H.
      induction Hall as [|t toks Ht _ IH]; [reflexivity|].
      cbn [map flat_map concat]. rewrite IH.
      now rewrite (proj2 (tokenFaithful_piece Ht)).
  - intros ps Hall. unfold tokenize, tokenizerRun.
    destruct (@tokenizeLoop_complete (flat_map spell ps) (S (length (flat_map spell ps)))
                (mkTokenizerState 0 []) ps) as (st' & ->); cbn [position]; auto; try lia.
    cbn [bind]. eauto.
Qed.

(** ** The tree builders *)

(** X10: [parseWithOptions] behaves as [TamlParser.parse], the builder
    without a depth limit, except when it throws the depth error. *)
Theorem parseWithOptions_agrees_with_parse (source : jsString) (options : ParseOptions) :
  parseWithOptions source options
    <> Throw (GenericError (MaxDepthExceeded (maxDepth options))) ->
  parseWithOptions source options = parse source.
Proof.
  unfold parseWithOptions, parse.
  destruct (tokenize source) as [toks|e|]; cbn [bind]; auto.
  unfold parseTokens, parsePlainTokens, pbind, parseNodesWithDepth.
  destruct (maxDepth options <? 0) eqn:E0; [apply Nat.ltb_lt in E0; lia|].
  destruct (parseNodesLoop source toks (S (length toks)) 0 (maxDepth options) []
              (mkParseContext 0 [])) as [r ctx'] eqn:Hl.
  intros Hne.
  assert (Hr : r <> Throw (GenericError (MaxDepthExceeded (maxDepth options)))).
  { intros ->. apply Hne. reflexivity. }
  rewrite (@parseNodesLoop_plain source toks _ _ _ _ _ _ _ Hl Hr). reflexivity.
Qed.

Lemma parseWithOptions_agrees_with_parse_witness :
  parseWithOptions (str "<red>a</blue>") (mkParseOptions true 3)
  = parse (str "<red>a</blue>").
Proof.
  apply (@parseWithOptions_agrees_with_parse (str "<red>a</blue>") (mkParseOptions true 3)).
  vm_compute. discriminate.
Defined.

(** X11: raising [maxDepth] changes the outcome of [parseWithOptions] only
    where it was the depth error. *)
Theorem parseWithOptions_deeper (source : jsString) (options : ParseOptions) (m' : nat) :
  maxDepth options <= m' ->
  parseWithOptions source options
    <> Throw (GenericError (MaxDepthExceeded (maxDepth options))) ->
  parseWithOptions source (mkParseOptions (includePositions options) m')
  = parseWithOptions source options.
Proof.
  unfold parseWithOptions.
  destruct (tokenize source) as [toks|e|]; cbn [bind]; auto.
  unfold parseTokens, pbind, parseNodesWithDepth. cbn [maxDepth].
  destruct (maxDepth options <? 0) eqn:E0; [apply Nat.ltb_lt in E0; lia|].
  destruct (m' <? 0) eqn:E1; [apply Nat.ltb_lt in E1; lia|].
  destruct (parseNodesLoop source toks (S (length toks)) 0 (maxDepth options) []
              (mkParseContext 0 [])) as [r ctx'] eqn:Hl.
  intros Hm Hne.
  assert (Hr : r <> Throw (GenericError (MaxDepthExceeded (maxDepth options)))).
  { intros ->. apply Hne. reflexivity. }
  rewrite (@parseNodesLoop_deeper source toks _ _ _ _ _ _ _ _ Hm Hl Hr). reflexivity.
Qed.

Lemma parseWithOptions_deeper_witness :
  parseWithOptions (str "<red><bold>a</bold></red>") (mkParseOptions true 7)
  = parseWithOptions (str "<red><bold>a</bold></red>") (mkParseOptions true 2).
Proof.
  apply (@parseWithOptions_deeper (str "<red><bold>a</bold></red>")
           (mkParseOptions true 2) 7).
  - cbn. lia.
  - vm_compute. discriminate.
Defined.

(** X12: what [parseTaml] throws is one of three things: the plain depth
    error, on a source that tokenizes; the error of the tokenizer, of a
    lexical kind; or an unclosed-tag or mismatched-tag error, on a source
    that tokenizes, at the start of one of its tag tokens. *)
Theorem parseTaml_error_taxonomy (source : jsString) (options : PartialOptions) (e : Exn) :
  parseTaml source options = Throw e ->
  match e with
  | GenericError g =>
      g = MaxDepthExceeded (maxDepth (withDefaults options)) /\
      exists toks, tokenize source = Ok toks
  | ParseError pe =>
      if isLexicalError pe then tokenize source = Throw e
      else
        isStructuralError pe = true /\
        exists toks tok,
          tokenize source = Ok toks /\ In tok toks /\
          isEofToken tok = false /\ isTextToken tok = false /\
          errPosition pe = tstart (base tok)
  end.
Proof.
  unfold parseTaml. cbv zeta. unfold parseWithOptions.
  pose proof (tokenize_full source) as Hf.
  destruct (tokenize source) as [toks|e0|]; cbn [bind]; [| |discriminate].
  - pose proof (@parseTokens_outcome source toks (withDefaults options)) as Ho.
    destruct (fst (parseTokens source toks (withDefaults options))) as [ast|e1|];
      cbn [bind]; [destruct (negb _); discriminate| |discriminate].
    intros [= <-]. destruct e1 as [pe|g].
    + destruct Ho as (tok & Hin & He & Ht & Hp & _ & _ & _ & Hk).
      destruct pe; try contradiction; cbn [isLexicalError isStructuralError];
        (split; [reflexivity|]); exists toks, tok; auto.
    + split; [exact Ho|]. now exists toks.
  - intros [= <-]. destruct e0 as [pe|g]; [|contradiction].
    destruct Hf as (q & _ & _ & _ & Hk).
    destruct pe; try contradiction; reflexivity.
Qed.

Lemma parseTaml_error_taxonomy_witness :
  isStructuralError
    (MismatchedTagError (str "red") (str "blue") 6 1 7 (Some (str "<red>a</blue>"))) = true /\
  exists toks tok,
    tokenize (str "<red>a</blue>") = Ok toks /\ In tok toks /\
    isEofToken tok = false /\ isTextToken tok = false /\
    errPosition
      (MismatchedTagError (str "red") (str "blue") 6 1 7 (Some (str "<red>a</blue>")))
    = tstart (base tok).
Proof.
  apply (@parseTaml_error_taxonomy (str "<red>a</blue>") noOptions
           (ParseError (MismatchedTagError (str "red") (str "blue") 6 1 7
                          (Some (str "<red>a</blue>"))))).
  vm_compute. reflexivity.
Defined.

(** X13: [parseWithOptions] returns a document exactly on the sources that
    tokenize into a sequence the tree builder accepts: every open tag has
    room under the depth limit and every close tag names the innermost open
    tag, up to the end marker or the first close tag met with no tag
    open. *)
Theorem parseWithOptions_accepts (source : jsString) (options : ParseOptions) :
  (exists doc, parseWithOptions source options = Ok doc) <->
  (exists toks, tokenize source = Ok toks /\
                parsable (maxDepth options) [] toks = true).
Proof.
  unfold parseWithOptions. pose proof (tokenize_terminates source) as Ht.
  destruct (tokenize source) as [toks|e|]; cbn [bind]; [| |congruence].
  - pose proof (@parseTokens_parsable source toks options) as Hp.
    destruct (fst (parseTokens source toks options)) as [ast|e|].
    + split; [intros _; now exists toks|intros _; now exists ast].
    + split; [intros [doc Hd]; discriminate|].
      intros (toks' & [= <-] & Hq). congruence.
    + contradiction.
  - split; [intros [doc Hd]; discriminate|intros (toks' & Hd & _); discriminate].
Qed.

(** X14: on a source whose tokens are well nested, [parseWithOptions]
    returns a document spanning the source when no more than [maxDepth]
    tags are open at once, and otherwise throws the depth error. *)
Theorem parseWithOptions_depth_limit (source : jsString) (toks : list TamlToken)
    (options : ParseOptions) :
  tokenize source = Ok toks ->
  wellNested [] toks = true ->
  (nestingDepth 0 toks <= maxDepth options ->
   exists children,
     parseWithOptions source options = Ok (DocumentNode children 0 (length source))) /\
  (maxDepth options < nestingDepth 0 toks ->
   parseWithOptions source options
   = Throw (GenericError (MaxDepthExceeded (maxDepth options)))).
Proof.
  intros Htok Hw. destruct options as [ip m]. cbn [maxDepth].
  destruct (@parseTokens_depth source toks ip m Hw) as [Hok Hdeep].
  unfold parseWithOptions. rewrite Htok. cbn [bind]. split; intros Hd.
  - destruct (Hok Hd) as (children & ctx & ->). now exists children.
  - destruct (Hdeep Hd) as (ctx & ->). reflexivity.
Qed.

Lemma parseWithOptions_depth_limit_witness :
  (nestingDepth 0 (tokensOf (nested 3)) <= 2 ->
   exists children,
     parseWithOptions (nested 3) (mkParseOptions true 2)
     = Ok (DocumentNode children 0 (length (nested 3)))) /\
  (2 < nestingDepth 0 (tokensOf (nested 3)) ->
   parseWithOptions (nested 3) (mkParseOptions true 2)
   = Throw (GenericError (MaxDepthExceeded 2))).
Proof.
  apply (@parseWithOptions_depth_limit (nested 3) (tokensOf (nested 3))
           (mkParseOptions true 2)).
  - vm_compute. reflexivity.
  - vm_compute. reflexivity.
Defined.

Lemma events_after_stop (toks : list TamlToken) (pos : nat) :
  stopsAt toks pos -> wellNested [] (skipn pos toks) = true ->
  flat_map eventOf (skipn pos toks) = [].
Proof.
  unfold stopsAt. intros Hs Hw. destruct (nth_error toks pos) as [tok|] eqn:Hn.
  - rewrite (skipn_nth_error _ _ Hn) in *.
    destruct tok; try contradiction; cbn [wellNested] in Hw; [discriminate|].
    destruct (skipn (pos + 1) toks); [reflexivity|discriminate].
  - apply nth_error_None in Hn. now rewrite skipn_all2 by lia.
Qed.

Lemma parseWithOptions_events (source : jsString) (options : ParseOptions)
    (doc : TamlNode) :
  parseWithOptions source options = Ok doc ->
  exists toks k,
    tokenize source = Ok toks /\ stopsAt toks k /\
    eventsOfNode doc = flat_map eventOf (firstn k toks) /\
    (wellNested [] toks = true -> eventsOfNode doc = flat_map eventOf toks).
Proof.
  unfold parseWithOptions.
  destruct (tokenize source) as [toks|e|]; cbn [bind]; [|discriminate|discriminate].
  unfold parseTokens, pbind, parseNodesWithDepth.
  destruct (maxDepth options <? 0) eqn:E0; [apply Nat.ltb_lt in E0; lia|].
  destruct (parseNodesLoop source toks (S (length toks)) 0 (maxDepth options) []
              (mkParseContext 0 [])) as [r ctx'] eqn:Hl.
  destruct r as [children|e|]; cbn [fst]; [|discriminate|discriminate].
  pose proof (@parseNodesLoop_events source toks _ _ _ _ _ _ _ Hl) as (_ & Hev).
  pose proof (@parseNodesLoop_unclosed source toks _ _ _ _ _ _ _ Hl) as Hu.
  cbn [ctxPosition skipn flat_map app] in Hev. rewrite Nat.sub_0_r in Hev.
  destruct Hu as (_ & Hstk & Hstop); [reflexivity|].
  cbn [tagStack] in Hstk. rewrite Hstk. cbn [stackTop fst].
  intros [= <-]. exists toks, (ctxPosition ctx').
  split; [reflexivity|]. split; [exact Hstop|]. split; [exact Hev|].
  intros Hw. cbn [eventsOfNode createDocument]. unfold createDocument.
  cbn [eventsOfNode]. rewrite Hev.
  destruct (@parseNodesLoop_nested source toks (S (length toks)) 0 [] 0
              (maxDepth options) [] [])
    as [(nodes' & pos' & Hr & _ & _ & Hw' & _)|(ctx'' & Hr & _)];
    [lia|lia|exact Hw| |]; rewrite Hl in Hr; [|discriminate].
  injection Hr as _ ->. cbn [ctxPosition] in *.
  rewrite <- (firstn_skipn pos' toks) at 2. rewrite flat_map_app.
  rewrite (events_after_stop _ _ Hstop Hw'). now rewrite app_nil_r.
Qed.

(** X15: the document returned by [parseWithOptions] lists, in order, the
    tokens up to the place where the builder stopped: an element for an
    open tag and its close tag, with the start of the one and the end of
    the other, and a text node for a text token, with its content and
    span.  On well nested tokens these are all the tokens. *)
Theorem parseWithOptions_tree_events (source : jsString) (options : ParseOptions)
    (doc : TamlNode) :
  parseWithOptions source options = Ok doc ->
  exists toks k,
    tokenize source = Ok toks /\ stopsAt toks k /\
    eventsOfNode doc = flat_map eventOf (firstn k toks) /\
    (wellNested [] toks = true -> eventsOfNode doc = flat_map eventOf toks).
Proof. apply parseWithOptions_events. Qed.

Lemma parseWithOptions_tree_events_witness :
  exists toks k,
    tokenize (str "<red>a</red>b") = Ok toks /\ stopsAt toks k /\
    eventsOfNode
      (DocumentNode
         [ElementNode (str "red") [TextNode (str "a") 5 6] 0 12; TextNode (str "b") 12 13]
         0 13)
    = flat_map eventOf (firstn k toks) /\
    (wellNested [] toks = true ->
     eventsOfNode
       (DocumentNode
          [ElementNode (str "red") [TextNode (str "a") 5 6] 0 12; TextNode (str "b") 12 13]
          0 13)
     = flat_map eventOf toks).
Proof.
  apply (@parseWithOptions_tree_events (str "<red>a</red>b") (mkParseOptions true 100)).
  vm_compute. reflexivity.
Defined.

(** X16: in the document returned by [parseWithOptions], which spans the
    whole source, every element and every text has [start < end], and the
    children of a node lie inside it, in order and without overlap. *)
Theorem parseWithOptions_tree_spans (source : jsString) (options : ParseOptions)
    (doc : TamlNode) :
  parseWithOptions source options = Ok doc ->
  wellSpanned doc /\ nodeStart doc = 0 /\ nodeEnd doc = length source.
Proof.
  unfold parseWithOptions.
  destruct (tokenize source) as [toks|e|] eqn:Htok; cbn [bind];
    [|discriminate|discriminate].
  destruct (tokenize_boundaries _ Htok) as (Hnext & Hpos & H0 & Hle).
  unfold parseTokens, pbind, parseNodesWithDepth.
  destruct (maxDepth options <? 0) eqn:E0; [apply Nat.ltb_lt in E0; lia|].
  destruct (parseNodesLoop source toks (S (length toks)) 0 (maxDepth options) []
              (mkParseContext 0 [])) as [r ctx'] eqn:Hl.
  destruct r as [children|e|]; cbn [fst]; [|discriminate|discriminate].
  pose proof (@parseNodesLoop_unclosed source toks _ _ _ _ _ _ _ Hl) as Hu.
  destruct Hu as (_ & Hstk & _); [reflexivity|].
  cbn [tagStack] in Hstk. rewrite Hstk. cbn [stackTop fst].
  intros [= <-]. unfold createDocument. cbn [nodeStart nodeEnd wellSpanned].
  split; [|split; reflexivity].
  assert (Hch : chained wellSpanned (boundary source toks (ctxPosition ctx')) 0 children).
  { apply (@parseNodesLoop_spans source toks Hnext Hpos _ _ _ _ _ _ _ 0 Hl).
    cbn [ctxPosition chained]. lia. }
  eapply chained_weaken; [exact Hch|lia|apply Hle].
Qed.

Lemma parseWithOptions_tree_spans_witness :
  wellSpanned
    (DocumentNode
       [ElementNode (str "red") [TextNode (str "a") 5 6] 0 12; TextNode (str "b") 12 13]
       0 13) /\
  nodeStart
    (DocumentNode
       [ElementNode (str "red") [TextNode (str "a") 5 6] 0 12; TextNode (str "b") 12 13]
       0 13) = 0 /\
  nodeEnd
    (DocumentNode
       [ElementNode (str "red") [TextNode (str "a") 5 6] 0 12; TextNode (str "b") 12 13]
       0 13) = length (str "<red>a</red>b").
Proof.
  apply (@parseWithOptions_tree_spans (str "<red>a</red>b") (mkParseOptions true 100)).
  vm_compute. reflexivity.
Defined.

Lemma tokenize_event_faithful (source : jsString) (toks : list TamlToken) :
  tokenize source = Ok toks ->
  Forall (fun t => Forall (eventFaithful source) (eventOf t)) toks.
Proof.
  intros H. pose proof (tokenize_spec source) as Hspec.
  pose proof (tokenize_full source) as Hfull. rewrite H in Hspec, Hfull.
  destruct Hspec as (body & -> & Hbody). destruct Hfull as (Hf & _).
  apply Forall_app in Hf as [Hf _]. apply Forall_app. split.
  - rewrite Forall_forall in *. intros t Ht.
    destruct (Hbody _ Ht) as (_ & Hse & Hel & _). destruct (Hf _ Ht) as (Hv & Hk).
    pose proof (slice_length source (tstart (base t)) Hel) as Hlen. rewrite <- Hv in Hlen.
    destruct t as [n b|n b|c b|b]; cbn [eventOf base] in *;
      [constructor; [|constructor]..|constructor].
    + destruct Hk as [Hk _]. rewrite Hk in Hlen. cbn [length] in Hlen.
      rewrite length_app in Hlen. cbn [length] in Hlen.
      cbn [eventFaithful].
      replace (tstart b + (length n + 2)) with (tend b) by lia. now rewrite <- Hv.
    + destruct Hk as [Hk _]. rewrite Hk in Hlen. cbn [length] in Hlen.
      rewrite length_app in Hlen. cbn [length] in Hlen.
      cbn [eventFaithful]. split; [lia|].
      replace (tend b - (length n + 3)) with (tstart b) by lia. now rewrite <- Hv.
    + destruct Hk as [Hno Hc]. cbn [eventFaithful]. rewrite <- Hv. auto.
  - repeat constructor.
Qed.

Lemma Forall_firstn_of {A} (P : A -> Prop) (k : nat) (l : list A) :
  Forall P l -> Forall P (firstn k l).
Proof.
  intros H. rewrite <- (firstn_skipn k l) in H. now apply Forall_app in H as [H _].
Qed.

(** X17: the positions in the document returned by [parseWithOptions]
    point at the source: an element starts at the ['<'] of its open tag
    [<name>] and ends just after its close tag [</name>], and the content
    of a text node is the slice of the source it spans, which holds no
    ['<'], with the entities decoded. *)
Theorem parseWithOptions_tree_faithful (source : jsString) (options : ParseOptions)
    (doc : TamlNode) :
  parseWithOptions source options = Ok doc ->
  Forall (eventFaithful source) (eventsOfNode doc).
Proof.
  intros H.
  destruct (parseWithOptions_events _ _ H) as (toks & k & Htok & _ & -> & _).
  apply Forall_flat_map, Forall_firstn_of. now apply tokenize_event_faithful.
Qed.

Lemma parseWithOptions_tree_faithful_witness :
  Forall (eventFaithful (str "<red>a &lt; b</red>"))
    (eventsOfNode
       (DocumentNode [ElementNode (str "red") [TextNode (str "a < b") 5 13] 0 19] 0 19)).
Proof.
  apply (@parseWithOptions_tree_faithful (str "<red>a &lt; b</red>")
           (mkParseOptions true 100)).
  vm_compute. reflexivity.
Defined.

(** ** The validators *)

Lemma validateTamlTokens_wellNested (source : jsString) (toks : list TamlToken) :
  tokenize source = Ok toks ->
  (valid (validateTamlTokens toks source) = true <-> wellNested [] toks = true).
Proof.
  intros H. destruct (tokenize_proper _ H) as (body & eof & -> & Hb).
  unfold validateTamlTokens. now apply validateTokens_wellNested.
Qed.

(** X18: on the tokens of a source, [validateTamlTokens] answers [valid]
    exactly when the tokens are well nested: every close tag closes the
    innermost open tag and no tag is left open. *)
Theorem validateTamlTokens_accepts_well_nested (source : jsString) (toks : list TamlToken) :
  tokenize source = Ok toks ->
  (valid (validateTamlTokens toks source) = true <-> wellNested [] toks = true).
Proof. apply validateTamlTokens_wellNested. Qed.

Lemma validateTamlTokens_accepts_well_nested_witness :
  valid (validateTamlTokens (tokensOf (str "<red>a</red></red>")) (str "<red>a</red></red>"))
  = true <->
  wellNested [] (tokensOf (str "<red>a</red></red>")) = true.
Proof.
  apply (@validateTamlTokens_accepts_well_nested (str "<red>a</red></red>")
           (tokensOf (str "<red>a</red></red>"))).
  vm_compute. reflexivity.
Defined.

(** X19: a source whose tokens the validator accepts, with no more than 100
    tags open at once, is parsed by [parseTaml] with the default options,
    and [validateTaml] answers [valid] with no error. *)
Theorem validateTamlTokens_valid_parses (source : jsString) (toks : list TamlToken) :
  tokenize source = Ok toks ->
  valid (validateTamlTokens toks source) = true ->
  nestingDepth 0 toks <= 100 ->
  (exists children,
     parseTaml source noOptions = Ok (DocumentNode children 0 (length source))) /\
  validateTaml source = Ok (mkValidationResult true []).
Proof.
  intros Htok Hv Hd.
  apply (validateTamlTokens_wellNested _ Htok) in Hv.
  destruct (@parseTokens_depth source toks true 100 Hv) as [Hok _].
  destruct (Hok Hd) as (children & ctx & Hp).
  assert (E : parseTaml source noOptions = Ok (DocumentNode children 0 (length source))).
  { unfold parseTaml. change (withDefaults noOptions) with (mkParseOptions true 100).
    unfold parseWithOptions. rewrite Htok. cbn [bind]. rewrite Hp. reflexivity. }
  split; [now exists children|]. unfold validateTaml. now rewrite E.
Qed.

Lemma validateTamlTokens_valid_parses_witness :
  (exists children,
     parseTaml (str "<red>a</red>") noOptions
     = Ok (DocumentNode children 0 (length (str "<red>a</red>")))) /\
  validateTaml (str "<red>a</red>") = Ok (mkValidationResult true []).
Proof.
  apply (@validateTamlTokens_valid_parses (str "<red>a</red>")
           (tokensOf (str "<red>a</red>"))).
  - vm_compute. reflexivity.
  - vm_compute. reflexivity.
  - vm_compute. lia.
Defined.

Lemma validateTokenSequence_structural (source : jsString) (rest : list TamlToken) :
  forall ctx,
    Forall (tokenFaithful source) rest ->
    Forall (fun e => exists pe, e = ParseError pe /\ isStructuralError pe = true /\
                                errSource pe = Some source) (vErrors ctx) ->
    Forall (fun e => exists pe, e = ParseError pe /\ isStructuralError pe = true /\
                                errSource pe = Some source)
           (vErrors (validateTokenSequence source rest ctx)).
Proof.
  induction rest as [|t rest IH]; intros ctx Hf He; cbn [validateTokenSequence]; auto.
  inversion Hf as [|? ? Ht Hrest]; subst.
  destruct t as [n b|n b|c b|b]; auto.
  - apply IH; auto. destruct Ht as (_ & _ & Hv). unfold validateOpenTag.
    rewrite Hv. cbn [negb vErrors]. exact He.
  - apply IH; auto. destruct Ht as (_ & _ & Hv). unfold validateCloseTag.
    rewrite Hv. cbn [negb].
    destruct (stackTop (vTagStack ctx)) as [[lastName lastTok]|].
    + destruct (negb (jsEqb lastName n)); cbn [vErrors]; auto.
      apply Forall_app. split; auto. constructor; [|constructor].
      eexists. split; [reflexivity|]. split; reflexivity.
    + cbn [vErrors]. apply Forall_app. split; auto. constructor; [|constructor].
      eexists. split; [reflexivity|]. split; reflexivity.
Qed.

(** X20: run on the tokens of a source, [validateTamlTokens] reports only
    mismatched-tag and unclosed-tag errors, each carrying the source: an
    invalid tag never reaches it, the tokenizer throws on it first. *)
Theorem validateTamlTokens_error_kinds (source : jsString) (toks : list TamlToken) :
  tokenize source = Ok toks ->
  Forall (fun e => exists pe, e = ParseError pe /\ isStructuralError pe = true /\
                              errSource pe = Some source)
         (errors (validateTamlTokens toks source)).
Proof.
  intros H. pose proof (tokenize_full source) as Hf. rewrite H in Hf.
  destruct Hf as (Hall & _).
  unfold validateTamlTokens, validateTokens. cbn [vPosition skipn].
  pose proof (@validateTokenSequence_structural source toks
                (mkValidationContext 0 [] []) Hall (Forall_nil _)) as Hs.
  destruct (stackTop (vTagStack (validateTokenSequence source toks
                                   (mkValidationContext 0 [] []))))
    as [[unclosedName unclosedToken]|]; cbn [errors vErrors]; auto.
  apply Forall_app. split; auto. constructor; [|constructor].
  eexists. split; [reflexivity|]. split; reflexivity.
Qed.

Lemma validateTamlTokens_error_kinds_witness :
  Forall (fun e => exists pe, e = ParseError pe /\ isStructuralError pe = true /\
                              errSource pe = Some (str "<red>a</blue>"))
         (errors (validateTamlTokens (tokensOf (str "<red>a</blue>")) (str "<red>a</blue>"))).
Proof.
  apply (@validateTamlTokens_error_kinds (str "<red>a</blue>")
           (tokensOf (str "<red>a</blue>"))).
  vm_compute. reflexivity.
Defined.

Lemma filter_none {A} (f : A -> bool) (l : list A) :
  Forall (fun x => f x = false) l -> filter f l = [].
Proof.
  induction 1 as [|x l Hx _ IH]; cbn [filter]; [reflexivity|]. now rewrite Hx.
Qed.

Lemma filter_all {A} (f : A -> bool) (l : list A) :
  Forall (fun x => f x = true) l -> filter f l = l.
Proof.
  induction 1 as [|x l Hx _ IH]; cbn [filter]; [reflexivity|]. now rewrite Hx, IH.
Qed.

(** X21: [validateNesting] and [validateTagClosure] agree on every token
    sequence: they answer [valid] together, the unclosed tags of the one
    are the ["unclosed"] issues of the other, in order, and the close tags
    of its mismatches are the tags of the other issues, in order. *)
Theorem validateNesting_agrees_with_validateTagClosure (tokens : list TamlToken) :
  nestingValid (validateNesting tokens) = fst (validateTagClosure tokens) /\
  unclosedTags (validateNesting tokens)
  = map issueTagName (filter isUnclosedIssue (snd (validateTagClosure tokens))) /\
  map snd (mismatchedTags (validateNesting tokens))
  = map issueTagName
      (filter (fun i => negb (isUnclosedIssue i)) (snd (validateTagClosure tokens))).
Proof.
  unfold validateNesting, validateTagClosure.
  pose proof (@validators_agree_fold tokens [] [] [] (Forall_nil _) eq_refl (Forall_nil _))
    as H.
  cbv zeta in H. cbn [map] in H.
  destruct (fold_left nestingStep tokens ([], [])) as [s1 m1].
  destruct (fold_left closureStep tokens ([], [])) as [s2 i2].
  cbn [fst snd] in H. destruct H as (Hs & Hm & Hu).
  cbn [nestingValid unclosedTags mismatchedTags fst snd].
  assert (Hun : Forall (fun i => isUnclosedIssue i = true)
                  (map (fun e : jsString * nat =>
                          mkClosureIssue IssueUnclosed (fst e) (snd e)) s2)).
  { apply Forall_forall. intros i Hi. apply in_map_iff in Hi as (e & <- & _). reflexivity. }
  split; [|split].
  - rewrite length_app, length_map. rewrite <- Hs, length_map.
    apply (f_equal (@length _)) in Hm. rewrite !length_map in Hm. rewrite Hm.
    destruct (length s2), (length i2); reflexivity.
  - rewrite filter_app, (filter_none _ Hu), (filter_all _ Hun). cbn [app].
    rewrite map_map. cbn [issueTagName]. exact (eq_sym Hs).
  - rewrite filter_app. rewrite (@filter_all _ (fun i => negb (isUnclosedIssue i)) i2).
    + rewrite (@filter_none _ (fun i => negb (isUnclosedIssue i))).
      * now rewrite app_nil_r.
      * eapply Forall_impl; [|exact Hun]. cbv beta. intros i ->. reflexivity.
    + eapply Forall_impl; [|exact Hu]. cbv beta. intros i ->. reflexivity.
Qed.

(** ** The tree builder against the validator *)

(** X23: the positioned error that [parseTaml] throws on a source that
    tokenizes is the first error that [validateTamlTokens] reports on its
    tokens, and the only one when it is an unclosed tag. *)
Theorem parseTaml_error_is_first_validator_error (source : jsString)
    (options : PartialOptions) (toks : list TamlToken) (e : TamlParseError) :
  tokenize source = Ok toks ->
  parseTaml source options = Throw (ParseError e) ->
  hd_error (errors (validateTamlTokens toks source)) = Some (ParseError e) /\
  (if isUnclosedError e
   then errors (validateTamlTokens toks source) = [ParseError e] else True).
Proof.
  intros Htok. pose proof (tokenize_full source) as Hf. rewrite Htok in Hf.
  destruct Hf as (Hall & _).
  unfold parseTaml. cbv zeta. unfold parseWithOptions. rewrite Htok. cbn [bind].
  unfold parseTokens, pbind, parseNodesWithDepth.
  destruct (maxDepth (withDefaults options) <? 0) eqn:E0;
    [apply Nat.ltb_lt in E0; lia|].
  destruct (parseNodesLoop source toks (S (length toks)) 0
              (maxDepth (withDefaults options)) [] (mkParseContext 0 []))
    as [r ctx'] eqn:Hl.
  assert (Hsc0 : scanned source toks (mkParseContext 0 [])).
  { split; [reflexivity|constructor]. }
  pose proof (@parseNodesLoop_scanned source toks Hall _ _ _ _ _ _ _ Hl Hsc0) as Hsc.
  destruct r as [children|e1|]; cbn [fst bind].
  - destruct Hsc as (_ & Hstk & _). cbn [tagStack] in Hstk. rewrite Hstk.
    cbn [stackTop fst bind]. destruct (negb _); discriminate.
  - intros [= ->]. destruct Hsc as (Hsc & Hat).
    unfold validateTamlTokens. now apply validateTokens_first_error with (ctx := ctx').
  - discriminate.
Qed.

Lemma parseTaml_error_is_first_validator_error_witness :
  hd_error (errors (validateTamlTokens (tokensOf (str "<red><bold>a</red>"))
                      (str "<red><bold>a</red>")))
  = Some (ParseError (MismatchedTagError (str "bold") (str "red") 12 1 13
                        (Some (str "<red><bold>a</red>")))) /\
  (if isUnclosedError (MismatchedTagError (str "bold") (str "red") 12 1 13
                         (Some (str "<red><bold>a</red>")))
   then errors (validateTamlTokens (tokensOf (str "<red><bold>a</red>"))
                  (str "<red><bold>a</red>"))
        = [ParseError (MismatchedTagError (str "bold") (str "red") 12 1 13
                         (Some (str "<red><bold>a</red>")))]
   else True).
Proof.
  apply (@parseTaml_error_is_first_validator_error (str "<red><bold>a</red>") noOptions
           (tokensOf (str "<red><bold>a</red>"))).
  - vm_compute. reflexivity.
  - vm_compute. reflexivity.
Defined.
